(** * SevSeg: a multiplexed seven-segment display driver

    Shallow embedding of [SevSeg.cpp] and verification of its digit encoder
    ([findDigits], [setDigitCodes], [setNewNum], [setNumber]) and of its
    refresh engine ([lightsOn], [lightsOff], [updateDisplay], [clearDisplay]).

    Conventions of the embedding.
    - A [byte] is a [Z] in [0, 256); a [long] is a [Z] in [-2^31, 2^31).
      Conversions and wrap-around are written out ([to_byte], [wrap32]).
    - Loop counters and array indices are [nat]; where the source computes an
      index in [int] arithmetic that can go negative
      ([numDigits - 1 - decPlaces]) the computation is done in [Z].
    - C arrays are lists.  A read or a write outside the array is undefined
      behaviour in the source; here it makes the operation return [None].
    - [digitalWrite], [pinMode] and [delayMicroseconds] are recorded as a
      trace of [Event]s, in program order. *)

From stdpp Require Import base option list numbers.
From Stdlib Require Import ZArith Lia.

Local Open Scope Z_scope.

(** ** Machine integers *)

(** [byte] conversion: keep the low 8 bits. *)
Definition to_byte (x : Z) : Z := x `mod` 256.

(** [long] is 32 bits wide on the AVR targets of the library; arithmetic that
    leaves the range wraps around (two's complement). *)
Definition wrap32 (x : Z) : Z := (x + 2 ^ 31) `mod` 2 ^ 32 - 2 ^ 31.

Definition is_long (x : Z) : Prop := - 2 ^ 31 <= x < 2 ^ 31.

(** ** Arrays *)

(** [a[i]] for an [int] index. *)
Definition load (a : list Z) (i : Z) : option Z :=
  if decide (i < 0) then None else a !! Z.to_nat i.

(** [a[i] = v]. *)
Definition store (a : list Z) (i : nat) (v : Z) : option (list Z) :=
  if decide (i < length a)%nat then Some (<[i := v]> a) else None.

(** ** Constants of [SevSeg.cpp] *)

Definition BLANK : Z := 10.
Definition DASH : Z := 11.

Definition powersOf10 : list Z :=
  [ 1; 10; 100; 1000; 10000; 100000; 1000000; 10000000; 100000000;
    1000000000 ].

(** The table local to [setDigitCodes]; bit [i] is segment [i], bit 7 the
    decimal point. *)
Definition digitCodeMap : list Z :=
  [ 0x3F; 0x06; 0x5B; 0x4F; 0x66; 0x6D; 0x7D; 0x07; 0x7F; 0x6F;
    0x00;   (* BLANK *)
    0x40 ]. (* DASH *)

(** ** Digit encoder *)

(** The two function-local statics of [findDigits], [(maxNum, minNum)].
    They are initialised when control first passes their declaration and are
    shared by every later call, of every instance: [None] is "not yet
    initialised". *)
Definition Statics : Type := option (Z * Z).

(** Initialisers of [maxNum] and [minNum]. *)
Definition init_bounds (numDigits : nat) : option (Z * Z) :=
  hi ← load powersOf10 (Z.of_nat numDigits);
  lo ← load powersOf10 (Z.of_nat numDigits - 1);
  Some (wrap32 (hi - 1), wrap32 (- wrap32 (lo - 1))).

Definition get_bounds (numDigits : nat) (s : Statics) : option (Z * Z) :=
  match s with
  | Some b => Some b
  | None => init_bounds numDigits
  end.

(** [numToShow > maxNum || numToShow < minNum] *)
Definition out_of_range (b : Z * Z) (numToShow : Z) : bool :=
  (b.1 <? numToShow) || (numToShow <? b.2).

(** [for (digitNum = 0; digitNum < numDigits; digitNum++) digits[digitNum] = DASH;]
    with [n] iterations left. *)
Fixpoint fill_dash (n digitNum : nat) (digits : list Z) : option (list Z) :=
  match n with
  | O => Some digits
  | S n' =>
      digits' ← store digits digitNum DASH;
      fill_dash n' (S digitNum) digits'
  end.

(** The base-10 loop of [findDigits], with [n] iterations left. *)
Fixpoint decompose (n numDigits digitNum : nat) (numToShow : Z)
    (digits : list Z) : option (list Z) :=
  match n with
  | O => Some digits
  | S n' =>
      factor ← load powersOf10 (Z.of_nat numDigits - 1 - Z.of_nat digitNum);
      let d := to_byte (numToShow `quot` factor) in
      digits' ← store digits digitNum d;
      decompose n' numDigits (S digitNum)
        (wrap32 (numToShow - wrap32 (d * factor))) digits'
  end.

(** The leading-zero loop of [findDigits], with [n] iterations left. *)
Fixpoint blank_leading (n digitNum : nat) (digits : list Z)
    : option (list Z) :=
  match n with
  | O => Some digits
  | S n' =>
      d ← digits !! digitNum;
      if d =? 0 then
        digits' ← store digits digitNum BLANK;
        blank_leading n' (S digitNum) digits'
      else if d <=? 9 then Some digits
      else blank_leading n' (S digitNum) digits
  end.

(** Number of iterations of [for (digitNum = 0; digitNum < bound; digitNum++)]
    for an [int] bound. *)
Definition boundary (numDigits decPlaces : nat) : Z :=
  Z.of_nat numDigits - 1 - Z.of_nat decPlaces.

(** The in-range branch of [findDigits] up to the leading-zero loop: sign,
    then base-10 digits. *)
Definition sign_and_digits (numDigits : nat) (numToShow : Z)
    (digits : list Z) : option (list Z) :=
  if numToShow <? 0 then
    digits' ← store digits 0 DASH;
    decompose (numDigits - 1) numDigits 1 (wrap32 (- numToShow)) digits'
  else
    decompose numDigits numDigits 0 numToShow digits.

Definition findDigits (numDigits : nat) (s : Statics) (numToShow : Z)
    (decPlaces : nat) (digits : list Z) : option (Statics * list Z) :=
  b ← get_bounds numDigits s;
  if out_of_range b numToShow then
    digits' ← fill_dash numDigits 0 digits;
    Some (Some b, digits')
  else
    digits1 ← sign_and_digits numDigits numToShow digits;
    digits2 ← blank_leading (Z.to_nat (boundary numDigits decPlaces)) 0 digits1;
    Some (Some b, digits2).

(** The loop of [setDigitCodes], with [n] iterations left. *)
Fixpoint setDigitCodes_loop (n numDigits digitNum : nat) (digits : list Z)
    (decPlaces : nat) (digitCodes : list Z) : option (list Z) :=
  match n with
  | O => Some digitCodes
  | S n' =>
      g ← digits !! digitNum;
      c ← load digitCodeMap g;
      digitCodes1 ← store digitCodes digitNum c;
      digitCodes2 ←
        (if Z.of_nat digitNum =? boundary numDigits decPlaces then
           c' ← digitCodes1 !! digitNum;
           store digitCodes1 digitNum (Z.lor c' 0x80)
         else Some digitCodes1);
      setDigitCodes_loop n' numDigits (S digitNum) digits decPlaces digitCodes2
  end.

Definition setDigitCodes (numDigits : nat) (digits : list Z) (decPlaces : nat)
    (digitCodes : list Z) : option (list Z) :=
  setDigitCodes_loop numDigits numDigits 0 digits decPlaces digitCodes.

(** ** Driver state *)

(** Build-time configuration: the macros [RESISTORS] and [S7_DIGITS] come
    from [SevSeg.h] and select, by [#if], one of the two versions of
    [lightsOn] and [lightsOff].  They are parameters of the functions that
    depend on them. *)
Inductive Resistors : Set := ON_DIGITS | ON_SEGMENTS.

Record Build : Set := {
  RESISTORS : Resistors;  (* where the current-limiting resistors sit *)
  S7_DIGITS : nat         (* capacity of [digitPins] and [digitCodes] *)
}.

(** Modelled from the spec: [SevSeg.h], which defines [S7_SEGMENTS], is not
    part of the sources at hand.  The spec counts "8 (segments incl. DP)",
    and [begin] copies and configures exactly 8 segment pins. *)
Definition S7_SEGMENTS : nat := 8.

(** Modelled from the spec: [SEGMENTS], the bound of the segment loops in the
    resistors-on-segments version, is defined in [SevSeg.h] as well; that
    version switches "every segment line", 7 segments and the decimal
    point. *)
Definition SEGMENTS : nat := 8.

Definition LOW : Z := 0.
Definition HIGH : Z := 1.
Definition OUTPUT : Z := 1.

(** The data members of class [SevSeg].  [common] is the refresh cursor of
    [updateDisplay]; its declaration is in [SevSeg.h], and it is taken to be
    a [byte] like every other counter of the class. *)
Record SevSeg : Set := {
  numDigits : nat;
  digitOn : Z;
  digitOff : Z;
  segmentOn : Z;
  segmentOff : Z;
  digitPins : list Z;
  segmentPins : list Z;
  digitCodes : list Z;
  ledOnTime : Z;
  common : nat
}.

Definition set_digitCodes (d : SevSeg) (codes : list Z) : SevSeg :=
  {| numDigits := numDigits d; digitOn := digitOn d; digitOff := digitOff d;
     segmentOn := segmentOn d; segmentOff := segmentOff d;
     digitPins := digitPins d; segmentPins := segmentPins d;
     digitCodes := codes; ledOnTime := ledOnTime d; common := common d |}.

Definition set_common (d : SevSeg) (c : nat) : SevSeg :=
  {| numDigits := numDigits d; digitOn := digitOn d; digitOff := digitOff d;
     segmentOn := segmentOn d; segmentOff := segmentOff d;
     digitPins := digitPins d; segmentPins := segmentPins d;
     digitCodes := digitCodes d; ledOnTime := ledOnTime d; common := c |}.

(** Calls into the Arduino core, in program order. *)
Inductive Event : Set :=
  | digitalWrite (pin level : Z)
  | pinMode (pin mode : Z)
  | delayMicroseconds (us : Z).

(** ** Encoder entry points *)

(** [setNewNum] allocates [byte digits[numDigits]]; its initial contents are
    never read (see [findDigits_init_irrelevant]). *)
Definition setNewNum (s : Statics) (d : SevSeg) (numToShow : Z)
    (decPlaces : nat) : option (Statics * SevSeg) :=
  r ← findDigits (numDigits d) s numToShow decPlaces
        (replicate (numDigits d) 0);
  codes ← setDigitCodes (numDigits d) r.2 decPlaces (digitCodes d);
  Some (r.1, set_digitCodes d codes).

(** [setNumber(long, byte)] *)
Definition setNumber (s : Statics) (d : SevSeg) (numToShow : Z)
    (decPlaces : nat) : option (Statics * SevSeg) :=
  setNewNum s d numToShow decPlaces.

(** ** Refresh engine *)

(** [for (i = 0; i < n; i++) digitalWrite(pins[i], level);] *)
Definition write_all (n : nat) (pins : list Z) (level : Z)
    : option (list Event) :=
  mapM (λ i, pin ← pins !! i; Some (digitalWrite pin level)) (seq 0 n).

(** The first loop of [lightsOn], resistors on digits: switch on the digits
    whose code has the bit of [bitmask]. *)
Definition digits_on (d : SevSeg) (bitmask : Z) : option (list Event) :=
  ws ← mapM (λ digit,
              code ← digitCodes d !! digit;
              if Z.land code bitmask =? 0 then Some []
              else pin ← digitPins d !! digit;
                   Some [digitalWrite pin (digitOn d)])
           (seq 0 (numDigits d));
  Some (concat ws).

(** The first loop of [lightsOn], resistors on segments: switch on the
    segments set in [code]. *)
Definition segments_on (d : SevSeg) (code : Z) : option (list Event) :=
  ws ← mapM (λ segment,
              if Z.land code (Z.shiftl 1 (Z.of_nat segment)) =? 0 then Some []
              else pin ← segmentPins d !! segment;
                   Some [digitalWrite pin (segmentOn d)])
           (seq 0 SEGMENTS);
  Some (concat ws).

Definition lightsOn (b : Build) (d : SevSeg) (step : nat)
    : option (list Event) :=
  match RESISTORS b with
  | ON_DIGITS =>
      let bitmask := to_byte (Z.shiftl 1 (Z.of_nat step)) in
      ws ← digits_on d bitmask;
      pin ← segmentPins d !! step;
      Some (ws ++ [digitalWrite pin (segmentOn d)])
  | ON_SEGMENTS =>
      code ← digitCodes d !! step;
      ws ← segments_on d code;
      pin ← digitPins d !! step;
      Some (ws ++ [digitalWrite pin (digitOn d)])
  end.

Definition lightsOff (b : Build) (d : SevSeg) (step : nat)
    : option (list Event) :=
  match RESISTORS b with
  | ON_DIGITS =>
      pin ← segmentPins d !! step;
      ws ← write_all (numDigits d) (digitPins d) (digitOff d);
      Some (digitalWrite pin (segmentOff d) :: ws)
  | ON_SEGMENTS =>
      pin ← digitPins d !! step;
      ws ← write_all SEGMENTS (segmentPins d) (segmentOff d);
      Some (digitalWrite pin (digitOff d) :: ws)
  end.

Definition REFRESH_STEPS (b : Build) (d : SevSeg) : nat :=
  match RESISTORS b with
  | ON_DIGITS => S7_SEGMENTS
  | ON_SEGMENTS => numDigits d
  end.

(** [if (++common == REFRESH_STEPS) common = 0;] on a [byte] cursor. *)
Definition next_common (b : Build) (d : SevSeg) : nat :=
  let c := (S (common d) `mod` 256)%nat in
  if (c =? REFRESH_STEPS b d)%nat then O else c.

Definition updateDisplay (b : Build) (d : SevSeg)
    : option (SevSeg * list Event) :=
  off ← lightsOff b d (common d);
  let d' := set_common d (next_common b d) in
  on ← lightsOn b d' (common d');
  Some (d', off ++ on).

Definition clearDisplay (d : SevSeg) : option (SevSeg * list Event) :=
  digits ← write_all (numDigits d) (digitPins d) (digitOff d);
  segments ← write_all S7_SEGMENTS (segmentPins d) (segmentOff d);
  Some (d, digits ++ segments).

(** One step of [refreshDisplay]. *)
Definition refresh_step (b : Build) (d : SevSeg) (step : nat)
    : option (list Event) :=
  on ← lightsOn b d step;
  off ← lightsOff b d step;
  Some (on ++ delayMicroseconds (ledOnTime d) :: off).

Definition refreshDisplay (b : Build) (d : SevSeg)
    : option (SevSeg * list Event) :=
  ts ← mapM (refresh_step b d) (seq 0 (REFRESH_STEPS b d));
  Some (d, concat ts).

(** [for (i = 0; i < n; i++) dst[i] = src[i];] *)
Definition copy_bytes (n : nat) (src dst : list Z) : option (list Z) :=
  foldl (λ acc i, a ← acc; v ← src !! i; store a i v) (Some dst) (seq 0 n).

Definition setSegments (d : SevSeg) (segs : list Z) : option SevSeg :=
  codes ← copy_bytes (numDigits d) segs (digitCodes d);
  Some (set_digitCodes d codes).

(** ** Initialisation *)

(** [for (i = 0; i < n; i++) { pinMode(pins[i], OUTPUT);
    digitalWrite(pins[i], level); }] *)
Definition setup_pins (n : nat) (pins : list Z) (level : Z)
    : option (list Event) :=
  ws ← mapM (λ i, pin ← pins !! i;
                  Some [pinMode pin OUTPUT; digitalWrite pin level])
            (seq 0 n);
  Some (concat ws).

(** The [switch (hardwareConfig)] of [begin]: [(digitOn, segmentOn)]; a value
    outside the four cases leaves both members as they were. *)
Definition polarity (d : SevSeg) (hardwareConfig : Z) : Z * Z :=
  match hardwareConfig with
  | 0 => (LOW, HIGH)
  | 1 => (HIGH, LOW)
  | 2 => (HIGH, HIGH)
  | 3 => (LOW, LOW)
  | _ => (digitOn d, segmentOn d)
  end.

(** [!level] *)
Definition lnot (level : Z) : Z := if level =? 0 then 1 else 0.

Definition begin (b : Build) (s : Statics) (d : SevSeg) (hardwareConfig : Z)
    (numDigitsIn : nat) (digitPinsIn segmentPinsIn : list Z)
    : option (Statics * SevSeg * list Event) :=
  let n := if (S7_DIGITS b <? numDigitsIn)%nat then S7_DIGITS b
           else numDigitsIn in
  let on := polarity d hardwareConfig in
  segs ← copy_bytes 8 segmentPinsIn (segmentPins d);
  digs ← copy_bytes n digitPinsIn (digitPins d);
  let d1 :=
    {| numDigits := n; digitOn := on.1; digitOff := lnot on.1;
       segmentOn := on.2; segmentOff := lnot on.2;
       digitPins := digs; segmentPins := segs;
       digitCodes := digitCodes d; ledOnTime := ledOnTime d;
       common := common d |} in
  t1 ← setup_pins n digs (digitOff d1);
  t2 ← setup_pins 8 segs (segmentOff d1);
  r ← setNewNum s d1 0 0;
  Some (r.1, r.2, t1 ++ t2).

(** ** Call sequences *)

(** The public calls of the class that the properties below range over. *)
Inductive Call : Type :=
  | CBegin (hardwareConfig : Z) (numDigitsIn : nat)
           (digitPinsIn segmentPinsIn : list Z)
  | CSetNumber (numToShow : Z) (decPlaces : nat)
  | CSetSegments (segs : list Z)
  | CRefreshDisplay
  | CUpdateDisplay
  | CClearDisplay.

(** The whole program state: the statics of [findDigits], one driver
    instance, and the trace of calls into the Arduino core so far. *)
Record World : Type := {
  statics : Statics;
  driver : SevSeg;
  trace : list Event
}.

Definition call (b : Build) (w : World) (c : Call) : option World :=
  match c with
  | CBegin hw n dp sp =>
      r ← begin b (statics w) (driver w) hw n dp sp;
      Some {| statics := r.1.1; driver := r.1.2; trace := trace w ++ r.2 |}
  | CSetNumber v dp =>
      r ← setNumber (statics w) (driver w) v dp;
      Some {| statics := r.1; driver := r.2; trace := trace w |}
  | CSetSegments segs =>
      d ← setSegments (driver w) segs;
      Some {| statics := statics w; driver := d; trace := trace w |}
  | CRefreshDisplay =>
      r ← refreshDisplay b (driver w);
      Some {| statics := statics w; driver := r.1; trace := trace w ++ r.2 |}
  | CUpdateDisplay =>
      r ← updateDisplay b (driver w);
      Some {| statics := statics w; driver := r.1; trace := trace w ++ r.2 |}
  | CClearDisplay =>
      r ← clearDisplay (driver w);
      Some {| statics := statics w; driver := r.1; trace := trace w ++ r.2 |}
  end.

Definition run (b : Build) (w : World) (cs : list Call) : option World :=
  foldl (λ acc c, w' ← acc; call b w' c) (Some w) cs.

(** The object as the constructor leaves it, before [begin]; the members the
    constructor does not assign are given as [d0]. *)
Definition SevSeg_ctor (d0 : SevSeg) : SevSeg :=
  {| numDigits := 0; digitOn := digitOn d0; digitOff := digitOff d0;
     segmentOn := segmentOn d0; segmentOff := segmentOff d0;
     digitPins := digitPins d0; segmentPins := segmentPins d0;
     digitCodes := digitCodes d0; ledOnTime := 2000; common := common d0 |}.

(** ** Reading a display back

    The inverse of the encoder, used to state that the encoder loses nothing:
    a segment code is looked up in the glyph table with its decimal-point bit
    masked, blank positions are dropped, a leading dash is a minus sign, and
    the remaining glyphs are read as a base-10 numeral. *)

Fixpoint index_of (c : Z) (tbl : list Z) (i : Z) : option Z :=
  match tbl with
  | [] => None
  | x :: tbl' => if x =? c then Some i else index_of c tbl' (i + 1)
  end.

Definition glyph_of_code (code : Z) : option Z :=
  index_of (Z.land code 0x7F) digitCodeMap 0.

Fixpoint digits_value (acc : Z) (glyphs : list Z) : option Z :=
  match glyphs with
  | [] => Some acc
  | g :: gs =>
      if (0 <=? g) && (g <=? 9) then digits_value (acc * 10 + g) gs else None
  end.

Definition not_blank (g : Z) : bool := negb (g =? BLANK).

Definition glyphs_value (glyphs : list Z) : option Z :=
  match List.filter not_blank glyphs with
  | [] => None
  | g :: gs =>
      if g =? DASH then
        match gs with
        | [] => None
        | _ => Z.opp <$> digits_value 0 gs
        end
      else digits_value 0 (g :: gs)
  end.

Definition decode (codes : list Z) : option Z :=
  glyphs ← mapM glyph_of_code codes;
  glyphs_value glyphs.

(** The range of values a display of [numDigits] digits can show. *)
Definition maxValue (numDigits : nat) : Z := 10 ^ Z.of_nat numDigits - 1.
Definition minValue (numDigits : nat) : Z :=
  - (10 ^ (Z.of_nat numDigits - 1) - 1).

(** The statics of [findDigits] are fresh, or were initialised for
    [numDigits] digits. *)
Definition statics_for (numDigits : nat) (s : Statics) : Prop :=
  s = None ∨ s = Some (maxValue numDigits, minValue numDigits).

(** ** Functional descriptions of the loops *)

(** The base-10 numeral of [x] on [m] positions, most significant first. *)
Fixpoint base10 (m : nat) (x : Z) : list Z :=
  match m with
  | O => []
  | S m' => x `div` 10 ^ Z.of_nat m' :: base10 m' (x `mod` 10 ^ Z.of_nat m')
  end.

(** What [sign_and_digits] leaves in the array for an in-range value. *)
Definition signed_numeral (numDigits : nat) (v : Z) : list Z :=
  if v <? 0 then DASH :: base10 (numDigits - 1) (- v)
  else base10 numDigits v.

(** The leading-zero loop as a recursion on the array contents. *)
Fixpoint blank_list (n : nat) (l : list Z) : list Z :=
  match n, l with
  | S n', d :: l' =>
      if d =? 0 then BLANK :: blank_list n' l'
      else if d <=? 9 then l
      else d :: blank_list n' l'
  | _, _ => l
  end.

(** A leading-zero pass described position by position: the glyph at index
    [i] becomes [BLANK] when [i] is before [bound], the glyph is 0, and no
    glyph before it satisfies [stop]; every other glyph is kept. *)
Definition blank_pass (stop : Z → bool) (bound : Z) (pre : list Z) : list Z :=
  imap (λ i g,
          if (Z.of_nat i <? bound) && (g =? 0)
             && forallb (λ h, negb (stop h)) (take i pre)
          then BLANK else g)
       pre.

(** The scan stops at any glyph other than 0. *)
Definition nonzero_glyph (g : Z) : bool := negb (g =? 0).

(** The scan stops at a digit 1..9 (a glyph other than 0 that is at most
    9); a [DASH] is passed over. *)
Definition nonzero_digit (g : Z) : bool := negb (g =? 0) && (g <=? 9).

(** The segment code [setDigitCodes] stores at index [i] for glyph [g]. *)
Definition code_at (numDigits decPlaces i : nat) (g : Z) : Z :=
  let c := default 0 (load digitCodeMap g) in
  if Z.of_nat i =? boundary numDigits decPlaces then Z.lor c 0x80 else c.

Definition is_glyph (g : Z) : Prop := 0 <= g <= 11.
Definition is_digit (g : Z) : Prop := 0 <= g <= 9.

(** The decimal-point bit of a segment code. *)
Definition dp_bit (code : Z) : bool := Z.testbit code 7.

(** ** Well-formed drivers and repeated ticks *)

(** The arrays of the object cover the lines in use: [begin] establishes this
    by clamping [numDigits] to [S7_DIGITS]. *)
Definition wired (d : SevSeg) : Prop :=
  (numDigits d <= length (digitPins d))%nat
  ∧ (numDigits d <= length (digitCodes d))%nat
  ∧ (8 <= length (segmentPins d))%nat
  ∧ (numDigits d < 256)%nat.

(** [a[i]] for an index known to be in range. *)
Definition elt (a : list Z) (i : nat) : Z := default 0 (a !! i).

(** [n] calls of [updateDisplay] in a row, with the concatenated trace. *)
Fixpoint ticks (b : Build) (n : nat) (d : SevSeg)
    : option (SevSeg * list Event) :=
  match n with
  | O => Some (d, [])
  | S n' =>
      r ← updateDisplay b d;
      r' ← ticks b n' r.1;
      Some (r'.1, r.2 ++ r'.2)
  end.

(** The line that [lightsOn] switches last, and the level it gets: the
    shared segment line with resistors on digits, the digit line with
    resistors on segments. *)
Definition common_line_on (b : Build) (d : SevSeg) (step : nat) : Event :=
  match RESISTORS b with
  | ON_DIGITS => digitalWrite (elt (segmentPins d) step) (segmentOn d)
  | ON_SEGMENTS => digitalWrite (elt (digitPins d) step) (digitOn d)
  end.

(** The line that [lightsOff] switches first, and the level it gets. *)
Definition common_line_off (b : Build) (d : SevSeg) (step : nat) : Event :=
  match RESISTORS b with
  | ON_DIGITS => digitalWrite (elt (segmentPins d) step) (segmentOff d)
  | ON_SEGMENTS => digitalWrite (elt (digitPins d) step) (digitOff d)
  end.

(** The lines that [lightsOn] switches on before the common one: with
    resistors on digits, the digits whose code has the bit of the segment;
    with resistors on segments, the segments set in the code of the digit. *)
Definition lit_lines (b : Build) (d : SevSeg) (step : nat) : list Event :=
  match RESISTORS b with
  | ON_DIGITS =>
      concat
        ((λ digit,
            if Z.land (elt (digitCodes d) digit)
                      (to_byte (Z.shiftl 1 (Z.of_nat step))) =? 0
            then []
            else [digitalWrite (elt (digitPins d) digit) (digitOn d)])
           <$> seq 0 (numDigits d))
  | ON_SEGMENTS =>
      concat
        ((λ segment,
            if Z.land (elt (digitCodes d) step)
                      (Z.shiftl 1 (Z.of_nat segment)) =? 0
            then []
            else [digitalWrite (elt (segmentPins d) segment) (segmentOn d)])
           <$> seq 0 SEGMENTS)
  end.

(** The lines that [lightsOff] switches off after the common one. *)
Definition dark_lines (b : Build) (d : SevSeg) : list Event :=
  match RESISTORS b with
  | ON_DIGITS =>
      (λ i, digitalWrite (elt (digitPins d) i) (digitOff d))
        <$> seq 0 (numDigits d)
  | ON_SEGMENTS =>
      (λ i, digitalWrite (elt (segmentPins d) i) (segmentOff d))
        <$> seq 0 SEGMENTS
  end.

(** A four-digit common-cathode display on pins 2..5 and 6..13, showing
    nothing yet. *)
Definition demo : SevSeg :=
  {| numDigits := 4; digitOn := LOW; digitOff := HIGH;
     segmentOn := HIGH; segmentOff := LOW;
     digitPins := [2; 3; 4; 5];
     segmentPins := [6; 7; 8; 9; 10; 11; 12; 13];
     digitCodes := [0; 0; 0; 0]; ledOnTime := 2000; common := 0 |}.

Definition on_digits : Build := {| RESISTORS := ON_DIGITS; S7_DIGITS := 8 |}.
Definition on_segments : Build :=
  {| RESISTORS := ON_SEGMENTS; S7_DIGITS := 8 |}.

(** [demo] after [setNumber(1234, 0)], in a program that has sent nothing to
    the pins yet. *)
Definition demo_world : World :=
  {| statics := Some (maxValue 4, minValue 4);
     driver := set_digitCodes demo [0x06; 0x5B; 0x4F; 0xE6];
     trace := [] |}.

(** A freshly started program: [demo]'s wiring in an object on which only
    the constructor has run, and [findDigits] never called. *)
Definition fresh_world : World :=
  {| statics := None; driver := SevSeg_ctor demo; trace := [] |}.

(** [fresh_world] after [begin] for the four digits of [demo], and then
    after [setNumber(1234, 0)] and a second [begin] for two digits. *)
Definition begin_4 : Call :=
  CBegin 0 4 [2; 3; 4; 5] [6; 7; 8; 9; 10; 11; 12; 13].
Definition begin_2 : Call :=
  CBegin 0 2 [2; 3] [6; 7; 8; 9; 10; 11; 12; 13].

Definition world_4 : World :=
  Eval vm_compute in default fresh_world (call on_digits fresh_world begin_4).
Definition world_4_2 : World :=
  Eval vm_compute in
    default fresh_world (run on_digits world_4 [CSetNumber 1234 0; begin_2]).

(** The branch of [findDigits] taken when the range test passes. *)
Definition in_range_branch (numDigits : nat) (b : Z * Z) (numToShow : Z)
    (decPlaces : nat) (digits : list Z) : option (Statics * list Z) :=
  digits1 ← sign_and_digits numDigits numToShow digits;
  digits2 ← blank_leading (Z.to_nat (boundary numDigits decPlaces)) 0 digits1;
  Some (Some b, digits2).

(** ** [float] arithmetic

    [float] is IEEE-754 binary32.  A finite value is kept as an integer
    significand and a binary exponent, [mant * 2 ^ expo]; an operation
    computes the exact result and rounds it to 24 significant bits,
    nearest with ties to even, with gradual underflow at exponent -149.  A
    result too large for the format (an infinity) is [None], and so is the
    conversion to [long] of a value outside the range of [long], which is
    undefined in the source language. *)

Record float32 : Set := { mant : Z; expo : Z }.

(** [m / 2 ^ sh], rounded to nearest, ties to even. *)
Definition rne_shift (m sh : Z) : Z :=
  if sh <=? 0 then m
  else
    let q := m `div` 2 ^ sh in
    let r := m `mod` 2 ^ sh in
    let half := 2 ^ (sh - 1) in
    if r <? half then q
    else if half <? r then q + 1
    else if Z.even q then q else q + 1.

Definition round24 (m e : Z) : option float32 :=
  let sh := Z.max 0 (Z.max (Z.log2 (Z.abs m) - 23) (-149 - e)) in
  let m' := rne_shift m sh in
  let e' := e + sh in
  if Z.abs m' * 2 ^ (e' + 149) <? 2 ^ (128 + 149)
  then Some {| mant := m'; expo := e' |}
  else None.

(** The exact sum, before rounding. *)
Definition exact_add (a b : float32) : float32 :=
  let e := Z.min (expo a) (expo b) in
  {| mant := mant a * 2 ^ (expo a - e) + mant b * 2 ^ (expo b - e);
     expo := e |}.

Definition fadd (a b : float32) : option float32 :=
  let s := exact_add a b in round24 (mant s) (expo s).

Definition fmul (a b : float32) : option float32 :=
  round24 (mant a * mant b) (expo a + expo b).

(** [long] to [float]. *)
Definition float_of_long (n : Z) : option float32 := round24 n 0.

(** [a >= 0] *)
Definition fge0 (a : float32) : bool := 0 <=? mant a.

(** The integer part of [a], towards zero. *)
Definition ftrunc (a : float32) : Z :=
  if 0 <=? expo a then mant a * 2 ^ expo a
  else mant a `quot` 2 ^ (- expo a).

(** [float] to [long]. *)
Definition long_of_float (a : float32) : option Z :=
  let n := ftrunc a in
  if (- 2 ^ 31 <=? n) && (n <? 2 ^ 31) then Some n else None.

Definition half : float32 := {| mant := 1; expo := -1 |}.
Definition minus_half : float32 := {| mant := -1; expo := -1 |}.

(** [setNumber(float, byte)] *)
Definition setNumber_float (s : Statics) (d : SevSeg) (numToShow : float32)
    (decPlaces : nat) : option (Statics * SevSeg) :=
  p ← powersOf10 !! decPlaces;
  pf ← float_of_long p;
  scaled ← fmul numToShow pf;
  rounded ← fadd scaled (if fge0 scaled then half else minus_half);
  n ← long_of_float rounded;
  setNewNum s d n decPlaces.

(** The value of [a] rounded to the nearest integer, halves away from
    zero. *)
Definition round_half_away (a : float32) : Z :=
  if 0 <=? expo a then mant a * 2 ^ expo a
  else Z.sgn (mant a)
       * ((Z.abs (mant a) + 2 ^ (- expo a - 1)) `div` 2 ^ (- expo a)).

(** The product [numToShow * powersOf10[decPlaces]] of [setNumber]. *)
Definition scaled_by (numToShow : float32) (decPlaces : nat)
    : option float32 :=
  p ← powersOf10 !! decPlaces;
  pf ← float_of_long p;
  fmul numToShow pf.

(** The sum [scaled + 0.5f] or [scaled - 0.5f] of [setNumber] is exact: it
    has at most 24 significant bits. *)
Definition sum_is_exact (scaled : float32) : Prop :=
  Z.abs (mant (exact_add scaled (if fge0 scaled then half else minus_half)))
    < 2 ^ 24.

(** 1.25f and -1.25f *)
Definition f_1_25 : float32 := {| mant := 5; expo := -2 |}.
Definition f_minus_1_25 : float32 := {| mant := -5; expo := -2 |}.

(** ** What the encoder shows *)

(** The decimal digit of [v] that belongs at position [i] of a display of
    [numDigits] digits: the digit of weight [10 ^ (numDigits - 1 - i)]. *)
Definition digit_at (numDigits : nat) (v : Z) (i : nat) : Z :=
  (Z.abs v `div` 10 ^ (Z.of_nat numDigits - 1 - Z.of_nat i)) `mod` 10.

(** The glyphs [findDigits] leaves in the array when its statics hold the
    bounds of [numDigits]. *)
Definition glyphs_shown (numDigits decPlaces : nat) (v : Z) : list Z :=
  if out_of_range (maxValue numDigits, minValue numDigits) v
  then replicate numDigits DASH
  else blank_list (Z.to_nat (boundary numDigits decPlaces))
         (signed_numeral numDigits v).

(** ** Raw segment codes from program memory *)

(** The loop of [setSegmentsPGM], with [n] iterations left: [segs] is what
    the pointer [segs] still has in front of it, and [pgm_read_byte(segs++)]
    takes its first byte. *)
Fixpoint setSegmentsPGM_loop (n digit : nat) (segs digitCodes : list Z)
    : option (list Z) :=
  match n with
  | O => Some digitCodes
  | S n' =>
      match segs with
      | [] => None
      | v :: segs' =>
          digitCodes' ← store digitCodes digit v;
          setSegmentsPGM_loop n' (S digit) segs' digitCodes'
      end
  end.

Definition setSegmentsPGM (d : SevSeg) (segs : list Z) : option SevSeg :=
  codes ← setSegmentsPGM_loop (numDigits d) 0 segs (digitCodes d);
  Some (set_digitCodes d codes).

(** ** Pin levels

    What the pins are left at: [digitalWrite] sets the level of its pin,
    the other calls change no level. *)

Definition drive (σ : Z → Z) (e : Event) : Z → Z :=
  match e with
  | digitalWrite pin level => λ q, if q =? pin then level else σ q
  | _ => σ
  end.

Definition drive_all (σ : Z → Z) (t : list Event) : Z → Z := foldl drive σ t.

(** The lines in use are on different pins. *)
Definition distinct_pins (d : SevSeg) : Prop :=
  NoDup (take (numDigits d) (digitPins d) ++ take 8 (segmentPins d)).

(** The two drive strategies side by side.  A step has one shared line (a
    segment line with resistors on digits, a digit line with resistors on
    segments) and the lines of the other kind as its members. *)
Definition common_pin (b : Build) (d : SevSeg) (step : nat) : Z :=
  match RESISTORS b with
  | ON_DIGITS => elt (segmentPins d) step
  | ON_SEGMENTS => elt (digitPins d) step
  end.

Definition member_pin (b : Build) (d : SevSeg) (i : nat) : Z :=
  match RESISTORS b with
  | ON_DIGITS => elt (digitPins d) i
  | ON_SEGMENTS => elt (segmentPins d) i
  end.

Definition member_count (b : Build) (d : SevSeg) : nat :=
  match RESISTORS b with
  | ON_DIGITS => numDigits d
  | ON_SEGMENTS => SEGMENTS
  end.

Definition common_level (b : Build) (d : SevSeg) (on : bool) : Z :=
  match RESISTORS b, on with
  | ON_DIGITS, true => segmentOn d
  | ON_DIGITS, false => segmentOff d
  | ON_SEGMENTS, true => digitOn d
  | ON_SEGMENTS, false => digitOff d
  end.

Definition member_level (b : Build) (d : SevSeg) (on : bool) : Z :=
  match RESISTORS b, on with
  | ON_DIGITS, true => digitOn d
  | ON_DIGITS, false => digitOff d
  | ON_SEGMENTS, true => segmentOn d
  | ON_SEGMENTS, false => segmentOff d
  end.

(** The test of [lightsOn] for member [i] in [step]. *)
Definition lit (b : Build) (d : SevSeg) (step i : nat) : bool :=
  match RESISTORS b with
  | ON_DIGITS =>
      negb (Z.land (elt (digitCodes d) i)
                   (to_byte (Z.shiftl 1 (Z.of_nat step))) =? 0)
  | ON_SEGMENTS =>
      negb (Z.land (elt (digitCodes d) step)
                   (Z.shiftl 1 (Z.of_nat i)) =? 0)
  end.

(** Segment [segment] of digit [digit] is to be lit: its bit is set in the
    segment code of the digit. *)
Definition led (d : SevSeg) (digit segment : nat) : bool :=
  Z.testbit (elt (digitCodes d) digit) (Z.of_nat segment).

(** Every shared line but that of [step] is at its inactive level. *)
Definition others_off (b : Build) (d : SevSeg) (σ : Z → Z) (step : nat)
    : Prop :=
  ∀ j, (j < REFRESH_STEPS b d)%nat → j ≠ step →
    σ (common_pin b d j) = common_level b d false.

(** The microseconds a trace spends in [delayMicroseconds]. *)
Definition delay_of (e : Event) : Z :=
  match e with
  | delayMicroseconds us => us
  | _ => 0
  end.

Definition total_delay (t : list Event) : Z :=
  foldr (λ e acc, delay_of e + acc) 0 t.

(** What one step of [refreshDisplay] sends to the pins: the lines of the
    step are switched on, the caller waits [ledOnTime] microseconds, and the
    lines are switched off. *)
Definition step_trace (b : Build) (d : SevSeg) (step : nat) : list Event :=
  (lit_lines b d step ++ [common_line_on b d step])
  ++ delayMicroseconds (ledOnTime d)
     :: common_line_off b d step :: dark_lines b d.

(** ** After [begin] *)

(** The digit count [begin] keeps: [numDigitsIn], cut down to [S7_DIGITS]. *)
Definition kept_digits (b : Build) (numDigitsIn : nat) : nat :=
  if (S7_DIGITS b <? numDigitsIn)%nat then S7_DIGITS b else numDigitsIn.

(** The driver [begin] leaves, the segment codes apart. *)
Definition begun (b : Build) (d : SevSeg) (hardwareConfig : Z)
    (numDigitsIn : nat) (digitPinsIn segmentPinsIn : list Z) : SevSeg :=
  let n := kept_digits b numDigitsIn in
  let on := polarity d hardwareConfig in
  {| numDigits := n; digitOn := on.1; digitOff := lnot on.1;
     segmentOn := on.2; segmentOff := lnot on.2;
     digitPins := take n digitPinsIn ++ drop n (digitPins d);
     segmentPins := take 8 segmentPinsIn ++ drop 8 (segmentPins d);
     digitCodes := digitCodes d; ledOnTime := ledOnTime d;
     common := common d |}.

(** What [begin] sends to the pins: each digit line, then each segment line,
    is made an output and driven to its inactive level. *)
Definition begin_trace (d' : SevSeg) : list Event :=
  concat ((λ i, [pinMode (elt (digitPins d') i) OUTPUT;
                 digitalWrite (elt (digitPins d') i) (digitOff d')])
            <$> seq 0 (numDigits d'))
  ++ concat ((λ j, [pinMode (elt (segmentPins d') j) OUTPUT;
                    digitalWrite (elt (segmentPins d') j) (segmentOff d')])
               <$> seq 0 8).

(** The arrays handed to [begin] and those of the object are long enough for
    the digit count kept. *)
Definition begin_fits (b : Build) (d : SevSeg) (numDigitsIn : nat)
    (digitPinsIn segmentPinsIn : list Z) : Prop :=
  let n := kept_digits b numDigitsIn in
  (n <= length digitPinsIn)%nat ∧ (8 <= length segmentPinsIn)%nat
  ∧ (n <= length (digitPins d))%nat ∧ (8 <= length (segmentPins d))%nat
  ∧ (n <= length (digitCodes d))%nat ∧ (numDigitsIn < 256)%nat.

(** An object of a build with [S7_DIGITS = 8], as the constructor leaves it:
    arrays of 8 entries, nothing set but [numDigits] and [ledOnTime]. *)
Definition object8 : SevSeg :=
  SevSeg_ctor
    {| numDigits := 0; digitOn := 0; digitOff := 0;
       segmentOn := 0; segmentOff := 0;
       digitPins := replicate 8 0; segmentPins := replicate 8 0;
       digitCodes := replicate 8 0; ledOnTime := 0; common := 0 |}.

(** The digit count of a call of [begin] is a [byte]. *)
Definition byte_args (c : Call) : Prop :=
  match c with
  | CBegin _ numDigitsIn _ _ => (numDigitsIn < 256)%nat
  | _ => True
  end.

(** ** Brightness *)

(** The two helpers of the Arduino core that [setBrightness] calls, as the
    core defines them: the macro [constrain(amt, low, high)] of [Arduino.h],
    [((amt) < (low) ? (low) : ((amt) > (high) ? (high) : (amt)))], and the
    function [long map(long x, long in_min, long in_max, long out_min,
    long out_max)] of [WMath.cpp], which returns
    [(x - in_min) * (out_max - out_min) / (in_max - in_min) + out_min]. *)
Module Arduino.

Definition constrain (amt low high : Z) : Z :=
  if amt <? low then low else if high <? amt then high else amt.

Definition map (x in_min in_max out_min out_max : Z) : Z :=
  wrap32
    (wrap32 (wrap32 (x - in_min) * wrap32 (out_max - out_min))
       `quot` wrap32 (in_max - in_min)
     + out_min).

End Arduino.

Definition set_ledOnTime (d : SevSeg) (t : Z) : SevSeg :=
  {| numDigits := numDigits d; digitOn := digitOn d; digitOff := digitOff d;
     segmentOn := segmentOn d; segmentOff := segmentOff d;
     digitPins := digitPins d; segmentPins := segmentPins d;
     digitCodes := digitCodes d; ledOnTime := t; common := common d |}.

(** [setBrightness(int)].  The value stored is between 1 and 2000 and so
    unchanged by the conversion to the type of [ledOnTime], which holds the
    2000 of the constructor. *)
Definition setBrightness (d : SevSeg) (brightness : Z) : SevSeg :=
  let brightness := Arduino.constrain brightness 0 100 in
  set_ledOnTime d (Arduino.map brightness 0 100 1 2000).

(** ** More on the [float] entry point *)

(** [-a] *)
Definition fneg (a : float32) : float32 :=
  {| mant := - mant a; expo := expo a |}.

(** The [long] that [setNumber(float, byte)] hands to [setNewNum]: the
    statements of the function up to the call. *)
Definition rounded_long (numToShow : float32) (decPlaces : nat) : option Z :=
  p ← powersOf10 !! decPlaces;
  pf ← float_of_long p;
  scaled ← fmul numToShow pf;
  rounded ← fadd scaled (if fge0 scaled then half else minus_half);
  long_of_float rounded.

(** ** Programs that call [begin] twice, and floats next to a rounding
    boundary *)

(** [fresh_world] after [begin] for two digits and then [begin] for the
    four digits of [demo]. *)
Definition world_2_4 : World :=
  Eval vm_compute in
    default fresh_world (run on_digits fresh_world [begin_2; begin_4]).

(** 0.49999997f, the largest [float] below one half, and 8388609.0f, a whole
    number of 24 bits. *)
Definition f_0_49999997 : float32 := {| mant := 2 ^ 24 - 1; expo := -25 |}.
Definition f_8388609 : float32 := {| mant := 8388609; expo := 0 |}.

(** A freshly started program whose object has room for eight digits, and
    the program after [begin] for eight digits. *)
Definition fresh_world_8 : World :=
  {| statics := None; driver := object8; trace := [] |}.
Definition begin_8 : Call :=
  CBegin 0 8 [2; 3; 4; 5; 6; 7; 8; 9] [10; 11; 12; 13; 14; 15; 16; 17].
Definition world_8 : World :=
  Eval vm_compute in
    default fresh_world_8 (call on_digits fresh_world_8 begin_8).
(** ** Basic facts *)

Lemma wrap32_id x : is_long x → wrap32 x = x.
Proof.
  unfold is_long, wrap32. intros H.
  rewrite Z.mod_small by lia. lia.
Qed.

Lemma to_byte_id x : 0 <= x < 256 → to_byte x = x.
Proof. unfold to_byte. intros H. apply Z.mod_small. lia. Qed.

Lemma load_nat (a : list Z) (i : nat) : load a (Z.of_nat i) = a !! i.
Proof.
  unfold load. destruct (decide (Z.of_nat i < 0)); [lia|].
  by rewrite Nat2Z.id.
Qed.

Lemma store_Some (a : list Z) i v :
  (i < length a)%nat → store a i v = Some (<[i := v]> a).
Proof. unfold store. intros H. by rewrite decide_True. Qed.

Lemma powersOf10_lookup (i : nat) :
  (i <= 9)%nat → powersOf10 !! i = Some (10 ^ Z.of_nat i).
Proof.
  intros H. do 10 (destruct i as [|i]; [reflexivity|]). lia.
Qed.

Lemma powersOf10_load (i : Z) :
  0 <= i <= 9 → load powersOf10 i = Some (10 ^ i).
Proof.
  intros H. rewrite <- (Z2Nat.id i) by lia.
  rewrite load_nat, powersOf10_lookup by lia. done.
Qed.

Lemma pow10_pos (i : Z) : 0 <= i → 0 < 10 ^ i.
Proof. intros. apply Z.pow_pos_nonneg; lia. Qed.

Lemma pow10_le_9 (i : Z) : 0 <= i <= 9 → 10 ^ i <= 10 ^ 9.
Proof. intros. apply Z.pow_le_mono_r; lia. Qed.

Lemma init_bounds_ok (n : nat) :
  (1 <= n <= 9)%nat → init_bounds n = Some (maxValue n, minValue n).
Proof.
  intros H. unfold init_bounds, maxValue, minValue.
  rewrite !powersOf10_load by lia. simpl.
  pose proof (pow10_pos (Z.of_nat n)) as H1.
  pose proof (pow10_pos (Z.of_nat n - 1)) as H2.
  pose proof (pow10_le_9 (Z.of_nat n)) as H3.
  pose proof (pow10_le_9 (Z.of_nat n - 1)) as H4.
  assert (10 ^ 9 = 1000000000) as E by reflexivity.
  rewrite (wrap32_id (_ - 1)) by (unfold is_long; lia).
  rewrite (wrap32_id (_ - 1)) by (unfold is_long; lia).
  rewrite wrap32_id by (unfold is_long; lia). done.
Qed.

Lemma get_bounds_ok (n : nat) s :
  (1 <= n <= 9)%nat → statics_for n s →
  get_bounds n s = Some (maxValue n, minValue n).
Proof.
  intros H [-> | ->]; simpl; [by apply init_bounds_ok | done].
Qed.

(** ** The overflow fallback *)

Lemma fill_dash_spec n : ∀ k (digits : list Z),
  (k + n <= length digits)%nat →
  fill_dash n k digits =
    Some (take k digits ++ replicate n DASH ++ drop (k + n) digits).
Proof.
  induction n as [|n IH]; intros k digits Hlen; simpl.
  - by rewrite Nat.add_0_r, take_drop.
  - rewrite store_Some by lia. simpl.
    rewrite IH by (rewrite length_insert; lia).
    f_equal.
    rewrite take_S_r with (x := DASH)
      by (apply list_lookup_insert_eq; lia).
    rewrite take_insert_ge by lia.
    rewrite drop_insert_lt by lia.
    rewrite <- app_assoc. simpl.
    replace (S (k + n))%nat with (k + S n)%nat by lia.
    reflexivity.
Qed.

Lemma fill_dash_all n (digits : list Z) :
  length digits = n → fill_dash n 0 digits = Some (replicate n DASH).
Proof.
  intros H. rewrite fill_dash_spec by (simpl; lia). simpl.
  rewrite drop_ge by lia. by rewrite app_nil_r.
Qed.

Lemma findDigits_overflow (n : nat) s v dp (digits : list Z) b :
  get_bounds n s = Some b → length digits = n →
  out_of_range b v = true →
  findDigits n s v dp digits = Some (Some b, replicate n DASH).
Proof.
  intros Hb Hlen Hout. unfold findDigits. rewrite Hb. simpl.
  rewrite Hout, fill_dash_all by done. done.
Qed.

(** With [maxNum] and [minNum] not yet initialised, or those of [n] digits, a
    value above [maxValue] or below [minValue] makes [findDigits] set each
    of the [n] positions to [DASH], whatever [decPlaces] is and whatever the
    array held; no digit of the value is computed. *)
Theorem findDigits_out_of_range_all_dash
    (n : nat) (s : Statics) (v : Z) (dp : nat) (digits : list Z) :
  (1 <= n <= 9)%nat → statics_for n s → length digits = n →
  maxValue n < v ∨ v < minValue n →
  findDigits n s v dp digits
    = Some (Some (maxValue n, minValue n), replicate n DASH).
Proof.
  intros Hn Hs Hlen Hv.
  apply findDigits_overflow; [by apply get_bounds_ok | done |].
  unfold out_of_range. simpl. apply orb_true_iff.
  destruct Hv; [left | right]; by apply Z.ltb_lt.
Qed.

Lemma findDigits_out_of_range_all_dash_witness :
  findDigits 4 None 10000 0 [0; 0; 0; 0]
    = Some (Some (maxValue 4, minValue 4), replicate 4 DASH).
Proof.
  apply findDigits_out_of_range_all_dash;
    [lia | by left | reflexivity | left; reflexivity].
Defined.

(** ** Base-10 decomposition *)

Lemma base10_length m x : length (base10 m x) = m.
Proof. revert x. induction m; intros; simpl; [done | by rewrite IHm]. Qed.

Lemma base10_digits m : ∀ x,
  0 <= x < 10 ^ Z.of_nat m → Forall is_digit (base10 m x).
Proof.
  induction m as [|m IH]; intros x Hx; simpl; [constructor|].
  pose proof (pow10_pos (Z.of_nat m) ltac:(lia)) as Hp.
  constructor.
  - unfold is_digit. split; [apply Z.div_pos; lia|].
    assert (x `div` 10 ^ Z.of_nat m < 10); [|lia].
    apply Z.div_lt_upper_bound; [lia|].
    replace (Z.of_nat (S m)) with (Z.of_nat m + 1) in Hx by lia.
    rewrite Z.pow_add_r in Hx by lia. lia.
  - apply IH. apply Z.mod_pos_bound. lia.
Qed.

Lemma decompose_spec m : ∀ N k x (digits : list Z),
  (k + m = N)%nat → (m <= 9)%nat → length digits = N →
  0 <= x < 10 ^ Z.of_nat m →
  decompose m N k x digits = Some (take k digits ++ base10 m x).
Proof.
  induction m as [|m IH]; intros N k x digits HN Hm Hlen Hx; simpl.
  - rewrite take_ge by lia. by rewrite app_nil_r.
  - replace (Z.of_nat N - 1 - Z.of_nat k) with (Z.of_nat m) by lia.
    rewrite powersOf10_load by lia. simpl.
    pose proof (pow10_pos (Z.of_nat m) ltac:(lia)) as Hp.
    pose proof (pow10_le_9 (Z.of_nat (S m)) ltac:(lia)) as H9.
    assert (10 ^ 9 = 1000000000) as E9 by reflexivity.
    pose proof (base10_digits (S m) x Hx) as Hd. simpl in Hd.
    apply Forall_cons_1 in Hd as [Hd _]. unfold is_digit in Hd.
    rewrite Z.quot_div_nonneg by lia.
    set (d := x `div` 10 ^ Z.of_nat m) in *.
    rewrite to_byte_id by lia.
    rewrite store_Some by lia. simpl.
    assert (x `mod` 10 ^ Z.of_nat m = x - d * 10 ^ Z.of_nat m) as Hmod.
    { unfold d. rewrite Z.mod_eq by lia. lia. }
    pose proof (Z.mod_pos_bound x (10 ^ Z.of_nat m) Hp) as Hr.
    rewrite (wrap32_id (d * _)) by (unfold is_long; lia).
    rewrite wrap32_id by (unfold is_long; lia).
    rewrite <- Hmod.
    rewrite IH with (N := N) by (rewrite ?length_insert; lia).
    f_equal.
    rewrite take_S_r with (x := d) by (apply list_lookup_insert_eq; lia).
    rewrite take_insert_ge by lia.
    by rewrite <- app_assoc.
Qed.

Lemma minValue_bounds (N : nat) :
  (1 <= N <= 9)%nat → - 10 ^ 9 < minValue N <= 0.
Proof.
  intros H. unfold minValue.
  pose proof (pow10_pos (Z.of_nat N - 1) ltac:(lia)).
  pose proof (pow10_le_9 (Z.of_nat N - 1) ltac:(lia)). lia.
Qed.

Lemma sign_and_digits_spec (N : nat) v (digits : list Z) :
  (1 <= N <= 9)%nat → length digits = N →
  minValue N <= v <= maxValue N →
  sign_and_digits N v digits = Some (signed_numeral N v).
Proof.
  intros HN Hlen Hv. unfold sign_and_digits, signed_numeral.
  pose proof (minValue_bounds N HN) as Hmin.
  assert (10 ^ 9 = 1000000000) as E9 by reflexivity.
  destruct (Z.ltb_spec v 0) as [Hneg | Hpos].
  - rewrite store_Some by lia. simpl.
    rewrite wrap32_id by (unfold is_long; lia).
    rewrite decompose_spec with (N := N); rewrite ?length_insert; try lia.
    + f_equal. destruct digits; [simpl in Hlen; lia | done].
    + unfold minValue in Hv.
      replace (Z.of_nat (N - 1)) with (Z.of_nat N - 1) by lia. lia.
  - rewrite decompose_spec with (N := N); try lia; [done|].
    unfold maxValue in Hv. lia.
Qed.

Lemma signed_numeral_length (N : nat) v :
  (1 <= N)%nat → length (signed_numeral N v) = N.
Proof.
  intros H. unfold signed_numeral. destruct (v <? 0); simpl;
    rewrite base10_length; lia.
Qed.

Lemma decompose_init n : ∀ N k x (digits digits' : list Z),
  length digits = (k + n)%nat → length digits' = (k + n)%nat →
  take k digits = take k digits' →
  decompose n N k x digits = decompose n N k x digits'.
Proof.
  induction n as [|n IH]; intros N k x digits digits' H1 H2 Ht; simpl.
  - rewrite Nat.add_0_r in *.
    rewrite <- (take_ge digits k), <- (take_ge digits' k) by lia.
    by rewrite Ht.
  - destruct (load powersOf10 _) as [factor|]; [simpl | done].
    rewrite !store_Some by lia. simpl.
    apply IH; rewrite ?length_insert; try lia.
    set (v := to_byte _).
    rewrite (take_S_r (<[k:=v]> digits) k v)
      by (apply list_lookup_insert_eq; lia).
    rewrite (take_S_r (<[k:=v]> digits') k v)
      by (apply list_lookup_insert_eq; lia).
    rewrite !take_insert_ge by lia. by rewrite Ht.
Qed.

(** The contents of the array handed to [findDigits] do not matter: each
    position is written before it is read. *)
Lemma findDigits_init_irrelevant (N : nat) s v dp (digits digits' : list Z) :
  length digits = N → length digits' = N →
  findDigits N s v dp digits = findDigits N s v dp digits'.
Proof.
  intros H1 H2. unfold findDigits.
  destruct (get_bounds N s) as [b|]; [simpl | done].
  destruct (out_of_range b v).
  - by rewrite !fill_dash_all.
  - replace (sign_and_digits N v digits')
      with (sign_and_digits N v digits); [done|].
    unfold sign_and_digits. destruct (v <? 0).
    + unfold store. rewrite H1, H2.
      case_decide; [simpl | done].
      apply decompose_init; rewrite ?length_insert; try lia.
      destruct digits, digits'; simpl in *; (lia || done).
    + apply decompose_init; simpl; done.
Qed.

(** ** Leading-zero blanking *)

Lemma blank_leading_spec n : ∀ k (digits : list Z),
  (k + n <= length digits)%nat →
  blank_leading n k digits
    = Some (take k digits ++ blank_list n (drop k digits)).
Proof.
  induction n as [|n IH]; intros k digits Hlen; simpl.
  - destruct (drop k digits) eqn:E; rewrite <- E; by rewrite take_drop.
  - destruct (lookup_lt_is_Some_2 digits k ltac:(lia)) as [d Hd].
    rewrite Hd. simpl. rewrite (drop_S _ _ _ Hd).
    destruct (d =? 0) eqn:E0.
    + rewrite store_Some by lia. simpl.
      rewrite IH by (rewrite length_insert; lia). f_equal.
      rewrite take_S_r with (x := BLANK)
        by (apply list_lookup_insert_eq; lia).
      rewrite take_insert_ge by lia. rewrite drop_insert_lt by lia.
      by rewrite <- app_assoc.
    + destruct (d <=? 9).
      * by rewrite take_drop_middle.
      * rewrite IH by lia. f_equal.
        rewrite (take_S_r _ _ _ Hd). by rewrite <- app_assoc.
Qed.

Lemma blank_list_length n : ∀ l, length (blank_list n l) = length l.
Proof.
  induction n as [|n IH]; intros [|d l]; simpl; try done.
  destruct (d =? 0); simpl; [by rewrite IH|].
  destruct (d <=? 9); simpl; [done | by rewrite IH].
Qed.

Lemma findDigits_in_range (N : nat) s v dp (digits : list Z) :
  (1 <= N <= 9)%nat → statics_for N s → length digits = N →
  minValue N <= v <= maxValue N →
  findDigits N s v dp digits
    = Some (Some (maxValue N, minValue N),
            blank_list (Z.to_nat (boundary N dp)) (signed_numeral N v)).
Proof.
  intros HN Hs Hlen Hv. unfold findDigits.
  rewrite get_bounds_ok by done. simpl.
  replace (out_of_range _ _) with false.
  2:{ symmetry. unfold out_of_range. simpl. apply orb_false_iff.
      split; apply Z.ltb_ge; lia. }
  rewrite sign_and_digits_spec by done. simpl.
  rewrite blank_leading_spec.
  2:{ rewrite signed_numeral_length by lia. unfold boundary. lia. }
  done.
Qed.

Lemma imap_keep {A} (f : nat → A → A) (l : list A) :
  (∀ i x, l !! i = Some x → f i x = x) → imap f l = l.
Proof.
  intros H. rewrite (imap_ext f (const id) l) by done.
  by rewrite imap_const, list_fmap_id.
Qed.

Lemma blank_pass_nonpos stop bound (l : list Z) :
  bound <= 0 → blank_pass stop bound l = l.
Proof.
  intros H. unfold blank_pass.
  apply imap_keep. intros i g _.
  by replace (Z.of_nat i <? bound) with false by (symmetry; apply Z.ltb_ge; lia).
Qed.

Lemma blank_pass_cons stop bound d (l : list Z) :
  blank_pass stop bound (d :: l)
    = (if (0 <? bound) && (d =? 0) then BLANK else d)
      :: (if stop d then l else blank_pass stop (bound - 1) l).
Proof.
  unfold blank_pass. rewrite imap_cons. f_equal.
  - simpl. by rewrite andb_true_r.
  - destruct (stop d) eqn:Es.
    + apply imap_keep. intros i g _. simpl. rewrite Es. simpl.
      by rewrite andb_false_r.
    + apply imap_ext. intros i g _. simpl. rewrite Es. simpl.
      by replace (Z.of_nat (S i) <? bound) with (Z.of_nat i <? bound - 1)
        by (apply eq_iff_eq_true; rewrite !Z.ltb_lt; lia).
Qed.

Lemma blank_list_pass n : ∀ l,
  blank_list n l = blank_pass nonzero_digit (Z.of_nat n) l.
Proof.
  induction n as [|n IH]; intros l.
  - rewrite blank_pass_nonpos by lia. by destruct l.
  - destruct l as [|d l]; [done|].
    rewrite blank_pass_cons. simpl blank_list.
    replace (Z.of_nat (S n) - 1) with (Z.of_nat n) by lia.
    replace (0 <? Z.of_nat (S n)) with true by (symmetry; apply Z.ltb_lt; lia).
    simpl andb. unfold nonzero_digit.
    destruct (Z.eqb_spec d 0) as [-> | Hd]; [simpl; by rewrite IH|].
    replace (d =? 0) with false by (symmetry; by apply Z.eqb_neq).
    simpl. destruct (d <=? 9); [done | by rewrite IH].
Qed.

Lemma blank_list_boundary (N dp : nat) (l : list Z) :
  blank_list (Z.to_nat (boundary N dp)) l
    = blank_pass nonzero_digit (boundary N dp) l.
Proof.
  destruct (Z.le_gt_cases (boundary N dp) 0) as [H | H].
  - rewrite blank_pass_nonpos by done.
    replace (Z.to_nat (boundary N dp)) with O by lia. by destruct l.
  - rewrite blank_list_pass. by rewrite Z2Nat.id by lia.
Qed.

(** With [maxNum] and [minNum] not yet initialised, or those of [N] digits,
    position 0 holds [DASH] after [findDigits] of a negative value: in
    range, the sign branch puts it there and the numeral of [-v] fills the
    other [N - 1] positions; below [minValue], where [-v] does not fit in
    them, each position is [DASH]. *)
Theorem findDigits_negative_dash
    (N : nat) (s : Statics) (v : Z) (dp : nat) (digits : list Z) :
  (1 <= N <= 9)%nat → statics_for N s → length digits = N → v < 0 →
  ∃ out,
    findDigits N s v dp digits = Some (Some (maxValue N, minValue N), out)
    ∧ out !! O = Some DASH
    ∧ (minValue N <= v →
       out = blank_list (Z.to_nat (boundary N dp))
               (DASH :: base10 (N - 1) (- v)))
    ∧ (v < minValue N → out = replicate N DASH).
Proof.
  intros HN Hs Hlen Hv.
  destruct (Z.lt_ge_cases v (minValue N)) as [Hlow | Hin].
  - exists (replicate N DASH). split; [|split; [|split]].
    + apply findDigits_overflow; [by apply get_bounds_ok | done |].
      unfold out_of_range. simpl. apply orb_true_iff. right.
      by apply Z.ltb_lt.
    + destruct N; [lia | done].
    + lia.
    + done.
  - assert (signed_numeral N v = DASH :: base10 (N - 1) (- v)) as E.
    { unfold signed_numeral.
      by replace (v <? 0) with true by (symmetry; by apply Z.ltb_lt). }
    eexists. split; [|split; [|split]].
    + apply findDigits_in_range; try done.
      pose proof (pow10_pos (Z.of_nat N) ltac:(lia)).
      unfold maxValue. lia.
    + rewrite E. by destruct (Z.to_nat (boundary N dp)).
    + intros _. by rewrite E.
    + lia.
Qed.

Lemma findDigits_negative_dash_witness :
  ∃ out,
    findDigits 4 None (-5) 0 [0; 0; 0; 0]
      = Some (Some (maxValue 4, minValue 4), out)
    ∧ out !! O = Some DASH
    ∧ (minValue 4 <= -5 →
       out = blank_list (Z.to_nat (boundary 4 0))
               (DASH :: base10 (4 - 1) (- -5)))
    ∧ (-5 < minValue 4 → out = replicate 4 DASH).
Proof.
  apply findDigits_negative_dash; [lia | by left | reflexivity | lia].
Defined.

(** C5, as amended.  For an in-range value the leading-zero pass of
    [findDigits] turns the glyph at an index into [BLANK] exactly when the
    index is before [numDigits - 1 - decPlaces], the glyph is 0 and no digit
    1..9 stands before it: the scan stops at the first digit 1..9, while the
    [DASH] of a negative value is passed over.  Every other glyph is kept;
    in particular nothing at or after [numDigits - 1 - decPlaces] is
    blanked. *)
Theorem findDigits_blanking
    (N : nat) (s : Statics) (v : Z) (dp : nat) (digits : list Z) :
  (1 <= N <= 9)%nat → statics_for N s → length digits = N →
  minValue N <= v <= maxValue N →
  ∃ pre out,
    sign_and_digits N v digits = Some pre
    ∧ findDigits N s v dp digits = Some (Some (maxValue N, minValue N), out)
    ∧ out = blank_pass nonzero_digit (boundary N dp) pre
    ∧ ∀ i : nat, boundary N dp <= Z.of_nat i → out !! i = pre !! i.
Proof.
  intros HN Hs Hlen Hv.
  exists (signed_numeral N v),
         (blank_pass nonzero_digit (boundary N dp) (signed_numeral N v)).
  split; [by apply sign_and_digits_spec|].
  split; [rewrite <- blank_list_boundary; by apply findDigits_in_range|].
  split; [done|].
  intros i Hi. unfold blank_pass. rewrite list_lookup_imap.
  destruct (signed_numeral N v !! i) as [g|]; [simpl | done].
  by replace (Z.of_nat i <? boundary N dp) with false
    by (symmetry; apply Z.ltb_ge; lia).
Qed.

Lemma findDigits_blanking_witness :
  ∃ pre out,
    sign_and_digits 4 (-5) [0; 0; 0; 0] = Some pre
    ∧ findDigits 4 None (-5) 0 [0; 0; 0; 0]
        = Some (Some (maxValue 4, minValue 4), out)
    ∧ out = blank_pass nonzero_digit (boundary 4 0) pre
    ∧ ∀ i : nat, boundary 4 0 <= Z.of_nat i → out !! i = pre !! i.
Proof.
  apply findDigits_blanking; [lia | by left | reflexivity | ].
  split; [apply Z.leb_le | apply Z.leb_le]; reflexivity.
Defined.

(** C5, as stated, fails: were the scan to stop at the first glyph other
    than 0, the zeros after the [DASH] of -5 would be kept; [findDigits]
    blanks them. *)
Lemma findDigits_blanking_stops_at_dash_fails :
  ∃ pre out,
    minValue 4 <= -5 <= maxValue 4
    ∧ sign_and_digits 4 (-5) [0; 0; 0; 0] = Some pre
    ∧ pre = [DASH; 0; 0; 5]
    ∧ findDigits 4 None (-5) 0 [0; 0; 0; 0]
        = Some (Some (maxValue 4, minValue 4), out)
    ∧ out = [DASH; BLANK; BLANK; 5]
    ∧ blank_pass nonzero_glyph (boundary 4 0) pre = [DASH; 0; 0; 5]
    ∧ out ≠ blank_pass nonzero_glyph (boundary 4 0) pre.
Proof.
  exists [DASH; 0; 0; 5], [DASH; BLANK; BLANK; 5].
  repeat split; try reflexivity; try discriminate.
Qed.

(** ** Segment codes *)

Lemma glyph_cases g :
  is_glyph g →
  g = 0 ∨ g = 1 ∨ g = 2 ∨ g = 3 ∨ g = 4 ∨ g = 5 ∨ g = 6 ∨ g = 7 ∨ g = 8
  ∨ g = 9 ∨ g = 10 ∨ g = 11.
Proof. unfold is_glyph. lia. Qed.

Ltac each_glyph H :=
  apply glyph_cases in H;
  repeat (destruct H as [H | H]; [subst|]); [..|subst].

Lemma load_digitCodeMap g :
  is_glyph g → load digitCodeMap g = Some (default 0 (load digitCodeMap g)).
Proof. intros H. each_glyph H; reflexivity. Qed.

Lemma code_at_dp_bit N dp i g :
  is_glyph g →
  dp_bit (code_at N dp i g) = (Z.of_nat i =? boundary N dp).
Proof.
  intros H. unfold code_at.
  destruct (Z.of_nat i =? boundary N dp); each_glyph H; reflexivity.
Qed.

Lemma code_at_low_bits N dp i g :
  is_glyph g →
  Z.land (code_at N dp i g) 0x7F = default 0 (load digitCodeMap g).
Proof.
  intros H. unfold code_at.
  destruct (Z.of_nat i =? boundary N dp); each_glyph H; reflexivity.
Qed.

Lemma glyph_of_code_at N dp i g :
  is_glyph g → glyph_of_code (code_at N dp i g) = Some g.
Proof.
  intros H. unfold glyph_of_code. rewrite code_at_low_bits by done.
  each_glyph H; reflexivity.
Qed.

Lemma setDigitCodes_loop_spec n : ∀ N k (digits : list Z) dp (codes : list Z),
  (k + n <= length codes)%nat → (k + n <= length digits)%nat →
  Forall is_glyph (take n (drop k digits)) →
  setDigitCodes_loop n N k digits dp codes
    = Some (take k codes
            ++ imap (λ i g, code_at N dp (k + i) g) (take n (drop k digits))
            ++ drop (k + n) codes).
Proof.
  induction n as [|n IH]; intros N k digits dp codes Hc Hd Hg; simpl.
  - by rewrite Nat.add_0_r, take_drop.
  - destruct (lookup_lt_is_Some_2 digits k ltac:(lia)) as [g Hk].
    rewrite Hk. simpl. rewrite (drop_S _ _ _ Hk) in Hg |- *.
    simpl in Hg. apply Forall_cons_1 in Hg as [Hg Hgs].
    rewrite load_digitCodeMap by done. simpl.
    rewrite store_Some by lia. simpl.
    set (c := default 0 (load digitCodeMap g)).
    assert ((if Z.of_nat k =? boundary N dp
             then c' ← <[k:=c]> codes !! k;
                  store (<[k:=c]> codes) k (Z.lor c' 128)
             else Some (<[k:=c]> codes))
            = Some (<[k:=code_at N dp k g]> codes)) as ->.
    { unfold code_at. fold c. destruct (_ =? _); [|done].
      rewrite list_lookup_insert_eq by lia. simpl.
      rewrite store_Some by (rewrite length_insert; lia).
      by rewrite list_insert_insert_eq. }
    simpl.
    rewrite IH by (rewrite ?length_insert; done || lia). f_equal.
    rewrite take_S_r with (x := code_at N dp k g)
      by (apply list_lookup_insert_eq; lia).
    rewrite take_insert_ge by lia. rewrite drop_insert_lt by lia.
    rewrite <- app_assoc. simpl. rewrite Nat.add_0_r.
    replace (S (k + n))%nat with (k + S n)%nat by lia.
    do 3 f_equal. apply imap_ext. intros i x _. simpl.
    by replace (S (k + i))%nat with (k + S i)%nat by lia.
Qed.

Lemma setDigitCodes_spec (N : nat) (digits : list Z) dp (codes : list Z) :
  (N <= length codes)%nat → (N <= length digits)%nat →
  Forall is_glyph (take N digits) →
  setDigitCodes N digits dp codes
    = Some (imap (code_at N dp) (take N digits) ++ drop N codes).
Proof.
  intros Hc Hd Hg. unfold setDigitCodes.
  by rewrite setDigitCodes_loop_spec.
Qed.

(** C2, as amended.  For glyphs of the table and every [decPlaces],
    [setDigitCodes] stores at each index the table entry of the glyph, with
    the decimal-point bit set at that index exactly when
    [decPlaces < numDigits] and the index is [numDigits - 1 - decPlaces],
    whatever the glyph there is.  So with [decPlaces < numDigits] one code
    has the bit, the last digit's with [decPlaces = 0], and with
    [numDigits <= decPlaces] no code has it. *)
Theorem setDigitCodes_decimal_point
    (N dp : nat) (digits codes : list Z) :
  (N <= length codes)%nat → (N <= length digits)%nat →
  Forall is_glyph (take N digits) →
  ∃ codes',
    setDigitCodes N digits dp codes = Some codes'
    ∧ length codes' = length codes
    ∧ (∀ i g, (i < N)%nat → digits !! i = Some g →
         ∃ c, codes' !! i = Some c
              ∧ Z.land c 0x7F = default 0 (load digitCodeMap g)
              ∧ dp_bit c
                = bool_decide ((dp < N)%nat ∧ i = (N - 1 - dp)%nat))
    ∧ ((dp < N)%nat →
       ∃ c, codes' !! (N - 1 - dp)%nat = Some c ∧ dp_bit c = true)
    ∧ ((N <= dp)%nat →
       ∀ i c, (i < N)%nat → codes' !! i = Some c → dp_bit c = false).
Proof.
  intros Hc Hd Hg.
  assert (∀ i g, (i < N)%nat → digits !! i = Some g →
            (imap (code_at N dp) (take N digits) ++ drop N codes) !! i
              = Some (code_at N dp i g)
            ∧ is_glyph g
            ∧ dp_bit (code_at N dp i g)
              = bool_decide ((dp < N)%nat ∧ i = (N - 1 - dp)%nat)) as Hat.
  { intros i g Hi Hig.
    assert (is_glyph g) as Hgl.
    { eapply Forall_lookup_1; [exact Hg|]. by rewrite lookup_take_lt. }
    split; [|split; [done|]].
    - rewrite lookup_app_l by (rewrite length_imap, length_take; lia).
      rewrite list_lookup_imap, lookup_take_lt by lia. by rewrite Hig.
    - rewrite code_at_dp_bit by done. unfold boundary.
      apply eq_iff_eq_true. rewrite Z.eqb_eq, bool_decide_eq_true. lia. }
  eexists. split; [by apply setDigitCodes_spec|].
  split; [|split; [|split]].
  - rewrite length_app, length_imap, length_take, length_drop. lia.
  - intros i g Hi Hig. destruct (Hat i g Hi Hig) as (E & Hgl & Hb).
    exists (code_at N dp i g). split; [done|]. split; [|done].
    by apply code_at_low_bits.
  - intros Hdp.
    destruct (lookup_lt_is_Some_2 digits (N - 1 - dp)) as [g Hig]; [lia|].
    destruct (Hat (N - 1 - dp)%nat g ltac:(lia) Hig) as (E & _ & Hb).
    exists (code_at N dp (N - 1 - dp) g). split; [done|].
    rewrite Hb. apply bool_decide_eq_true. lia.
  - intros Hdp i c Hi Hic.
    destruct (lookup_lt_is_Some_2 digits i) as [g Hig]; [lia|].
    destruct (Hat i g Hi Hig) as (E & _ & Hb).
    rewrite E in Hic. injection Hic as <-.
    rewrite Hb. apply bool_decide_eq_false. lia.
Qed.

Lemma setDigitCodes_decimal_point_witness :
  ∃ codes',
    setDigitCodes 4 [BLANK; BLANK; BLANK; 7] 0 [0; 0; 0; 0] = Some codes'
    ∧ length codes' = length [0; 0; 0; 0]
    ∧ (∀ i g, (i < 4)%nat → [BLANK; BLANK; BLANK; 7] !! i = Some g →
         ∃ c, codes' !! i = Some c
              ∧ Z.land c 0x7F = default 0 (load digitCodeMap g)
              ∧ dp_bit c
                = bool_decide ((0 < 4)%nat ∧ i = (4 - 1 - 0)%nat))
    ∧ ((0 < 4)%nat →
       ∃ c, codes' !! (4 - 1 - 0)%nat = Some c ∧ dp_bit c = true)
    ∧ ((4 <= 0)%nat →
       ∀ i c, (i < 4)%nat → codes' !! i = Some c → dp_bit c = false).
Proof.
  apply setDigitCodes_decimal_point; [simpl; lia | simpl; lia |].
  repeat constructor; unfold is_glyph, BLANK; lia.
Defined.

(** C2, as stated, fails: with [decPlaces = numDigits] the index
    [numDigits - 1 - decPlaces] is -1, and no code gets the decimal-point
    bit. *)
Lemma setDigitCodes_no_decimal_point :
  ∃ codes',
    setDigitCodes 4 [1; 2; 3; 4] 4 [0; 0; 0; 0] = Some codes'
    ∧ codes' = [0x06; 0x5B; 0x4F; 0x66]
    ∧ boundary 4 4 = -1
    ∧ Forall (λ c, dp_bit c = false) codes'.
Proof.
  eexists. split; [reflexivity|]. split; [reflexivity|].
  split; [reflexivity|]. repeat constructor.
Qed.

(** ** Round trip *)

Lemma digits_value_base10 m : ∀ acc x,
  0 <= x < 10 ^ Z.of_nat m →
  digits_value acc (base10 m x) = Some (acc * 10 ^ Z.of_nat m + x).
Proof.
  induction m as [|m IH]; intros acc x Hx; simpl base10.
  - simpl in *. f_equal. lia.
  - pose proof (base10_digits (S m) x Hx) as Hd. simpl in Hd.
    apply Forall_cons_1 in Hd as [[Hd0 Hd9] _].
    pose proof (pow10_pos (Z.of_nat m) ltac:(lia)) as Hp.
    cbn [digits_value].
    replace (0 <=? _) with true by (symmetry; by apply Z.leb_le).
    replace (_ <=? 9) with true by (symmetry; by apply Z.leb_le).
    simpl andb. cbv iota.
    rewrite IH by (apply Z.mod_pos_bound; lia). f_equal.
    replace (Z.of_nat (S m)) with (Z.of_nat m + 1) by lia.
    rewrite Z.pow_add_r by lia.
    rewrite (Z.div_mod x (10 ^ Z.of_nat m)) at 3 by lia. lia.
Qed.

Lemma filter_not_blank_digits (l : list Z) :
  Forall is_digit l → List.filter not_blank l = l.
Proof.
  induction 1 as [|g l Hg _ IH]; [done|]. simpl. rewrite IH.
  unfold not_blank, BLANK, is_digit in *.
  by replace (g =? 10) with false by (symmetry; apply Z.eqb_neq; lia).
Qed.

Lemma blank_list_value n : ∀ l,
  Forall is_digit l → (n < length l)%nat →
  ∃ g gs,
    List.filter not_blank (blank_list n l) = g :: gs
    ∧ is_digit g
    ∧ digits_value 0 (g :: gs) = digits_value 0 l.
Proof.
  induction n as [|n IH]; intros [|d l] Hl Hlen; simpl in Hlen; try lia.
  - exists d, l. simpl blank_list. rewrite filter_not_blank_digits by done.
    by apply Forall_cons_1 in Hl as [? _].
  - apply Forall_cons_1 in Hl as [Hd Hl]. simpl blank_list.
    destruct (Z.eqb_spec d 0) as [-> | Hd0].
    + destruct (IH l Hl ltac:(lia)) as (g & gs & E & Hg & Hv).
      exists g, gs. simpl. by rewrite E.
    + unfold is_digit in Hd.
      replace (d <=? 9) with true by (symmetry; apply Z.leb_le; lia).
      exists d, l.
      rewrite filter_not_blank_digits by (by constructor). done.
Qed.

Lemma blank_list_dash n (l : list Z) :
  blank_list n (DASH :: l) = DASH :: blank_list (pred n) l.
Proof. destruct n; [by destruct l | done]. Qed.

Lemma blank_list_glyphs n : ∀ l,
  Forall is_glyph l → Forall is_glyph (blank_list n l).
Proof.
  induction n as [|n IH]; intros [|d l] Hl; simpl; try done.
  apply Forall_cons_1 in Hl as [Hd Hl].
  destruct (d =? 0); [constructor; [unfold is_glyph, BLANK; lia | auto]|].
  destruct (d <=? 9); constructor; auto.
Qed.

Lemma signed_numeral_glyphs (N : nat) v :
  (1 <= N)%nat → minValue N <= v <= maxValue N →
  Forall is_glyph (signed_numeral N v).
Proof.
  intros HN Hv. unfold signed_numeral, minValue, maxValue in *.
  assert (∀ l, Forall is_digit l → Forall is_glyph l) as Hdg.
  { intros l. apply Forall_impl. unfold is_digit, is_glyph. lia. }
  destruct (Z.ltb_spec v 0).
  - constructor; [unfold is_glyph, DASH; lia|].
    apply Hdg, base10_digits.
    replace (Z.of_nat (N - 1)) with (Z.of_nat N - 1) by lia. lia.
  - apply Hdg, base10_digits. lia.
Qed.

Lemma glyphs_value_numeral (N n : nat) v :
  (1 <= N)%nat → (n < N)%nat → minValue N <= v <= maxValue N →
  glyphs_value (blank_list n (signed_numeral N v)) = Some v.
Proof.
  intros HN Hn Hv. unfold glyphs_value, signed_numeral.
  unfold minValue, maxValue in Hv.
  destruct (Z.ltb_spec v 0) as [Hneg | Hpos].
  - assert (2 <= N)%nat as HN2.
    { destruct (decide (N = 1%nat)) as [-> | ?]; [simpl in Hv; lia | lia]. }
    assert (0 <= - v < 10 ^ Z.of_nat (N - 1)) as Hx.
    { replace (Z.of_nat (N - 1)) with (Z.of_nat N - 1) by lia. lia. }
    rewrite blank_list_dash. simpl.
    destruct (blank_list_value (pred n) (base10 (N - 1) (- v)))
      as (g & gs & -> & _ & ->);
      [by apply base10_digits | rewrite base10_length; lia |].
    rewrite digits_value_base10 by done. simpl. f_equal. lia.
  - destruct (blank_list_value n (base10 N v))
      as (g & gs & -> & Hg & ->);
      [apply base10_digits; lia | rewrite base10_length; lia |].
    unfold is_digit, DASH in *.
    replace (g =? 11) with false by (symmetry; apply Z.eqb_neq; lia).
    rewrite digits_value_base10 by lia. reflexivity.
Qed.

Lemma mapM_glyph_of_code N dp : ∀ (f : nat → nat) (l : list Z),
  Forall is_glyph l →
  mapM glyph_of_code (imap (λ i, code_at N dp (f i)) l) = Some l.
Proof.
  intros f l H. revert f.
  induction H as [|g l Hg _ IH]; intros f; [done|].
  rewrite imap_cons. simpl.
  rewrite glyph_of_code_at by done. simpl.
  change (mapM glyph_of_code (imap ((λ i, code_at N dp (f i)) ∘ S) l))
    with (mapM glyph_of_code (imap (λ i, code_at N dp ((f ∘ S) i)) l)).
  by rewrite IH.
Qed.

Lemma decode_codes N dp (l : list Z) :
  Forall is_glyph l →
  decode (imap (code_at N dp) l) = glyphs_value l.
Proof.
  intros H. unfold decode.
  pose proof (mapM_glyph_of_code N dp id l H) as E. simpl in E.
  change (λ i, code_at N dp i) with (code_at N dp) in E.
  by rewrite E.
Qed.

Lemma setNewNum_in_range (s : Statics) (d : SevSeg) (v : Z) (dp : nat) :
  let N := numDigits d in
  (1 <= N <= 9)%nat → statics_for N s → (N <= length (digitCodes d))%nat →
  minValue N <= v <= maxValue N →
  setNewNum s d v dp
    = Some (Some (maxValue N, minValue N),
            set_digitCodes d
              (imap (code_at N dp)
                 (blank_list (Z.to_nat (boundary N dp)) (signed_numeral N v))
               ++ drop N (digitCodes d))).
Proof.
  intros N HN Hs Hc Hv. unfold setNewNum. fold N.
  rewrite findDigits_in_range by (rewrite ?length_replicate; done). simpl.
  assert (length (blank_list (Z.to_nat (boundary N dp)) (signed_numeral N v))
          = N) as Hlen.
  { rewrite blank_list_length. apply signed_numeral_length. lia. }
  rewrite setDigitCodes_spec; rewrite ?Hlen; try lia.
  - simpl. by rewrite take_ge by lia.
  - rewrite take_ge by lia.
    apply blank_list_glyphs, signed_numeral_glyphs; [lia | done].
Qed.

(** With [maxNum] and [minNum] not yet initialised, or those of the digit
    count of the driver: for a value between [minValue] and [maxValue] and
    [decPlaces] in [0, numDigits - 1], the encoder ([findDigits], then
    [setDigitCodes]) succeeds, and reading its segment codes back through
    the glyph table, blanks dropped and a leading dash read as the sign,
    gives the value. *)
Theorem encode_decode_roundtrip
    (s : Statics) (d : SevSeg) (v : Z) (dp : nat) :
  (1 <= numDigits d <= 9)%nat → statics_for (numDigits d) s →
  (numDigits d <= length (digitCodes d))%nat →
  (dp < numDigits d)%nat →
  minValue (numDigits d) <= v <= maxValue (numDigits d) →
  ∃ s' d',
    setNewNum s d v dp = Some (s', d')
    ∧ numDigits d' = numDigits d
    ∧ decode (take (numDigits d) (digitCodes d')) = Some v.
Proof.
  intros HN Hs Hc Hdp Hv. do 2 eexists.
  split; [by apply setNewNum_in_range|]. split; [done|]. simpl.
  set (N := numDigits d) in *.
  set (l := blank_list _ _).
  assert (length l = N) as Hlen.
  { unfold l. rewrite blank_list_length. apply signed_numeral_length. lia. }
  rewrite take_app_le, take_ge by (rewrite length_imap; lia).
  rewrite decode_codes
    by (apply blank_list_glyphs, signed_numeral_glyphs; [lia | done]).
  apply glyphs_value_numeral; [lia | unfold boundary; lia | done].
Qed.

Lemma encode_decode_roundtrip_witness :
  ∃ s' d',
    setNewNum None demo (-42) 1 = Some (s', d')
    ∧ numDigits d' = numDigits demo
    ∧ decode (take (numDigits demo) (digitCodes d')) = Some (-42).
Proof.
  apply (encode_decode_roundtrip None demo (-42) 1); simpl;
    [lia | by left | lia | lia |].
  split; apply Z.leb_le; reflexivity.
Defined.

(** ** Refresh engine *)

Lemma mapM_seq_Some {B} (f : nat → option B) (g : nat → B) n : ∀ k,
  (∀ i, (k <= i < k + n)%nat → f i = Some (g i)) →
  mapM f (seq k n) = Some (g <$> seq k n).
Proof.
  induction n as [|n IH]; intros k H; [done|]. simpl.
  rewrite H by lia. simpl.
  rewrite IH by (intros; apply H; lia). done.
Qed.

Lemma lookup_elt (pins : list Z) i :
  (i < length pins)%nat → pins !! i = Some (elt pins i).
Proof.
  intros H. unfold elt.
  by destruct (lookup_lt_is_Some_2 pins i H) as [p ->].
Qed.

Lemma write_all_spec n (pins : list Z) level :
  (n <= length pins)%nat →
  write_all n pins level
    = Some ((λ i, digitalWrite (elt pins i) level) <$> seq 0 n).
Proof.
  intros H. unfold write_all. apply mapM_seq_Some.
  intros i Hi. by rewrite lookup_elt by lia.
Qed.

Lemma clearDisplay_spec (d : SevSeg) :
  wired d →
  clearDisplay d
    = Some (d,
        ((λ i, digitalWrite (elt (digitPins d) i) (digitOff d))
           <$> seq 0 (numDigits d))
        ++ ((λ i, digitalWrite (elt (segmentPins d) i) (segmentOff d))
              <$> seq 0 8)).
Proof.
  intros (Hd & _ & Hs & _). unfold clearDisplay, S7_SEGMENTS.
  by rewrite !write_all_spec by done.
Qed.

(** C7. Whatever the segment codes, the cursor and the drive strategy are,
    [clearDisplay] writes the off level to each of the [numDigits] digit
    lines, then to each of the 8 segment lines, and does nothing else. *)
Theorem clearDisplay_all_off (d : SevSeg) :
  wired d →
  ∃ t,
    clearDisplay d = Some (d, t)
    ∧ t = ((λ i, digitalWrite (elt (digitPins d) i) (digitOff d))
             <$> seq 0 (numDigits d))
          ++ ((λ i, digitalWrite (elt (segmentPins d) i) (segmentOff d))
                <$> seq 0 8)
    ∧ (∀ i, (i < numDigits d)%nat →
         ∃ pin, digitPins d !! i = Some pin
                ∧ digitalWrite pin (digitOff d) ∈ t)
    ∧ (∀ i, (i < 8)%nat →
         ∃ pin, segmentPins d !! i = Some pin
                ∧ digitalWrite pin (segmentOff d) ∈ t).
Proof.
  intros Hw. pose proof Hw as (Hd & _ & Hs & _).
  eexists. split; [by apply clearDisplay_spec|]. split; [done|].
  split; intros i Hi; eexists.
  - split; [apply lookup_elt; lia|].
    apply elem_of_app. left. apply list_elem_of_fmap.
    exists i. split; [done|]. apply elem_of_seq. lia.
  - split; [apply lookup_elt; lia|].
    apply elem_of_app. right. apply list_elem_of_fmap.
    exists i. split; [done|]. apply elem_of_seq. lia.
Qed.

Lemma clearDisplay_all_off_witness :
  ∃ t,
    clearDisplay demo = Some (demo, t)
    ∧ t = ((λ i, digitalWrite (elt (digitPins demo) i) (digitOff demo))
             <$> seq 0 (numDigits demo))
          ++ ((λ i, digitalWrite (elt (segmentPins demo) i)
                      (segmentOff demo))
                <$> seq 0 8)
    ∧ (∀ i, (i < numDigits demo)%nat →
         ∃ pin, digitPins demo !! i = Some pin
                ∧ digitalWrite pin (digitOff demo) ∈ t)
    ∧ (∀ i, (i < 8)%nat →
         ∃ pin, segmentPins demo !! i = Some pin
                ∧ digitalWrite pin (segmentOff demo) ∈ t).
Proof.
  apply clearDisplay_all_off. unfold wired. simpl. lia.
Defined.

Lemma lightsOff_spec (b : Build) (d : SevSeg) step :
  wired d → (step < REFRESH_STEPS b d)%nat →
  lightsOff b d step = Some (common_line_off b d step :: dark_lines b d).
Proof.
  intros (Hd & _ & Hs & _) Hstep.
  unfold lightsOff, REFRESH_STEPS, common_line_off, dark_lines,
    S7_SEGMENTS, SEGMENTS in *.
  destruct (RESISTORS b).
  - rewrite lookup_elt by lia. simpl. by rewrite write_all_spec by done.
  - rewrite lookup_elt by lia. simpl. by rewrite write_all_spec by done.
Qed.

Lemma digits_on_spec (d : SevSeg) bitmask :
  wired d →
  digits_on d bitmask
    = Some (concat
        ((λ digit,
            if Z.land (elt (digitCodes d) digit) bitmask =? 0 then []
            else [digitalWrite (elt (digitPins d) digit) (digitOn d)])
           <$> seq 0 (numDigits d))).
Proof.
  intros (Hd & Hc & _). unfold digits_on.
  rewrite mapM_seq_Some with
    (g := λ digit, if Z.land (elt (digitCodes d) digit) bitmask =? 0 then []
                   else [digitalWrite (elt (digitPins d) digit) (digitOn d)]);
    [done|].
  intros i Hi. rewrite !lookup_elt by lia. simpl.
  by destruct (_ =? 0).
Qed.

Lemma segments_on_spec (d : SevSeg) code :
  wired d →
  segments_on d code
    = Some (concat
        ((λ segment,
            if Z.land code (Z.shiftl 1 (Z.of_nat segment)) =? 0 then []
            else [digitalWrite (elt (segmentPins d) segment) (segmentOn d)])
           <$> seq 0 SEGMENTS)).
Proof.
  intros (_ & _ & Hs & _). unfold segments_on.
  rewrite mapM_seq_Some with
    (g := λ segment,
            if Z.land code (Z.shiftl 1 (Z.of_nat segment)) =? 0 then []
            else [digitalWrite (elt (segmentPins d) segment) (segmentOn d)]);
    [done|].
  intros i Hi. unfold SEGMENTS in Hi.
  destruct (_ =? 0); [done|]. by rewrite lookup_elt by lia.
Qed.

Lemma lightsOn_spec (b : Build) (d : SevSeg) step :
  wired d → (step < REFRESH_STEPS b d)%nat →
  lightsOn b d step = Some (lit_lines b d step ++ [common_line_on b d step]).
Proof.
  intros Hw Hstep. pose proof Hw as (Hd & Hc & Hs & _).
  unfold lightsOn, REFRESH_STEPS, common_line_on, lit_lines,
    S7_SEGMENTS in *.
  destruct (RESISTORS b).
  - rewrite digits_on_spec by done. simpl. by rewrite lookup_elt by lia.
  - rewrite (lookup_elt (digitCodes d)) by lia. cbn [mbind option_bind].
    rewrite segments_on_spec by done. cbn [mbind option_bind].
    by rewrite lookup_elt by lia.
Qed.

Lemma REFRESH_STEPS_byte (b : Build) (d : SevSeg) :
  wired d → (REFRESH_STEPS b d < 256)%nat.
Proof.
  intros (_ & _ & _ & H). unfold REFRESH_STEPS, S7_SEGMENTS.
  destruct (RESISTORS b); lia.
Qed.

Lemma next_common_mod (b : Build) (d : SevSeg) :
  wired d → (common d < REFRESH_STEPS b d)%nat →
  next_common b d = ((common d + 1) `mod` REFRESH_STEPS b d)%nat.
Proof.
  intros Hw Hc. pose proof (REFRESH_STEPS_byte b d Hw) as Hb.
  unfold next_common. rewrite Nat.mod_small by lia.
  replace (common d + 1)%nat with (S (common d)) by lia.
  destruct (Nat.eqb_spec (S (common d)) (REFRESH_STEPS b d)) as [-> | Hne].
  - by rewrite Nat.Div0.mod_same.
  - by rewrite Nat.mod_small by lia.
Qed.

Lemma updateDisplay_spec (b : Build) (d : SevSeg) :
  wired d → (common d < REFRESH_STEPS b d)%nat →
  let c' := ((common d + 1) `mod` REFRESH_STEPS b d)%nat in
  let d' := set_common d c' in
  updateDisplay b d
    = Some (d', (common_line_off b d (common d) :: dark_lines b d)
                ++ lit_lines b d' c' ++ [common_line_on b d' c']).
Proof.
  intros Hw Hc c' d'. unfold updateDisplay.
  rewrite lightsOff_spec by done. simpl.
  rewrite next_common_mod by done. fold c'. fold d'.
  rewrite lightsOn_spec; [done | done |].
  change (REFRESH_STEPS b d') with (REFRESH_STEPS b d).
  apply Nat.mod_upper_bound. lia.
Qed.

Lemma ticks_spec (b : Build) n : ∀ d,
  wired d → (common d < REFRESH_STEPS b d)%nat →
  ∃ dn t,
    ticks b n d = Some (dn, t)
    ∧ wired dn
    ∧ REFRESH_STEPS b dn = REFRESH_STEPS b d
    ∧ digitCodes dn = digitCodes d
    ∧ common dn = ((common d + n) `mod` REFRESH_STEPS b d)%nat.
Proof.
  induction n as [|n IH]; intros d Hw Hc.
  - exists d, []. rewrite Nat.add_0_r, Nat.mod_small by done. done.
  - simpl. rewrite updateDisplay_spec by done. simpl.
    set (d' := set_common d _).
    destruct (IH d') as (dn & t & -> & Hwn & Hsn & Hcn & Hn).
    { done. }
    { simpl. change (REFRESH_STEPS b d') with (REFRESH_STEPS b d).
      apply Nat.mod_upper_bound. lia. }
    simpl. eexists _, _. split; [done|]. split; [done|].
    split; [done|]. split; [done|].
    rewrite Hn. simpl. change (REFRESH_STEPS b d') with (REFRESH_STEPS b d).
    rewrite Nat.Div0.add_mod_idemp_l. f_equal. lia.
Qed.

(** C6. With the cursor [common] inside [0, REFRESH_STEPS), one call of
    [updateDisplay] switches the step of the old cursor off (the inactive
    level on its common line, then on each of the other lines), moves the
    cursor to [(common + 1) mod REFRESH_STEPS] and switches that step on
    (the active level on each line that the segment codes light in it, then
    on its common line): these pin writes, in this order, are the whole
    trace of the call.  The cursor is inside [0, REFRESH_STEPS) again, and
    so it is after any number of calls. *)
Theorem updateDisplay_advances (b : Build) (d : SevSeg) :
  wired d → (common d < REFRESH_STEPS b d)%nat →
  (∃ d' off on,
     updateDisplay b d = Some (d', off ++ on)
     ∧ d' = set_common d ((common d + 1) `mod` REFRESH_STEPS b d)%nat
     ∧ off = common_line_off b d (common d) :: dark_lines b d
     ∧ on = lit_lines b d' (common d') ++ [common_line_on b d' (common d')]
     ∧ lightsOff b d (common d) = Some off
     ∧ lightsOn b d' (common d') = Some on
     ∧ (common d' < REFRESH_STEPS b d')%nat)
  ∧ ∀ n, ∃ dn t,
      ticks b n d = Some (dn, t)
      ∧ common dn = ((common d + n) `mod` REFRESH_STEPS b d)%nat
      ∧ (common dn < REFRESH_STEPS b dn)%nat.
Proof.
  intros Hw Hc. split.
  - assert ((common d + 1) `mod` REFRESH_STEPS b d < REFRESH_STEPS b d)%nat
      as Hlt by (apply Nat.mod_upper_bound; lia).
    eexists _, _, _. split; [by apply updateDisplay_spec|].
    split; [done|]. split; [done|]. split; [done|].
    split; [by apply lightsOff_spec|].
    split; [by apply lightsOn_spec|]. done.
  - intros n.
    destruct (ticks_spec b n d Hw Hc) as (dn & t & E & _ & Hs & _ & Hn).
    exists dn, t. split; [done|]. split; [done|].
    rewrite Hn, Hs. apply Nat.mod_upper_bound. lia.
Qed.

Lemma updateDisplay_advances_witness :
  (∃ d' off on,
     updateDisplay on_segments (set_common demo 3) = Some (d', off ++ on)
     ∧ d' = set_common (set_common demo 3)
              ((3 + 1) `mod` REFRESH_STEPS on_segments (set_common demo 3))%nat
     ∧ off = common_line_off on_segments (set_common demo 3) 3
             :: dark_lines on_segments (set_common demo 3)
     ∧ on = lit_lines on_segments d' (common d')
            ++ [common_line_on on_segments d' (common d')]
     ∧ lightsOff on_segments (set_common demo 3) 3 = Some off
     ∧ lightsOn on_segments d' (common d') = Some on
     ∧ (common d' < REFRESH_STEPS on_segments d')%nat)
  ∧ ∀ n, ∃ dn t,
      ticks on_segments n (set_common demo 3) = Some (dn, t)
      ∧ common dn
        = ((3 + n) `mod` REFRESH_STEPS on_segments (set_common demo 3))%nat
      ∧ (common dn < REFRESH_STEPS on_segments dn)%nat.
Proof.
  apply (updateDisplay_advances on_segments (set_common demo 3));
    [unfold wired; simpl; lia | unfold REFRESH_STEPS; simpl; lia].
Defined.

(** C10. [clearDisplay] changes no member of the driver: cursor and segment
    codes are as before.  The next [updateDisplay] therefore moves on from
    the cursor of before the clear and switches on the lines that the stored
    codes select for the new step, then the common line of that step: a
    cleared display is lit again by the next tick. *)
Theorem clearDisplay_then_updateDisplay (b : Build) (w : World) :
  wired (driver w) → (common (driver w) < REFRESH_STEPS b (driver w))%nat →
  ∃ w1 tc d' off,
    call b w CClearDisplay = Some w1
    ∧ driver w1 = driver w ∧ statics w1 = statics w
    ∧ trace w1 = trace w ++ tc
    ∧ updateDisplay b (driver w1)
        = Some (d', off ++ lit_lines b d' (common d')
                      ++ [common_line_on b d' (common d')])
    ∧ common d'
        = ((common (driver w) + 1) `mod` REFRESH_STEPS b (driver w))%nat
    ∧ digitCodes d' = digitCodes (driver w)
    ∧ run b w [CClearDisplay; CUpdateDisplay]
        = Some {| statics := statics w; driver := d';
                  trace := (trace w ++ tc)
                           ++ off ++ lit_lines b d' (common d')
                           ++ [common_line_on b d' (common d')] |}.
Proof.
  intros Hw Hc.
  pose proof (clearDisplay_spec (driver w) Hw) as Ec.
  pose proof (updateDisplay_spec b (driver w) Hw Hc) as Eu. simpl in Eu.
  eexists _, _,
    (set_common (driver w)
       ((common (driver w) + 1) `mod` REFRESH_STEPS b (driver w))%nat),
    (common_line_off b (driver w) (common (driver w))
     :: dark_lines b (driver w)).
  split; [simpl; rewrite Ec; reflexivity|]. simpl.
  split; [done|]. split; [done|]. split; [done|].
  split; [exact Eu|]. split; [done|]. split; [done|].
  unfold run. simpl. rewrite Ec. simpl. rewrite Eu. done.
Qed.

Lemma clearDisplay_then_updateDisplay_witness :
  ∃ w1 tc d' off,
    call on_digits demo_world CClearDisplay = Some w1
    ∧ driver w1 = driver demo_world ∧ statics w1 = statics demo_world
    ∧ trace w1 = trace demo_world ++ tc
    ∧ updateDisplay on_digits (driver w1)
        = Some (d', off ++ lit_lines on_digits d' (common d')
                      ++ [common_line_on on_digits d' (common d')])
    ∧ common d'
        = ((common (driver demo_world) + 1)
             `mod` REFRESH_STEPS on_digits (driver demo_world))%nat
    ∧ digitCodes d' = digitCodes (driver demo_world)
    ∧ run on_digits demo_world [CClearDisplay; CUpdateDisplay]
        = Some {| statics := statics demo_world; driver := d';
                  trace := (trace demo_world ++ tc)
                           ++ off ++ lit_lines on_digits d' (common d')
                           ++ [common_line_on on_digits d' (common d')] |}.
Proof.
  apply (clearDisplay_then_updateDisplay on_digits demo_world);
    [unfold wired; simpl; lia | unfold REFRESH_STEPS, S7_SEGMENTS; simpl; lia].
Defined.

(** On [demo_world], showing 1234, the tick after a clear switches on the
    digit lines (pins 2..5, active [LOW]) of the digits whose code has
    segment 1, and then segment line 1 (pin 7, active [HIGH]). *)
Example tick_after_clear_lights_up :
  (λ w, trace w) <$> run on_digits demo_world [CClearDisplay; CUpdateDisplay]
  = Some
      ([ digitalWrite 2 HIGH; digitalWrite 3 HIGH; digitalWrite 4 HIGH;
         digitalWrite 5 HIGH ]
       ++ ((λ p, digitalWrite p LOW) <$> [6; 7; 8; 9; 10; 11; 12; 13])
       ++ [ digitalWrite 6 LOW; digitalWrite 2 HIGH; digitalWrite 3 HIGH;
            digitalWrite 4 HIGH; digitalWrite 5 HIGH ]
       ++ [ digitalWrite 2 LOW; digitalWrite 3 LOW; digitalWrite 4 LOW;
            digitalWrite 5 LOW; digitalWrite 7 HIGH ]).
Proof. reflexivity. Qed.

(** ** The statics of [findDigits] *)

Lemma findDigits_statics (N : nat) s v dp (digits : list Z) r :
  findDigits N s v dp digits = Some r →
  ∃ b, get_bounds N s = Some b ∧ r.1 = Some b.
Proof.
  unfold findDigits. intros H.
  destruct (get_bounds N s) as [b|]; [|done]. simpl in H.
  exists b. split; [done|].
  destruct (out_of_range b v).
  - destruct (fill_dash N 0 digits); [|done]. simpl in H. by inversion H.
  - destruct (sign_and_digits N v digits); [|done]. simpl in H.
    destruct (blank_leading _ _ _); [|done]. simpl in H. by inversion H.
Qed.

Lemma setNewNum_statics s (d : SevSeg) v dp r :
  setNewNum s d v dp = Some r →
  ∃ b, get_bounds (numDigits d) s = Some b ∧ r.1 = Some b
       ∧ numDigits r.2 = numDigits d.
Proof.
  unfold setNewNum. intros H.
  destruct (findDigits _ _ _ _ _) as [r0|] eqn:E; [|done]. simpl in H.
  destruct (setDigitCodes _ _ _ _); [|done]. simpl in H.
  apply findDigits_statics in E as (b & Hb & Hr).
  exists b. inversion H. by subst.
Qed.

Lemma begin_statics (b : Build) s (d : SevSeg) hw n dpins spins r :
  begin b s d hw n dpins spins = Some r →
  ∃ bnd, get_bounds (numDigits r.1.2) s = Some bnd ∧ r.1.1 = Some bnd
         ∧ numDigits r.1.2 = (if (S7_DIGITS b <? n)%nat then S7_DIGITS b
                              else n).
Proof.
  unfold begin. intros H.
  apply bind_Some in H as (segs & _ & H).
  apply bind_Some in H as (digs & _ & H).
  apply bind_Some in H as (t1 & _ & H).
  apply bind_Some in H as (t2 & _ & H).
  apply bind_Some in H as (r0 & E & H).
  apply setNewNum_statics in E as (bnd & Hb & Hr & Hn). simpl in *.
  exists bnd. inversion H. simpl. rewrite Hn. done.
Qed.

Lemma call_statics (b : Build) (w w' : World) c bnd :
  statics w = Some bnd → call b w c = Some w' → statics w' = Some bnd.
Proof.
  intros Hs H. destruct c; simpl in H.
  - destruct (begin _ _ _ _ _ _ _) as [r|] eqn:E; [|done].
    apply begin_statics in E as (b' & Hb & Hr & _).
    rewrite Hs in Hb. simpl in *. inversion H. simpl. congruence.
  - unfold setNumber in H.
    destruct (setNewNum _ _ _ _) as [r|] eqn:E; [|done].
    apply setNewNum_statics in E as (b' & Hb & Hr & _).
    rewrite Hs in Hb. simpl in *. inversion H. simpl. congruence.
  - destruct (setSegments _ _); [|done]. simpl in H. by inversion H.
  - destruct (refreshDisplay _ _); [|done]. simpl in H. by inversion H.
  - destruct (updateDisplay _ _); [|done]. simpl in H. by inversion H.
  - destruct (clearDisplay _); [|done]. simpl in H. by inversion H.
Qed.

Lemma run_cons (b : Build) (w : World) c cs :
  run b w (c :: cs) = w' ← call b w c; run b w' cs.
Proof.
  unfold run. simpl. destruct (call b w c) as [w'|]; [done|]. simpl.
  induction cs as [|c' cs IH]; [done | exact IH].
Qed.

Lemma run_statics (b : Build) cs : ∀ (w w' : World) bnd,
  statics w = Some bnd → run b w cs = Some w' → statics w' = Some bnd.
Proof.
  induction cs as [|c cs IH]; intros w w' bnd Hs H.
  - unfold run in H. simpl in H. by inversion H; subst.
  - rewrite run_cons in H.
    destruct (call b w c) as [w1|] eqn:E; [|done]. simpl in H.
    eapply IH; [|exact H]. by eapply call_statics.
Qed.

Lemma findDigits_branches (N : nat) bnd v dp (digits : list Z) :
  length digits = N →
  findDigits N (Some bnd) v dp digits
    = if out_of_range bnd v then Some (Some bnd, replicate N DASH)
      else in_range_branch N bnd v dp digits.
Proof.
  intros Hlen. unfold findDigits, in_range_branch. simpl.
  destruct (out_of_range bnd v); [|done].
  by rewrite fill_dash_all.
Qed.

(** C9. [maxNum] and [minNum] are computed from [numDigits] by the first
    call of [findDigits] only (here the one made by the first [begin]) and
    every later call finds them unchanged: after any further calls, a second
    [begin] with another digit count among them, the range test of
    [findDigits] still compares with the bounds of the first digit count,
    whatever [numDigits] is by then. *)
Theorem findDigits_bounds_are_static
    (b : Build) (w w1 w2 : World) (hw : Z) (N1 : nat)
    (dpins spins : list Z) (cs : list Call) :
  statics w = None → (1 <= N1 <= 9)%nat → (N1 <= S7_DIGITS b)%nat →
  call b w (CBegin hw N1 dpins spins) = Some w1 →
  run b w1 cs = Some w2 →
  statics w1 = Some (maxValue N1, minValue N1)
  ∧ statics w2 = Some (maxValue N1, minValue N1)
  ∧ ∀ v dp (digits : list Z),
      length digits = numDigits (driver w2) →
      findDigits (numDigits (driver w2)) (statics w2) v dp digits
        = if (maxValue N1 <? v) || (v <? minValue N1)
          then Some (statics w2, replicate (numDigits (driver w2)) DASH)
          else in_range_branch (numDigits (driver w2))
                 (maxValue N1, minValue N1) v dp digits.
Proof.
  intros Hs HN Hcap Hb Hrun.
  assert (statics w1 = Some (maxValue N1, minValue N1)) as H1.
  { simpl in Hb.
    destruct (begin _ _ _ _ _ _ _) as [r|] eqn:E; [|done].
    apply begin_statics in E as (bnd & Hbnd & Hr & Hn).
    replace (S7_DIGITS b <? N1)%nat with false in Hn
      by (symmetry; apply Nat.ltb_ge; lia).
    rewrite Hs, Hn in Hbnd. simpl in Hbnd.
    rewrite init_bounds_ok in Hbnd by done.
    simpl in Hb. inversion Hb. simpl. congruence. }
  pose proof (run_statics b cs w1 w2 _ H1 Hrun) as H2.
  split; [done|]. split; [done|].
  intros v dp digits Hlen. rewrite H2.
  by rewrite findDigits_branches.
Qed.

Lemma findDigits_bounds_are_static_witness :
  numDigits (driver world_4_2) = 2%nat
  ∧ statics world_4 = Some (maxValue 4, minValue 4)
  ∧ statics world_4_2 = Some (maxValue 4, minValue 4)
  ∧ ∀ v dp (digits : list Z),
      length digits = numDigits (driver world_4_2) →
      findDigits (numDigits (driver world_4_2)) (statics world_4_2) v dp
        digits
        = if (maxValue 4 <? v) || (v <? minValue 4)
          then Some (statics world_4_2,
                     replicate (numDigits (driver world_4_2)) DASH)
          else in_range_branch (numDigits (driver world_4_2))
                 (maxValue 4, minValue 4) v dp digits.
Proof.
  split; [reflexivity|].
  apply (findDigits_bounds_are_static on_digits fresh_world world_4
           world_4_2 0 4 [2; 3; 4; 5] [6; 7; 8; 9; 10; 11; 12; 13]
           [CSetNumber 1234 0; begin_2]);
    [reflexivity | lia | simpl; lia
     | vm_compute; reflexivity | vm_compute; reflexivity].
Defined.

(** After [begin] for 4 digits and a second [begin] for 2 digits, 100 passes
    the range test of a 2-digit display, and 100 / 10 = 10 lands in the
    array as the glyph [BLANK]. *)
Example stale_bounds_two_digits :
  maxValue 2 < 100
  ∧ findDigits 2 (Some (maxValue 4, minValue 4)) 100 0 [0; 0]
    = Some (Some (maxValue 4, minValue 4), [BLANK; 0]).
Proof. split; reflexivity. Qed.

(** ** The [float] entry point *)

Lemma round24_exact m e :
  Z.abs m < 2 ^ 24 → -149 <= e <= 104 →
  round24 m e = Some {| mant := m; expo := e |}.
Proof.
  intros Hm He. unfold round24.
  assert (Z.log2 (Z.abs m) < 24) as Hlog.
  { destruct (Z.eq_dec (Z.abs m) 0) as [-> | Hne]; [done|].
    apply Z.log2_lt_pow2; lia. }
  replace (Z.max 0 _) with 0 by lia.
  unfold rne_shift. simpl (0 <=? 0). cbv iota. rewrite Z.add_0_r.
  replace (_ <? _) with true; [done|].
  symmetry. apply Z.ltb_lt.
  assert (2 ^ (e + 149) <= 2 ^ 253) as Hle
    by (apply Z.pow_le_mono_r; lia).
  assert (0 < 2 ^ 253) as Hpos by done.
  change (2 ^ (128 + 149)) with (2 ^ 24 * 2 ^ 253).
  pose proof (Z.abs_nonneg m) as Habs.
  apply Z.le_lt_trans with (Z.abs m * 2 ^ 253).
  - by apply Z.mul_le_mono_nonneg_l.
  - by apply Z.mul_lt_mono_pos_r.
Qed.

Lemma round24_expo m e y : round24 m e = Some y → -149 <= expo y.
Proof.
  unfold round24. intros H. case_match; [|done].
  inversion H. simpl. lia.
Qed.

Lemma quot_half_away m D H :
  0 < D → 0 <= H < D →
  (if 0 <=? m then (m + H) `quot` D else (m - H) `quot` D)
    = Z.sgn m * ((Z.abs m + H) `div` D).
Proof.
  intros HD HH. destruct (Z.leb_spec 0 m) as [Hm | Hm].
  - rewrite Z.quot_div_nonneg by lia. rewrite Z.abs_eq by done.
    destruct (Z.eq_dec m 0) as [-> | Hne].
    + simpl. by rewrite Z.div_small.
    + rewrite Z.sgn_pos by lia. lia.
  - rewrite Z.sgn_neg, Z.abs_neq by lia.
    replace (m - H) with (- (- m + H)) by lia.
    rewrite Z.quot_opp_l by lia. rewrite Z.quot_div_nonneg by lia. lia.
Qed.

Lemma ftrunc_sum (y : float32) :
  ftrunc (exact_add y (if fge0 y then half else minus_half))
    = round_half_away y.
Proof.
  destruct y as [m e]. unfold fge0, round_half_away, ftrunc, exact_add.
  simpl mant. simpl expo.
  assert (expo (if 0 <=? m then half else minus_half) = -1) as ->
    by (by destruct (0 <=? m)).
  destruct (Z.leb_spec 0 e) as [He | He].
  - replace (Z.min e (-1)) with (-1) by lia.
    replace (0 <=? -1) with false by done.
    replace (e - -1) with (e + 1) by lia. rewrite Z.pow_add_r by lia.
    change (2 ^ (-1 - -1)) with 1. change (2 ^ (- -1)) with 2.
    change (2 ^ 1) with 2.
    assert (0 < 2 ^ e) as Hp by (apply Z.pow_pos_nonneg; lia).
    set (M := m * 2 ^ e).
    destruct (Z.leb_spec 0 m) as [Hm | Hm]; simpl mant.
    + replace (m * (2 ^ e * 2) + 1 * 1) with (1 + M * 2) by (unfold M; lia).
      assert (0 <= M) by (unfold M; apply Z.mul_nonneg_nonneg; lia).
      clearbody M.
      rewrite Z.quot_div_nonneg by lia.
      rewrite Z.div_add by lia. done.
    + replace (m * (2 ^ e * 2) + -1 * 1) with (- (1 + (- M) * 2))
        by (unfold M; lia).
      assert (M < 0) by (unfold M; apply Z.mul_neg_pos; lia).
      clearbody M.
      rewrite Z.quot_opp_l by lia. rewrite Z.quot_div_nonneg by lia.
      rewrite Z.div_add by lia. change (1 `div` 2) with 0. lia.
  - replace (Z.min e (-1)) with e by lia.
    replace (0 <=? e) with false by (symmetry; apply Z.leb_gt; lia).
    rewrite Z.sub_diag. change (2 ^ 0) with 1. rewrite Z.mul_1_r.
    replace (-1 - e) with (- e - 1) by lia.
    assert (0 < 2 ^ (- e - 1)) as Hh by (apply Z.pow_pos_nonneg; lia).
    assert (2 ^ (- e) = 2 * 2 ^ (- e - 1)) as HD.
    { replace (- e) with (1 + (- e - 1)) at 1 by lia.
      by rewrite Z.pow_add_r by lia. }
    rewrite <- (quot_half_away m (2 ^ (- e)) (2 ^ (- e - 1))) by lia.
    destruct (0 <=? m); simpl mant; f_equal; lia.
Qed.

(** [setNumber(float, byte)] multiplies the float by
    [powersOf10[decPlaces]], adds 0.5 when the product is at least 0 and
    -0.5 otherwise, converts to [long] by truncation and goes on as
    [setNewNum]: whenever that sum is exact, the value displayed is the
    product rounded to the nearest integer, halves away from zero.  So
    [setNumber(1.25f, 1)] is [setNumber(13L, 1)] and [setNumber(-1.25f, 1)]
    is [setNumber(-13L, 1)]. *)
Theorem setNumber_float_rounds (s : Statics) (d : SevSeg) :
  (∀ x dp y,
     scaled_by x dp = Some y → sum_is_exact y →
     is_long (round_half_away y) →
     setNumber_float s d x dp = setNewNum s d (round_half_away y) dp)
  ∧ setNumber_float s d f_1_25 1 = setNumber s d 13 1
  ∧ setNumber_float s d f_minus_1_25 1 = setNumber s d (-13) 1.
Proof.
  split; [|split; reflexivity].
  intros x dp y Hy Hex Hlong. unfold scaled_by in Hy.
  apply bind_Some in Hy as (p & Hp & Hy).
  apply bind_Some in Hy as (pf & Hpf & Hy).
  unfold setNumber_float. rewrite Hp. simpl. rewrite Hpf. simpl.
  rewrite Hy. simpl.
  pose proof (round24_expo _ _ _ Hy) as He.
  unfold fadd. unfold sum_is_exact in Hex.
  set (h := if fge0 y then half else minus_half) in *.
  assert (expo (exact_add y h) = Z.min (expo y) (-1)) as Hee
    by (unfold h; by destruct (fge0 y)).
  rewrite round24_exact by (done || lia). simpl.
  unfold long_of_float. fold (exact_add y h).
  replace {| mant := mant (exact_add y h); expo := expo (exact_add y h) |}
    with (exact_add y h) by done.
  unfold h. rewrite ftrunc_sum.
  destruct Hlong as [Hlo Hhi].
  replace (_ <=? _) with true by (symmetry; by apply Z.leb_le).
  replace (_ <? _) with true by (symmetry; by apply Z.ltb_lt).
  done.
Qed.

Lemma setNumber_float_rounds_witness :
  scaled_by f_1_25 1 = Some {| mant := 50; expo := -2 |}
  ∧ round_half_away {| mant := 50; expo := -2 |} = 13
  ∧ setNumber_float None demo f_1_25 1 = setNewNum None demo 13 1.
Proof.
  split; [reflexivity|]. split; [reflexivity|].
  apply (proj1 (setNumber_float_rounds None demo) f_1_25 1%nat
           {| mant := 50; expo := -2 |});
    [reflexivity | reflexivity | split; [apply Z.leb_le | apply Z.ltb_lt];
                                 reflexivity].
Defined.

(** The sum need not be exact: 0.49999997f + 0.5f rounds to 1.0f, and the
    value handed on is 1 although the float is below one half. *)
Example float_sum_inexact :
  round_half_away {| mant := 2 ^ 24 - 1; expo := -25 |} = 0
  ∧ (r ← fadd {| mant := 2 ^ 24 - 1; expo := -25 |} half; long_of_float r)
    = Some 1.
Proof. split; reflexivity. Qed.

(** ** Where the display departs from the value *)

(** C1 fails on the code once [begin] has run for another digit count
    before: [maxNum] and [minNum] are initialised by the first call of
    [findDigits] only.  After [begin] for two digits and [begin] for four,
    1234 is between [minValue] and [maxValue] of four digits, yet
    [setNumber(1234, 0)] stores four dashes, and reading the codes back
    gives no value. *)
Theorem roundtrip_lost_after_second_begin :
  run on_digits fresh_world [begin_2; begin_4] = Some world_2_4
  ∧ numDigits (driver world_2_4) = 4%nat
  ∧ statics world_2_4 = Some (maxValue 2, minValue 2)
  ∧ minValue 4 <= 1234 <= maxValue 4
  ∧ ∃ s' d',
      setNumber (statics world_2_4) (driver world_2_4) 1234 0 = Some (s', d')
      ∧ take 4 (digitCodes d') = [0x40; 0x40; 0x40; 0xC0]
      ∧ glyph_of_code <$> take 4 (digitCodes d')
        = [Some DASH; Some DASH; Some DASH; Some DASH]
      ∧ decode (take 4 (digitCodes d')) = None.
Proof.
  split; [vm_compute; reflexivity|]. split; [reflexivity|].
  split; [reflexivity|]. split; [split; apply Z.leb_le; reflexivity|].
  exists (statics world_2_4),
    (set_digitCodes (driver world_2_4) [0x40; 0x40; 0x40; 0xC0]).
  split; [vm_compute; reflexivity|]. split; [reflexivity|].
  split; reflexivity.
Qed.

(** C3 fails on the code once [begin] has run for more digits before.
    After [begin] for four digits, [setNumber(1234, 0)] and [begin] for two
    digits, 100 is above [maxValue] of two digits, yet [findDigits] takes
    the branch of the values in range and leaves a blank and a zero, and
    [setNumber(100, 0)] stores their codes, not dashes. *)
Theorem overflow_shown_after_second_begin :
  run on_digits fresh_world [begin_4; CSetNumber 1234 0; begin_2]
    = Some world_4_2
  ∧ numDigits (driver world_4_2) = 2%nat
  ∧ statics world_4_2 = Some (maxValue 4, minValue 4)
  ∧ maxValue 2 < 100
  ∧ findDigits (numDigits (driver world_4_2)) (statics world_4_2) 100 0
      [0; 0]
    = Some (statics world_4_2, [BLANK; 0])
  ∧ [BLANK; 0] ≠ replicate 2 DASH
  ∧ ∃ s' d',
      setNumber (statics world_4_2) (driver world_4_2) 100 0 = Some (s', d')
      ∧ take 2 (digitCodes d') = [0x00; 0xBF].
Proof.
  split; [vm_compute; reflexivity|]. split; [reflexivity|].
  split; [reflexivity|]. split; [reflexivity|].
  split; [vm_compute; reflexivity|]. split; [discriminate|].
  exists (statics world_4_2),
    (set_digitCodes (driver world_4_2) [0x00; 0xBF; 0x4F; 0xE6]).
  split; [vm_compute; reflexivity | reflexivity].
Qed.

(** C4 fails on the code once [begin] has run for more digits before.
    After [begin] for four digits, [setNumber(1234, 0)] and [begin] for two
    digits, -50 is below [minValue] of two digits, where 50 does not fit in
    the one position left, yet [findDigits] takes the sign branch: position
    0 holds [DASH] and position 1 the number 50, which is no glyph, and
    [setDigitCodes] then reads the glyph table beyond its end. *)
Theorem negative_overflow_shown_after_second_begin :
  run on_digits fresh_world [begin_4; CSetNumber 1234 0; begin_2]
    = Some world_4_2
  ∧ numDigits (driver world_4_2) = 2%nat
  ∧ statics world_4_2 = Some (maxValue 4, minValue 4)
  ∧ -50 < minValue 2
  ∧ findDigits (numDigits (driver world_4_2)) (statics world_4_2) (-50) 0
      [0; 0]
    = Some (statics world_4_2, [DASH; 50])
  ∧ [DASH; 50] ≠ replicate 2 DASH
  ∧ load digitCodeMap 50 = None
  ∧ setNumber (statics world_4_2) (driver world_4_2) (-50) 0 = None.
Proof.
  split; [vm_compute; reflexivity|]. split; [reflexivity|].
  split; [reflexivity|]. split; [reflexivity|].
  split; [vm_compute; reflexivity|]. split; [discriminate|].
  split; vm_compute; reflexivity.
Qed.

(** C8 fails on the code where the sum of the product and 0.5f is not a
    [float]: the sum is rounded to the nearest [float], ties to even, before
    it is truncated.  0.49999997f is below one half and rounds to 0, yet
    [setNumber(0.49999997f, 0)] is [setNumber(1L, 0)] and the display reads
    1; 8388609.0f is a whole number, yet [setNumber(8388609.0f, 0)] is
    [setNumber(8388610L, 0)]. *)
Theorem setNumber_float_not_half_away (s : Statics) (d : SevSeg) :
  (scaled_by f_0_49999997 0 = Some f_0_49999997
   ∧ round_half_away f_0_49999997 = 0
   ∧ rounded_long f_0_49999997 0 = Some 1
   ∧ setNumber_float s d f_0_49999997 0 = setNumber s d 1 0
   ∧ ∃ s' d',
       setNumber_float None demo f_0_49999997 0 = Some (s', d')
       ∧ decode (take 4 (digitCodes d')) = Some 1)
  ∧ (scaled_by f_8388609 0 = Some f_8388609
     ∧ round_half_away f_8388609 = 8388609
     ∧ rounded_long f_8388609 0 = Some 8388610
     ∧ setNumber_float s d f_8388609 0 = setNumber s d 8388610 0
     ∧ call on_digits fresh_world_8 begin_8 = Some world_8
     ∧ numDigits (driver world_8) = 8%nat
     ∧ ∃ s' d',
         setNumber_float (statics world_8) (driver world_8) f_8388609 0
           = Some (s', d')
         ∧ decode (take 8 (digitCodes d')) = Some 8388610).
Proof.
  split.
  - split; [reflexivity|]. split; [reflexivity|]. split; [reflexivity|].
    split; [reflexivity|].
    exists (Some (maxValue 4, minValue 4)),
      (set_digitCodes demo [0x00; 0x00; 0x00; 0x86]).
    split; vm_compute; reflexivity.
  - split; [reflexivity|]. split; [reflexivity|]. split; [reflexivity|].
    split; [reflexivity|]. split; [vm_compute; reflexivity|].
    split; [reflexivity|].
    exists (statics world_8),
      (set_digitCodes (driver world_8)
         [0x00; 0x7F; 0x4F; 0x7F; 0x7F; 0x7D; 0x06; 0xBF]).
    split; vm_compute; reflexivity.
Qed.

(** * Further properties of the encoder *)

Lemma findDigits_init_irrelevant_witness :
  findDigits 4 None (-42) 1 [0; 0; 0; 0]
    = findDigits 4 None (-42) 1 [255; 7; 11; 200].
Proof. apply findDigits_init_irrelevant; reflexivity. Defined.

Lemma in_range_not_out (N : nat) v :
  minValue N <= v <= maxValue N →
  out_of_range (maxValue N, minValue N) v = false.
Proof.
  intros Hv. unfold out_of_range. simpl. apply orb_false_iff.
  split; apply Z.ltb_ge; lia.
Qed.

Lemma out_of_range_cases (N : nat) v :
  out_of_range (maxValue N, minValue N) v = true
  ∨ minValue N <= v <= maxValue N.
Proof.
  unfold out_of_range. simpl.
  destruct (Z.ltb_spec (maxValue N) v), (Z.ltb_spec v (minValue N));
    simpl; auto.
Qed.

Lemma findDigits_shown (N : nat) s v dp (digits : list Z) :
  (1 <= N <= 9)%nat → statics_for N s → length digits = N →
  findDigits N s v dp digits
    = Some (Some (maxValue N, minValue N), glyphs_shown N dp v).
Proof.
  intros HN Hs Hlen. unfold glyphs_shown.
  destruct (out_of_range_cases N v) as [Hout | Hin].
  - rewrite Hout. apply findDigits_overflow; [by apply get_bounds_ok|done..].
  - rewrite in_range_not_out by done. by apply findDigits_in_range.
Qed.

Lemma glyphs_shown_length (N dp : nat) v :
  (1 <= N)%nat → length (glyphs_shown N dp v) = N.
Proof.
  intros HN. unfold glyphs_shown. destruct (out_of_range _ _).
  - by rewrite length_replicate.
  - rewrite blank_list_length. by apply signed_numeral_length.
Qed.

Lemma glyphs_shown_glyphs (N dp : nat) v :
  (1 <= N)%nat → Forall is_glyph (glyphs_shown N dp v).
Proof.
  intros HN. unfold glyphs_shown.
  destruct (out_of_range_cases N v) as [Hout | Hin].
  - rewrite Hout. apply Forall_replicate. unfold is_glyph, DASH. lia.
  - rewrite in_range_not_out by done.
    by apply blank_list_glyphs, signed_numeral_glyphs.
Qed.

Lemma setNewNum_shown (s : Statics) (d : SevSeg) (v : Z) (dp : nat) :
  (1 <= numDigits d <= 9)%nat → statics_for (numDigits d) s →
  (numDigits d <= length (digitCodes d))%nat →
  setNewNum s d v dp
    = Some (Some (maxValue (numDigits d), minValue (numDigits d)),
            set_digitCodes d
              (imap (code_at (numDigits d) dp)
                 (glyphs_shown (numDigits d) dp v)
               ++ drop (numDigits d) (digitCodes d))).
Proof.
  intros HN Hs Hc. unfold setNewNum.
  rewrite findDigits_shown by (rewrite ?length_replicate; done). simpl.
  pose proof (glyphs_shown_length (numDigits d) dp v ltac:(lia)) as Hlen.
  rewrite setDigitCodes_spec; rewrite ?Hlen; try lia.
  - simpl. by rewrite take_ge by lia.
  - rewrite take_ge by lia. apply glyphs_shown_glyphs. lia.
Qed.

Lemma base10_lookup m : ∀ x (i : nat),
  0 <= x < 10 ^ Z.of_nat m → (i < m)%nat →
  base10 m x !! i
    = Some ((x `div` 10 ^ (Z.of_nat m - 1 - Z.of_nat i)) `mod` 10).
Proof.
  induction m as [|m IH]; intros x i Hx Hi; [lia|].
  pose proof (pow10_pos (Z.of_nat m) ltac:(lia)) as Hp.
  simpl base10. destruct i as [|i]; simpl.
  - f_equal.
    replace (Z.of_nat (S m) - 1 - Z.of_nat 0) with (Z.of_nat m) by lia.
    pose proof (base10_digits (S m) x Hx) as Hd. simpl in Hd.
    apply Forall_cons_1 in Hd as [[Hd0 Hd9] _].
    by rewrite Z.mod_small by lia.
  - rewrite IH by (try apply Z.mod_pos_bound; lia). f_equal.
    replace (Z.of_nat (S m) - 1 - Z.of_nat (S i))
      with (Z.of_nat m - 1 - Z.of_nat i) by lia.
    set (k := Z.of_nat m - 1 - Z.of_nat i).
    assert (0 <= k) as Hk by lia.
    pose proof (pow10_pos k Hk) as Hpk.
    assert (10 ^ Z.of_nat m = 10 ^ (Z.of_nat m - 1 - k) * 10 * 10 ^ k) as E.
    { replace (Z.of_nat m) with ((Z.of_nat m - 1 - k) + 1 + k) at 1 by lia.
      rewrite !Z.pow_add_r by lia. by rewrite Z.pow_1_r. }
    pose proof (Z.div_mod x (10 ^ Z.of_nat m) ltac:(lia)) as Hqr.
    set (q := x `div` 10 ^ Z.of_nat m) in *.
    set (r := x `mod` 10 ^ Z.of_nat m) in *.
    clearbody q r. clear Hx IH. subst x. rewrite E.
    replace (10 ^ (Z.of_nat m - 1 - k) * 10 * 10 ^ k * q + r)
      with (r + (10 ^ (Z.of_nat m - 1 - k) * q * 10) * 10 ^ k) by lia.
    rewrite Z.div_add by lia.
    by rewrite Z.mod_add by lia.
Qed.

Lemma signed_numeral_lookup (N : nat) v (i : nat) :
  (1 <= N)%nat → minValue N <= v <= maxValue N →
  (i < N)%nat → (v < 0 → (1 <= i)%nat) →
  signed_numeral N v !! i = Some (digit_at N v i).
Proof.
  intros HN Hv Hi Hsign. unfold signed_numeral, digit_at.
  unfold minValue, maxValue in Hv.
  destruct (Z.ltb_spec v 0) as [Hneg | Hpos].
  - destruct i as [|i]; [specialize (Hsign Hneg); lia|].
    change ((DASH :: base10 (N - 1) (- v)) !! S i)
      with (base10 (N - 1) (- v) !! i).
    assert (0 <= - v < 10 ^ Z.of_nat (N - 1)) as Hx.
    { replace (Z.of_nat (N - 1)) with (Z.of_nat N - 1) by lia. lia. }
    rewrite base10_lookup by (done || lia).
    rewrite Z.abs_neq by lia.
    by replace (Z.of_nat (N - 1) - 1 - Z.of_nat i)
      with (Z.of_nat N - 1 - Z.of_nat (S i)) by lia.
  - rewrite base10_lookup by lia. by rewrite Z.abs_eq by lia.
Qed.

(** With [maxNum] and [minNum] not yet initialised, or those of [N] digits:
    every position of an in-range value, the sign position of a negative
    value apart, holds the decimal digit of its weight, or [BLANK] in place
    of a digit 0 before index [N - 1 - decPlaces]; from that index on it
    always holds the digit. *)
Theorem findDigits_digit_positions
    (N : nat) (s : Statics) (v : Z) (dp : nat) (digits : list Z) :
  (1 <= N <= 9)%nat → statics_for N s → length digits = N →
  minValue N <= v <= maxValue N →
  ∃ out,
    findDigits N s v dp digits = Some (Some (maxValue N, minValue N), out)
    ∧ (∀ i : nat, (i < N)%nat → (v < 0 → (1 <= i)%nat) →
         out !! i = Some (digit_at N v i)
         ∨ (out !! i = Some BLANK ∧ digit_at N v i = 0
            ∧ Z.of_nat i < boundary N dp))
    ∧ (∀ i : nat, (i < N)%nat → (v < 0 → (1 <= i)%nat) →
         boundary N dp <= Z.of_nat i → out !! i = Some (digit_at N v i)).
Proof.
  intros HN Hs Hlen Hv. eexists.
  split; [by apply findDigits_in_range|].
  rewrite blank_list_boundary.
  assert (∀ i : nat, (i < N)%nat → (v < 0 → (1 <= i)%nat) →
            blank_pass nonzero_digit (boundary N dp) (signed_numeral N v)
              !! i = Some (digit_at N v i)
            ∨ (blank_pass nonzero_digit (boundary N dp) (signed_numeral N v)
                 !! i = Some BLANK
               ∧ digit_at N v i = 0 ∧ Z.of_nat i < boundary N dp)) as H.
  { intros i Hi Hsign. unfold blank_pass. rewrite list_lookup_imap.
    rewrite signed_numeral_lookup by (done || lia). simpl.
    destruct (Z.ltb_spec (Z.of_nat i) (boundary N dp)); [|by left].
    destruct (Z.eqb_spec (digit_at N v i) 0); [|by left].
    simpl. destruct (forallb _ _); [by right | by left]. }
  split; [exact H|].
  intros i Hi Hsign Hb. destruct (H i Hi Hsign) as [? | (_ & _ & ?)];
    [done | lia].
Qed.

Lemma findDigits_digit_positions_witness :
  ∃ out,
    findDigits 4 None 205 1 [0; 0; 0; 0]
      = Some (Some (maxValue 4, minValue 4), out)
    ∧ (∀ i : nat, (i < 4)%nat → (205 < 0 → (1 <= i)%nat) →
         out !! i = Some (digit_at 4 205 i)
         ∨ (out !! i = Some BLANK ∧ digit_at 4 205 i = 0
            ∧ Z.of_nat i < boundary 4 1))
    ∧ (∀ i : nat, (i < 4)%nat → (205 < 0 → (1 <= i)%nat) →
         boundary 4 1 <= Z.of_nat i → out !! i = Some (digit_at 4 205 i)).
Proof.
  apply findDigits_digit_positions; [lia | by left | reflexivity |].
  split; apply Z.leb_le; reflexivity.
Defined.

Lemma glyphs_shown_overflow (N dp : nat) v :
  maxValue N < v ∨ v < minValue N →
  glyphs_shown N dp v = replicate N DASH.
Proof.
  intros Hv. unfold glyphs_shown.
  replace (out_of_range _ _) with true; [done|].
  symmetry. unfold out_of_range. simpl. apply orb_true_iff.
  destruct Hv; [left | right]; by apply Z.ltb_lt.
Qed.

Lemma glyphs_shown_in_range (N dp : nat) v :
  minValue N <= v <= maxValue N →
  glyphs_shown N dp v
    = blank_list (Z.to_nat (boundary N dp)) (signed_numeral N v).
Proof.
  intros Hv. unfold glyphs_shown. by rewrite in_range_not_out.
Qed.

(** With [maxNum] and [minNum] not yet initialised, or those of the digit
    count of the driver, a value outside the range of the display makes
    [setNumber] store the dash pattern (segment G only) at each of the
    [numDigits] positions, the decimal point being added at index
    [numDigits - 1 - decPlaces] as for any other value. *)
Theorem setNumber_overflow_codes
    (s : Statics) (d : SevSeg) (v : Z) (dp : nat) :
  (1 <= numDigits d <= 9)%nat → statics_for (numDigits d) s →
  (numDigits d <= length (digitCodes d))%nat →
  maxValue (numDigits d) < v ∨ v < minValue (numDigits d) →
  ∃ s' d',
    setNumber s d v dp = Some (s', d')
    ∧ ∀ i : nat, (i < numDigits d)%nat →
        ∃ c, digitCodes d' !! i = Some c
             ∧ Z.land c 0x7F = 0x40
             ∧ dp_bit c = (Z.of_nat i =? boundary (numDigits d) dp).
Proof.
  intros HN Hs Hc Hv. unfold setNumber. eexists _, _.
  split; [by apply setNewNum_shown|]. simpl.
  intros i Hi. rewrite glyphs_shown_overflow by done.
  exists (code_at (numDigits d) dp i DASH).
  assert (is_glyph DASH) as Hg by (unfold is_glyph, DASH; lia).
  split; [|split].
  - rewrite lookup_app_l by (rewrite length_imap, length_replicate; lia).
    rewrite list_lookup_imap, lookup_replicate_2 by lia. done.
  - by rewrite code_at_low_bits.
  - by apply code_at_dp_bit.
Qed.

Lemma setNumber_overflow_codes_witness :
  ∃ s' d',
    setNumber None demo 12345 1 = Some (s', d')
    ∧ ∀ i : nat, (i < numDigits demo)%nat →
        ∃ c, digitCodes d' !! i = Some c
             ∧ Z.land c 0x7F = 0x40
             ∧ dp_bit c = (Z.of_nat i =? boundary (numDigits demo) 1).
Proof.
  apply (setNumber_overflow_codes None demo 12345 1); simpl;
    [lia | by left | lia | left; reflexivity].
Defined.

(** [setNumber] rewrites the first [numDigits] segment codes and nothing
    else: the other members and the rest of the array are as before, and
    what it stores does not depend on the codes it replaces, so that of two
    calls in a row only the second shows. *)
Theorem setNumber_overwrites
    (s : Statics) (d : SevSeg) (v1 v2 : Z) (dp1 dp2 : nat) :
  (1 <= numDigits d <= 9)%nat → statics_for (numDigits d) s →
  (numDigits d <= length (digitCodes d))%nat →
  ∃ s1 d1,
    setNumber s d v1 dp1 = Some (s1, d1)
    ∧ d1 = set_digitCodes d (digitCodes d1)
    ∧ length (digitCodes d1) = length (digitCodes d)
    ∧ drop (numDigits d) (digitCodes d1) = drop (numDigits d) (digitCodes d)
    ∧ setNumber s1 d1 v2 dp2 = setNumber s d v2 dp2.
Proof.
  intros HN Hs Hc. unfold setNumber. eexists _, _.
  split; [by apply setNewNum_shown|]. simpl.
  set (N := numDigits d) in *.
  pose proof (glyphs_shown_length N dp1 v1 ltac:(lia)) as Hlen.
  assert (length (imap (code_at N dp1) (glyphs_shown N dp1 v1)) = N) as Hl
    by (by rewrite length_imap).
  split; [done|]. split.
  { rewrite length_app, Hl, length_drop. lia. }
  split.
  { by rewrite drop_app_length' by done. }
  rewrite (setNewNum_shown s d v2 dp2) by done.
  rewrite setNewNum_shown; simpl; fold N.
  - by rewrite drop_app_length' by done.
  - lia.
  - by right.
  - rewrite length_app, Hl, length_drop. lia.
Qed.

Lemma setNumber_overwrites_witness :
  ∃ s1 d1,
    setNumber None demo 1234 0 = Some (s1, d1)
    ∧ d1 = set_digitCodes demo (digitCodes d1)
    ∧ length (digitCodes d1) = length (digitCodes demo)
    ∧ drop (numDigits demo) (digitCodes d1)
      = drop (numDigits demo) (digitCodes demo)
    ∧ setNumber s1 d1 (-7) 2 = setNumber None demo (-7) 2.
Proof.
  apply (setNumber_overwrites None demo 1234 (-7) 0 2); simpl;
    [lia | by left | lia].
Defined.

Lemma glyphs_value_dashes (N : nat) :
  glyphs_value (replicate N DASH) = None.
Proof.
  destruct N as [|[|N]]; reflexivity.
Qed.

(** With [maxNum] and [minNum] not yet initialised, or those of the digit
    count of the driver, the segment codes tell the value: an in-range value
    and any other value shown with the same [decPlaces] below [numDigits]
    never leave the same codes in the first [numDigits] positions. *)
Theorem setNumber_injective
    (s : Statics) (d : SevSeg) (v1 v2 : Z) (dp : nat)
    (s1 s2 : Statics) (d1 d2 : SevSeg) :
  (1 <= numDigits d <= 9)%nat → statics_for (numDigits d) s →
  (numDigits d <= length (digitCodes d))%nat → (dp < numDigits d)%nat →
  minValue (numDigits d) <= v1 <= maxValue (numDigits d) →
  setNumber s d v1 dp = Some (s1, d1) →
  setNumber s d v2 dp = Some (s2, d2) →
  v1 ≠ v2 →
  take (numDigits d) (digitCodes d1) ≠ take (numDigits d) (digitCodes d2).
Proof.
  intros HN Hs Hc Hdp Hv1 H1 H2 Hne Heq. apply Hne. clear Hne.
  unfold setNumber in *.
  rewrite setNewNum_shown in H1, H2 by done.
  inversion H1 as [[E1 E1']]. inversion H2 as [[E2 E2']].
  rewrite <- E1', <- E2' in Heq. simpl in Heq.
  set (N := numDigits d) in *.
  pose proof (glyphs_shown_length N dp v1 ltac:(lia)) as Hl1.
  pose proof (glyphs_shown_length N dp v2 ltac:(lia)) as Hl2.
  rewrite !take_app_le, !take_ge in Heq by (rewrite length_imap; lia).
  apply (f_equal decode) in Heq.
  rewrite !decode_codes in Heq by (apply glyphs_shown_glyphs; lia).
  rewrite (glyphs_shown_in_range N dp v1) in Heq by done.
  rewrite glyphs_value_numeral in Heq
    by (done || lia || (unfold boundary; lia)).
  destruct (out_of_range_cases N v2) as [Hout | Hin].
  - unfold glyphs_shown in Heq. rewrite Hout in Heq.
    by rewrite glyphs_value_dashes in Heq.
  - rewrite (glyphs_shown_in_range N dp v2) in Heq by done.
    rewrite glyphs_value_numeral in Heq
      by (done || lia || (unfold boundary; lia)).
    by inversion Heq.
Qed.

Lemma setNumber_injective_witness :
  take (numDigits demo)
    (digitCodes (set_digitCodes demo [0x00; 0x00; 0xE6; 0x5B]))
  ≠ take (numDigits demo)
      (digitCodes (set_digitCodes demo [0x06; 0x3F; 0xBF; 0x3F])).
Proof.
  apply (setNumber_injective None demo 42 1000 1
           (Some (maxValue 4, minValue 4)) (Some (maxValue 4, minValue 4)));
    simpl;
    [lia | by left | lia | lia | split; apply Z.leb_le; reflexivity
     | vm_compute; reflexivity | vm_compute; reflexivity | lia].
Defined.

(** * When [setDigitCodes] stays inside its arrays *)

Lemma store_inv (a a' : list Z) i v :
  store a i v = Some a' → (i < length a)%nat ∧ a' = <[i := v]> a.
Proof. unfold store. case_decide; naive_solver. Qed.

Lemma load_digitCodeMap_inv g c :
  load digitCodeMap g = Some c → is_glyph g.
Proof.
  unfold load, is_glyph. destruct (decide (g < 0)); [done|]. intros H.
  apply lookup_lt_Some in H. simpl in H. lia.
Qed.

Lemma setDigitCodes_loop_inv n : ∀ N k (digits : list Z) dp
    (codes codes' : list Z),
  setDigitCodes_loop n N k digits dp codes = Some codes' →
  ((0 < n)%nat →
   (k + n <= length codes)%nat ∧ (k + n <= length digits)%nat)
  ∧ Forall is_glyph (take n (drop k digits))
  ∧ length codes' = length codes.
Proof.
  induction n as [|n IH]; intros N k digits dp codes codes' H; simpl in H.
  - inversion H; subst. split; [lia|]. split; [by constructor | done].
  - apply bind_Some in H as (g & Hg & H).
    apply bind_Some in H as (c & Hc & H).
    apply bind_Some in H as (codes1 & H1 & H).
    apply bind_Some in H as (codes2 & H2 & H).
    apply store_inv in H1 as [Hk ->].
    assert (length codes2 = length codes) as Hlen2.
    { destruct (_ =? _).
      - apply bind_Some in H2 as (c' & _ & H2).
        apply store_inv in H2 as [_ ->]. by rewrite !length_insert.
      - inversion H2. by rewrite length_insert. }
    apply IH in H as (Hn & Hgl & Hlen).
    pose proof (lookup_lt_Some _ _ _ Hg) as Hkd.
    split; [|split].
    + intros _. destruct n as [|n]; [lia|].
      destruct Hn as [? ?]; lia.
    + rewrite (drop_S _ _ _ Hg). simpl. constructor; [|done].
      by eapply load_digitCodeMap_inv.
    + lia.
Qed.

(** [setDigitCodes] keeps inside [digits], [digitCodeMap] and [digitCodes]
    exactly when both arrays have [numDigits] entries and each of the first
    [numDigits] glyphs is one of the 12 of the table; it then leaves the
    length of [digitCodes] and its entries from [numDigits] on as they
    were. *)
Theorem setDigitCodes_defined
    (N dp : nat) (digits codes : list Z) :
  (is_Some (setDigitCodes N digits dp codes)
   ↔ (N = 0%nat ∨ (N <= length codes)%nat ∧ (N <= length digits)%nat)
     ∧ Forall is_glyph (take N digits))
  ∧ ∀ codes', setDigitCodes N digits dp codes = Some codes' →
      length codes' = length codes ∧ drop N codes' = drop N codes.
Proof.
  split.
  - split.
    + intros [codes' H]. unfold setDigitCodes in H.
      apply setDigitCodes_loop_inv in H as (Hn & Hg & _).
      split; [|done].
      destruct N as [|N]; [by left | right]. apply Hn. lia.
    + intros [[-> | [Hc Hd]] Hg]; [by eexists|].
      rewrite setDigitCodes_spec by done. by eexists.
  - intros codes' H. pose proof H as H'.
    unfold setDigitCodes in H.
    apply setDigitCodes_loop_inv in H as (Hn & Hg & Hlen).
    split; [done|].
    destruct N as [|N]; [by inversion H'|].
    destruct Hn as [Hc Hd]; [lia|].
    rewrite setDigitCodes_spec in H' by done. inversion H'.
    rewrite drop_app_length'; [done|].
    rewrite length_imap, length_take. lia.
Qed.

Lemma setDigitCodes_defined_witness :
  length [0x3F; 0x40; 0x00; 0x86; 99] = length [0; 11; 10; 1; 99]
  ∧ drop 4 [0x3F; 0x40; 0x00; 0x86; 99] = drop 4 [7; 7; 7; 7; 99].
Proof.
  apply (proj2 (setDigitCodes_defined 4 0 [0; 11; 10; 1; 99]
                  [7; 7; 7; 7; 99]) [0x3F; 0x40; 0x00; 0x86; 99]).
  reflexivity.
Defined.

Lemma blank_list_above_9 n d (l : list Z) :
  9 < d → blank_list n (d :: l) = d :: blank_list (pred n) l.
Proof.
  intros Hd. destruct n; [by destruct l|]. simpl.
  replace (d =? 0) with false by (symmetry; apply Z.eqb_neq; lia).
  by replace (d <=? 9) with false by (symmetry; apply Z.leb_gt; lia).
Qed.

(** With [maxNum] and [minNum] left over from an earlier, larger digit count
    [N1], a value above the range of the display passes the range test, and
    when its quotient by [10 ^ (numDigits - 1)] is 12..255 that quotient is
    stored as the first glyph: [setDigitCodes] then indexes [digitCodeMap]
    past its 12 entries. *)
Theorem setNumber_stale_bounds_overrun
    (d : SevSeg) (N1 : nat) (v : Z) (dp : nat) :
  (1 <= numDigits d)%nat → (numDigits d < N1 <= 9)%nat →
  12 * 10 ^ (Z.of_nat (numDigits d) - 1) <= v
    < 256 * 10 ^ (Z.of_nat (numDigits d) - 1) →
  v <= maxValue N1 →
  maxValue (numDigits d) < v
  ∧ (∃ out,
       findDigits (numDigits d) (Some (maxValue N1, minValue N1)) v dp
         (replicate (numDigits d) 0)
         = Some (Some (maxValue N1, minValue N1), out)
       ∧ out !! 0%nat
         = Some (v `div` 10 ^ (Z.of_nat (numDigits d) - 1))
       ∧ load digitCodeMap (v `div` 10 ^ (Z.of_nat (numDigits d) - 1))
         = None)
  ∧ setNumber (Some (maxValue N1, minValue N1)) d v dp = None.
Proof.
  intros HN HN1 Hv Hmax.
  remember (numDigits d) as N eqn:EN.
  destruct N as [|m]; [lia|].
  replace (Z.of_nat (S m) - 1) with (Z.of_nat m) in * by lia.
  pose proof (pow10_pos (Z.of_nat m) ltac:(lia)) as Hp.
  pose proof (pow10_le_9 (Z.of_nat N1) ltac:(lia)) as H9.
  assert (10 ^ 9 = 1000000000) as E9 by reflexivity.
  pose proof (minValue_bounds N1 ltac:(lia)) as Hmin.
  unfold maxValue in Hmax.
  set (q := v `div` 10 ^ Z.of_nat m).
  assert (12 <= q < 256) as Hq.
  { unfold q. split.
    - apply Z.div_le_lower_bound; lia.
    - apply Z.div_lt_upper_bound; lia. }
  pose proof (Z.mod_pos_bound v (10 ^ Z.of_nat m) Hp) as Hr.
  assert (v `mod` 10 ^ Z.of_nat m = v - q * 10 ^ Z.of_nat m) as Hmod.
  { unfold q. rewrite Z.mod_eq by lia. lia. }
  assert (maxValue (S m) < v) as Hover.
  { unfold maxValue. replace (Z.of_nat (S m)) with (Z.of_nat m + 1) by lia.
    rewrite Z.pow_add_r by lia. lia. }
  assert (findDigits (S m) (Some (maxValue N1, minValue N1)) v dp
            (replicate (S m) 0)
          = Some (Some (maxValue N1, minValue N1),
                  q :: blank_list (pred (Z.to_nat (boundary (S m) dp)))
                         (base10 m (v `mod` 10 ^ Z.of_nat m)))) as Hfd.
  { unfold findDigits. simpl get_bounds. cbn [mbind option_bind].
    replace (out_of_range _ v) with false.
    2:{ symmetry. unfold out_of_range, maxValue. simpl. apply orb_false_iff.
        split; apply Z.ltb_ge; lia. }
    unfold sign_and_digits.
    replace (v <? 0) with false by (symmetry; apply Z.ltb_ge; lia).
    cbn [decompose].
    replace (Z.of_nat (S m) - 1 - Z.of_nat 0) with (Z.of_nat m) by lia.
    rewrite powersOf10_load by lia. cbn [mbind option_bind].
    rewrite Z.quot_div_nonneg by lia. fold q.
    rewrite to_byte_id by lia.
    rewrite store_Some by (rewrite length_replicate; lia).
    cbn [mbind option_bind].
    rewrite (wrap32_id (q * _)) by (unfold is_long; lia).
    rewrite wrap32_id by (unfold is_long; lia).
    rewrite <- Hmod.
    rewrite decompose_spec with (N := S m);
      rewrite ?length_insert, ?length_replicate; try lia.
    cbn [mbind option_bind].
    rewrite blank_leading_spec.
    2:{ rewrite length_app, base10_length. simpl. unfold boundary. lia. }
    simpl take. simpl drop. cbn [mbind option_bind].
    by rewrite blank_list_above_9 by lia. }
  split; [done|]. split.
  - eexists. split; [exact Hfd|]. split; [done|].
    unfold load. destruct (decide (q < 0)); [done|].
    apply lookup_ge_None. simpl. lia.
  - unfold setNumber, setNewNum. rewrite <- EN, Hfd.
    cbn [mbind option_bind].
    simpl snd.
    destruct (setDigitCodes _ _ _ _) as [codes'|] eqn:E; [|done].
    unfold setDigitCodes in E.
    apply setDigitCodes_loop_inv in E as (_ & Hg & _).
    simpl in Hg. apply Forall_cons_1 in Hg as [Hg _].
    unfold is_glyph in Hg. lia.
Qed.

Lemma setNumber_stale_bounds_overrun_witness :
  maxValue 2 < 500
  ∧ (∃ out,
       findDigits 2 (Some (maxValue 4, minValue 4)) 500 0 (replicate 2 0)
         = Some (Some (maxValue 4, minValue 4), out)
       ∧ out !! 0%nat = Some (500 `div` 10 ^ (Z.of_nat 2 - 1))
       ∧ load digitCodeMap (500 `div` 10 ^ (Z.of_nat 2 - 1)) = None)
  ∧ setNumber (Some (maxValue 4, minValue 4)) (driver world_4_2) 500 0
    = None.
Proof.
  apply (setNumber_stale_bounds_overrun (driver world_4_2) 4 500 0);
    [simpl; lia | simpl; lia
     | split; [apply Z.leb_le | apply Z.ltb_lt]; reflexivity
     | apply Z.leb_le; reflexivity].
Defined.

(** * Raw segment codes *)

Lemma copy_bytes_S n (src dst : list Z) :
  copy_bytes (S n) src dst
    = a ← copy_bytes n src dst; v ← src !! n; store a n v.
Proof. unfold copy_bytes. by rewrite seq_S, foldl_app. Qed.

Lemma copy_bytes_spec n : ∀ (src dst : list Z),
  copy_bytes n src dst
    = if decide ((n <= length src)%nat ∧ (n <= length dst)%nat)
      then Some (take n src ++ drop n dst) else None.
Proof.
  induction n as [|n IH]; intros src dst.
  - rewrite decide_True by (split; lia). by rewrite take_0, drop_0.
  - rewrite copy_bytes_S, IH.
    destruct (decide ((n <= length src)%nat ∧ (n <= length dst)%nat))
      as [[Hs Hd] | Hno]; [|by rewrite decide_False by lia].
    cbn [mbind option_bind].
    destruct (decide ((S n <= length src)%nat ∧ (S n <= length dst)%nat))
      as [[Hs' Hd'] | Hno].
    + destruct (lookup_lt_is_Some_2 src n ltac:(lia)) as [v Hv].
      rewrite Hv. cbn [mbind option_bind].
      assert (length (take n src) = n) as Hlt by (rewrite length_take; lia).
      rewrite store_Some by (rewrite length_app, Hlt, length_drop; lia).
      f_equal.
      rewrite insert_app_r_alt by lia. rewrite Hlt, Nat.sub_diag.
      rewrite (take_S_r _ _ _ Hv), <- app_assoc. f_equal.
      destruct (lookup_lt_is_Some_2 dst n ltac:(lia)) as [w Hw].
      by rewrite (drop_S _ _ _ Hw).
    + destruct (src !! n) as [v|] eqn:Hv; [|done].
      cbn [mbind option_bind]. apply lookup_lt_Some in Hv.
      unfold store. rewrite decide_False; [done|].
      rewrite length_app, length_take, length_drop. lia.
Qed.

Lemma setSegmentsPGM_loop_spec n : ∀ k (segs codes : list Z),
  (k <= length codes)%nat →
  setSegmentsPGM_loop n k segs codes
    = if decide ((n <= length segs)%nat ∧ (k + n <= length codes)%nat)
      then Some (take k codes ++ take n segs ++ drop (k + n) codes)
      else None.
Proof.
  induction n as [|n IH]; intros k segs codes Hk; simpl.
  - rewrite decide_True by (split; lia).
    by rewrite Nat.add_0_r, take_drop.
  - destruct segs as [|v segs]; [by rewrite decide_False by (simpl; lia)|].
    unfold store. destruct (decide (k < length codes)%nat) as [Hlt | Hge].
    + cbn [mbind option_bind]. rewrite IH by (rewrite length_insert; lia).
      rewrite length_insert. simpl length.
      destruct (decide ((n <= length segs)%nat
                        ∧ (S k + n <= length codes)%nat)) as [[? ?] | Hno].
      * rewrite decide_True by (split; lia). f_equal.
        rewrite take_S_r with (x := v)
          by (apply list_lookup_insert_eq; lia).
        rewrite take_insert_ge by lia. rewrite drop_insert_lt by lia.
        rewrite <- app_assoc. simpl.
        by replace (S (k + n))%nat with (k + S n)%nat by lia.
      * by rewrite decide_False by lia.
    + by rewrite decide_False by lia.
Qed.

(** [setSegments] keeps inside both arrays exactly when each has
    [numDigits] entries; it then replaces the first [numDigits] segment
    codes by those given, byte for byte, and changes nothing else. *)
Theorem setSegments_stores (d : SevSeg) (segs : list Z) :
  (is_Some (setSegments d segs)
   ↔ (numDigits d <= length segs)%nat
     ∧ (numDigits d <= length (digitCodes d))%nat)
  ∧ ∀ d', setSegments d segs = Some d' →
      d' = set_digitCodes d
             (take (numDigits d) segs ++ drop (numDigits d) (digitCodes d))
      ∧ ∀ i v, (i < numDigits d)%nat → segs !! i = Some v →
          digitCodes d' !! i = Some v.
Proof.
  unfold setSegments. rewrite copy_bytes_spec.
  destruct (decide _) as [[Hs Hc] | Hno]; cbn [mbind option_bind].
  - split; [split; [done | by eexists]|].
    intros d' H. inversion H. split; [done|]. simpl.
    intros i v Hi Hv.
    rewrite lookup_app_l by (rewrite length_take; lia).
    by rewrite lookup_take_lt.
  - split; [|done]. split; [by intros [? ?] | done].
Qed.

Lemma setSegments_stores_witness :
  set_digitCodes demo [1; 2; 4; 8]
    = set_digitCodes demo
        (take (numDigits demo) [1; 2; 4; 8; 16]
         ++ drop (numDigits demo) (digitCodes demo))
  ∧ ∀ i v, (i < numDigits demo)%nat → [1; 2; 4; 8; 16] !! i = Some v →
      digitCodes (set_digitCodes demo [1; 2; 4; 8]) !! i = Some v.
Proof.
  apply (proj2 (setSegments_stores demo [1; 2; 4; 8; 16])). reflexivity.
Defined.

(** [setSegmentsPGM], which reads its bytes through a pointer into program
    memory, does what [setSegments] does on the same bytes, out-of-bounds
    cases included. *)
Theorem setSegmentsPGM_as_setSegments (d : SevSeg) (segs : list Z) :
  setSegmentsPGM d segs = setSegments d segs.
Proof.
  unfold setSegmentsPGM, setSegments.
  rewrite copy_bytes_spec, setSegmentsPGM_loop_spec by lia. simpl.
  by destruct (decide _).
Qed.

(** The encoder and [setSegments] write the same codes, so that of the two
    the later call decides what is shown: a number replaces raw segments,
    and raw segments replace a number. *)
Theorem setNumber_setSegments_overwrite
    (s : Statics) (d : SevSeg) (v : Z) (dp : nat) (segs : list Z) :
  (1 <= numDigits d <= 9)%nat → statics_for (numDigits d) s →
  (numDigits d <= length (digitCodes d))%nat →
  (numDigits d <= length segs)%nat →
  (∃ d1, setSegments d segs = Some d1
         ∧ setNumber s d1 v dp = setNumber s d v dp)
  ∧ (∃ s1 d1, setNumber s d v dp = Some (s1, d1)
              ∧ setSegments d1 segs = setSegments d segs).
Proof.
  intros HN Hs Hc Hsegs. unfold setNumber, setSegments.
  set (N := numDigits d) in *. split.
  - rewrite copy_bytes_spec, decide_True by done. cbn [mbind option_bind].
    eexists. split; [done|].
    assert (length (take N segs) = N) as Hl by (rewrite length_take; lia).
    rewrite (setNewNum_shown s d) by done.
    rewrite setNewNum_shown; simpl; fold N.
    + by rewrite drop_app_length' by done.
    + lia.
    + done.
    + rewrite length_app, Hl, length_drop. lia.
  - rewrite setNewNum_shown by done. fold N. eexists _, _. split; [done|].
    simpl.
    assert (length (imap (code_at N dp) (glyphs_shown N dp v)) = N) as Hl.
    { rewrite length_imap. apply glyphs_shown_length. lia. }
    rewrite !copy_bytes_spec.
    rewrite !decide_True
      by (rewrite ?length_app, ?Hl, ?length_drop; split; lia).
    cbn [mbind option_bind]. by rewrite drop_app_length' by done.
Qed.

Lemma setNumber_setSegments_overwrite_witness :
  (∃ d1, setSegments demo [1; 2; 4; 8] = Some d1
         ∧ setNumber None d1 (-42) 1 = setNumber None demo (-42) 1)
  ∧ (∃ s1 d1, setNumber None demo (-42) 1 = Some (s1, d1)
              ∧ setSegments d1 [1; 2; 4; 8] = setSegments demo [1; 2; 4; 8]).
Proof.
  apply (setNumber_setSegments_overwrite None demo (-42) 1 [1; 2; 4; 8]);
    simpl; [lia | by left | lia | lia].
Defined.

(** * Pin levels *)

Lemma drive_all_app σ (t1 t2 : list Event) :
  drive_all σ (t1 ++ t2) = drive_all (drive_all σ t1) t2.
Proof. unfold drive_all. apply foldl_app. Qed.

Lemma drive_all_snoc σ (t : list Event) e :
  drive_all σ (t ++ [e]) = drive (drive_all σ t) e.
Proof. by rewrite drive_all_app. Qed.

(** If every write of a trace to pin [q] carries level [l], the pin ends at
    [l], or the trace has no write to it and leaves it alone. *)
Lemma drive_all_cases σ (t : list Event) q l :
  (∀ l', digitalWrite q l' ∈ t → l' = l) →
  (drive_all σ t q = l ∧ ∃ l', digitalWrite q l' ∈ t)
  ∨ (drive_all σ t q = σ q ∧ ∀ l', digitalWrite q l' ∉ t).
Proof.
  induction t as [|e t IH] using rev_ind; intros H.
  - right. split; [done|]. intros l' Hin. by apply elem_of_nil in Hin.
  - rewrite drive_all_snoc.
    destruct IH as [[IH1 [l1 IH2]] | [IH1 IH2]].
    { intros l' Hin. apply H. apply elem_of_app. by left. }
    + left. split.
      * destruct e as [p lv| |]; simpl; [|done..].
        destruct (Z.eqb_spec q p) as [-> | Hne]; [|done].
        apply H. apply elem_of_app. right. by apply list_elem_of_singleton.
      * exists l1. apply elem_of_app. by left.
    + destruct e as [p lv| |]; simpl.
      * destruct (Z.eqb_spec q p) as [-> | Hne].
        -- left. split.
           ++ apply H. apply elem_of_app. right.
              by apply list_elem_of_singleton.
           ++ exists lv. apply elem_of_app. right.
              by apply list_elem_of_singleton.
        -- right. split; [done|]. intros l' Hin.
           apply elem_of_app in Hin as [Hin | Hin]; [by eapply IH2|].
           apply list_elem_of_singleton in Hin. congruence.
      * right. split; [done|]. intros l' Hin.
        apply elem_of_app in Hin as [Hin | Hin]; [by eapply IH2|].
        by apply list_elem_of_singleton in Hin.
      * right. split; [done|]. intros l' Hin.
        apply elem_of_app in Hin as [Hin | Hin]; [by eapply IH2|].
        by apply list_elem_of_singleton in Hin.
Qed.

Lemma drive_all_untouched σ (t : list Event) q :
  (∀ l', digitalWrite q l' ∉ t) → drive_all σ t q = σ q.
Proof.
  intros H. destruct (drive_all_cases σ t q 0) as [[_ [l' Hin]] | [? _]];
    [intros l' Hin; by apply H in Hin | by apply H in Hin | done].
Qed.

Lemma drive_all_uniform σ (t : list Event) q l l0 :
  digitalWrite q l0 ∈ t → (∀ l', digitalWrite q l' ∈ t → l' = l) →
  drive_all σ t q = l.
Proof.
  intros Hin H. destruct (drive_all_cases σ t q l H) as [[? _] | [_ Hno]];
    [done | by apply Hno in Hin].
Qed.

(** ** The two strategies side by side *)

Lemma common_line_on_eq (b : Build) (d : SevSeg) step :
  common_line_on b d step
    = digitalWrite (common_pin b d step) (common_level b d true).
Proof. unfold common_line_on, common_pin, common_level. by destruct (RESISTORS b). Qed.

Lemma common_line_off_eq (b : Build) (d : SevSeg) step :
  common_line_off b d step
    = digitalWrite (common_pin b d step) (common_level b d false).
Proof. unfold common_line_off, common_pin, common_level. by destruct (RESISTORS b). Qed.

Lemma dark_lines_eq (b : Build) (d : SevSeg) :
  dark_lines b d
    = (λ i, digitalWrite (member_pin b d i) (member_level b d false))
        <$> seq 0 (member_count b d).
Proof.
  unfold dark_lines, member_pin, member_level, member_count.
  by destruct (RESISTORS b).
Qed.

Lemma lit_lines_eq (b : Build) (d : SevSeg) step :
  lit_lines b d step
    = concat
        ((λ i, if lit b d step i
               then [digitalWrite (member_pin b d i) (member_level b d true)]
               else [])
           <$> seq 0 (member_count b d)).
Proof.
  unfold lit_lines, lit, member_pin, member_level, member_count.
  destruct (RESISTORS b); f_equal; apply list_fmap_ext; intros _ i _;
    by destruct (_ =? 0).
Qed.

Lemma elem_of_dark_lines (b : Build) (d : SevSeg) q l :
  digitalWrite q l ∈ dark_lines b d
  ↔ ∃ i, (i < member_count b d)%nat
         ∧ q = member_pin b d i ∧ l = member_level b d false.
Proof.
  rewrite dark_lines_eq, list_elem_of_fmap. split.
  - intros (i & E & Hi). apply elem_of_seq in Hi. inversion E.
    exists i. split; [lia | done].
  - intros (i & Hi & -> & ->). exists i. split; [done|].
    apply elem_of_seq. lia.
Qed.

Lemma elem_of_concat {A} (x : A) (ls : list (list A)) :
  x ∈ concat ls ↔ ∃ l, x ∈ l ∧ l ∈ ls.
Proof.
  induction ls as [|l0 ls IH]; simpl.
  - split; [intros H; by apply elem_of_nil in H|].
    intros (l & _ & H). by apply elem_of_nil in H.
  - rewrite elem_of_app, IH. split.
    + intros [H | (l & H1 & H2)].
      * exists l0. split; [done | by left].
      * exists l. split; [done | by right].
    + intros (l & H1 & H2). apply elem_of_cons in H2 as [-> | H2].
      * by left.
      * right. by exists l.
Qed.

Lemma elem_of_lit_lines (b : Build) (d : SevSeg) step q l :
  digitalWrite q l ∈ lit_lines b d step
  ↔ ∃ i, (i < member_count b d)%nat ∧ lit b d step i = true
         ∧ q = member_pin b d i ∧ l = member_level b d true.
Proof.
  rewrite lit_lines_eq, elem_of_concat. split.
  - intros (ws & Hin & Hws). apply list_elem_of_fmap in Hws as (i & -> & Hi).
    apply elem_of_seq in Hi. destruct (lit b d step i) eqn:E.
    + apply list_elem_of_singleton in Hin. inversion Hin.
      exists i. split; [lia | done].
    + by apply elem_of_nil in Hin.
  - intros (i & Hi & E & -> & ->). eexists. split.
    2:{ apply list_elem_of_fmap. exists i. split; [done|].
        apply elem_of_seq. lia. }
    simpl. rewrite E. by apply list_elem_of_singleton.
Qed.

Lemma digit_pin_lookup (d : SevSeg) i :
  wired d → (i < numDigits d)%nat →
  (take (numDigits d) (digitPins d) ++ take 8 (segmentPins d)) !! i
    = Some (elt (digitPins d) i).
Proof.
  intros (Hd & _) Hi.
  rewrite lookup_app_l by (rewrite length_take; lia).
  rewrite lookup_take_lt by done. apply lookup_elt. lia.
Qed.

Lemma segment_pin_lookup (d : SevSeg) j :
  wired d → (j < 8)%nat →
  (take (numDigits d) (digitPins d) ++ take 8 (segmentPins d))
    !! (numDigits d + j)%nat
    = Some (elt (segmentPins d) j).
Proof.
  intros (Hd & _ & Hs & _) Hj.
  assert (length (take (numDigits d) (digitPins d)) = numDigits d) as Hl
    by (rewrite length_take; lia).
  rewrite lookup_app_r by lia. rewrite Hl.
  replace (numDigits d + j - numDigits d)%nat with j by lia.
  rewrite lookup_take_lt by done. apply lookup_elt. lia.
Qed.

Lemma member_common_ne (b : Build) (d : SevSeg) i j :
  wired d → distinct_pins d →
  (i < member_count b d)%nat → (j < REFRESH_STEPS b d)%nat →
  member_pin b d i ≠ common_pin b d j.
Proof.
  intros Hw Hnd Hi Hj E.
  unfold member_count, REFRESH_STEPS, member_pin, common_pin,
    SEGMENTS, S7_SEGMENTS in *.
  destruct (RESISTORS b).
  - pose proof (digit_pin_lookup d i Hw Hi) as H1.
    pose proof (segment_pin_lookup d j Hw Hj) as H2.
    rewrite E in H1. pose proof (NoDup_lookup _ _ _ _ Hnd H1 H2). lia.
  - pose proof (digit_pin_lookup d j Hw Hj) as H1.
    pose proof (segment_pin_lookup d i Hw Hi) as H2.
    rewrite E in H2. pose proof (NoDup_lookup _ _ _ _ Hnd H1 H2). lia.
Qed.

Lemma member_pin_inj (b : Build) (d : SevSeg) i i' :
  wired d → distinct_pins d →
  (i < member_count b d)%nat → (i' < member_count b d)%nat →
  member_pin b d i = member_pin b d i' → i = i'.
Proof.
  intros Hw Hnd Hi Hi' E.
  unfold member_count, member_pin, SEGMENTS in *.
  destruct (RESISTORS b).
  - pose proof (digit_pin_lookup d i Hw Hi) as H1.
    pose proof (digit_pin_lookup d i' Hw Hi') as H2.
    rewrite E in H1. exact (NoDup_lookup _ _ _ _ Hnd H1 H2).
  - pose proof (segment_pin_lookup d i Hw Hi) as H1.
    pose proof (segment_pin_lookup d i' Hw Hi') as H2.
    rewrite E in H1. pose proof (NoDup_lookup _ _ _ _ Hnd H1 H2). lia.
Qed.

Lemma common_pin_inj (b : Build) (d : SevSeg) j j' :
  wired d → distinct_pins d →
  (j < REFRESH_STEPS b d)%nat → (j' < REFRESH_STEPS b d)%nat →
  common_pin b d j = common_pin b d j' → j = j'.
Proof.
  intros Hw Hnd Hj Hj' E.
  unfold REFRESH_STEPS, common_pin, S7_SEGMENTS in *.
  destruct (RESISTORS b).
  - pose proof (segment_pin_lookup d j Hw Hj) as H1.
    pose proof (segment_pin_lookup d j' Hw Hj') as H2.
    rewrite E in H1. pose proof (NoDup_lookup _ _ _ _ Hnd H1 H2). lia.
  - pose proof (digit_pin_lookup d j Hw Hj) as H1.
    pose proof (digit_pin_lookup d j' Hw Hj') as H2.
    rewrite E in H1. exact (NoDup_lookup _ _ _ _ Hnd H1 H2).
Qed.

(** What [lightsOff] does to the levels. *)
Lemma off_block_levels (b : Build) (d : SevSeg) σ step :
  wired d → distinct_pins d → (step < REFRESH_STEPS b d)%nat →
  let σ' := drive_all σ (common_line_off b d step :: dark_lines b d) in
  (∀ i, (i < member_count b d)%nat →
     σ' (member_pin b d i) = member_level b d false)
  ∧ σ' (common_pin b d step) = common_level b d false
  ∧ (∀ j, (j < REFRESH_STEPS b d)%nat → j ≠ step →
       σ' (common_pin b d j) = σ (common_pin b d j)).
Proof.
  intros Hw Hnd Hstep σ'. unfold σ'. rewrite common_line_off_eq.
  split; [|split].
  - intros i Hi.
    apply drive_all_uniform with (l0 := member_level b d false).
    + right. apply elem_of_dark_lines. by exists i.
    + intros l' Hin. apply elem_of_cons in Hin as [E | Hin].
      * inversion E. exfalso. by eapply member_common_ne.
      * by apply elem_of_dark_lines in Hin as (_ & _ & _ & ->).
  - apply drive_all_uniform with (l0 := common_level b d false).
    + by left.
    + intros l' Hin. apply elem_of_cons in Hin as [E | Hin].
      * by inversion E.
      * apply elem_of_dark_lines in Hin as (i & Hi & E & _).
        exfalso. by eapply member_common_ne.
  - intros j Hj Hne. apply drive_all_untouched.
    intros l' Hin. apply elem_of_cons in Hin as [E | Hin].
    + injection E as E1 E2. by apply common_pin_inj in E1.
    + apply elem_of_dark_lines in Hin as (i & Hi & E & _).
      by eapply member_common_ne.
Qed.

(** What [lightsOn] does to the levels. *)
Lemma on_block_levels (b : Build) (d : SevSeg) σ step :
  wired d → distinct_pins d → (step < REFRESH_STEPS b d)%nat →
  let σ' := drive_all σ (lit_lines b d step ++ [common_line_on b d step]) in
  (∀ i, (i < member_count b d)%nat →
     σ' (member_pin b d i)
       = if lit b d step i then member_level b d true
         else σ (member_pin b d i))
  ∧ σ' (common_pin b d step) = common_level b d true
  ∧ (∀ j, (j < REFRESH_STEPS b d)%nat → j ≠ step →
       σ' (common_pin b d j) = σ (common_pin b d j)).
Proof.
  intros Hw Hnd Hstep σ'. unfold σ'. rewrite common_line_on_eq.
  split; [|split].
  - intros i Hi. destruct (lit b d step i) eqn:El.
    + apply drive_all_uniform with (l0 := member_level b d true).
      * apply elem_of_app. left. apply elem_of_lit_lines. by exists i.
      * intros l' Hin. apply elem_of_app in Hin as [Hin | Hin].
        -- by apply elem_of_lit_lines in Hin as (_ & _ & _ & _ & ->).
        -- apply list_elem_of_singleton in Hin. inversion Hin.
           exfalso. by eapply member_common_ne.
    + apply drive_all_untouched. intros l' Hin.
      apply elem_of_app in Hin as [Hin | Hin].
      * apply elem_of_lit_lines in Hin as (i' & Hi' & El' & E & _).
        apply member_pin_inj in E; [|done..]. congruence.
      * apply list_elem_of_singleton in Hin. inversion Hin.
        by eapply member_common_ne.
  - apply drive_all_uniform with (l0 := common_level b d true).
    + apply elem_of_app. right. by apply list_elem_of_singleton.
    + intros l' Hin. apply elem_of_app in Hin as [Hin | Hin].
      * apply elem_of_lit_lines in Hin as (i & Hi & _ & E & _).
        exfalso. by eapply member_common_ne.
      * apply list_elem_of_singleton in Hin. by inversion Hin.
  - intros j Hj Hne. apply drive_all_untouched.
    intros l' Hin. apply elem_of_app in Hin as [Hin | Hin].
    + apply elem_of_lit_lines in Hin as (i & Hi & _ & E & _).
      by eapply member_common_ne.
    + apply list_elem_of_singleton in Hin. injection Hin as E1 E2.
      by apply common_pin_inj in E1.
Qed.

(** The levels after one [updateDisplay], in terms of a step's shared line
    and member lines. *)
Lemma updateDisplay_step_levels (b : Build) (d : SevSeg) σ :
  wired d → distinct_pins d → (common d < REFRESH_STEPS b d)%nat →
  ∃ d' t,
    updateDisplay b d = Some (d', t)
    ∧ d' = set_common d ((common d + 1) `mod` REFRESH_STEPS b d)%nat
    ∧ (∀ i, (i < member_count b d)%nat →
         drive_all σ t (member_pin b d i)
           = member_level b d (lit b d (common d') i))
    ∧ drive_all σ t (common_pin b d (common d')) = common_level b d true
    ∧ (∀ j, (j < REFRESH_STEPS b d)%nat → j ≠ common d' →
         drive_all σ t (common_pin b d j)
           = if decide (j = common d) then common_level b d false
             else σ (common_pin b d j)).
Proof.
  intros Hw Hnd Hc.
  set (c' := ((common d + 1) `mod` REFRESH_STEPS b d)%nat).
  assert (c' < REFRESH_STEPS b d)%nat as Hc'
    by (apply Nat.mod_upper_bound; lia).
  eexists _, _. split; [by apply updateDisplay_spec|]. split; [done|].
  fold c'. set (d' := set_common d c'). simpl common.
  rewrite drive_all_app.
  set (σ1 := drive_all σ _).
  destruct (off_block_levels b d σ (common d) Hw Hnd Hc)
    as (Hoff1 & Hoff2 & Hoff3). fold σ1 in Hoff1, Hoff2, Hoff3.
  destruct (on_block_levels b d σ1 c' Hw Hnd Hc') as (Hon1 & Hon2 & Hon3).
  split; [|split].
  - intros i Hi. change (lit_lines b d' c') with (lit_lines b d c').
    change (common_line_on b d' c') with (common_line_on b d c').
    rewrite Hon1 by done. change (lit b d' c' i) with (lit b d c' i).
    destruct (lit b d c' i); [done | by apply Hoff1].
  - exact Hon2.
  - intros j Hj Hne.
    change (lit_lines b d' c') with (lit_lines b d c').
    change (common_line_on b d' c') with (common_line_on b d c').
    rewrite Hon3 by done. case_decide as Hjc.
    + by subst j.
    + by apply Hoff3.
Qed.

Lemma land_pow2_testbit a k :
  0 <= k → (Z.land a (2 ^ k) =? 0) = negb (Z.testbit a k).
Proof.
  intros Hk. destruct (Z.testbit a k) eqn:E; simpl.
  - apply Z.eqb_neq. intros H0.
    assert (Z.testbit (Z.land a (2 ^ k)) k = true) as Hb
      by (by rewrite Z.land_spec, E, Z.pow2_bits_true).
    by rewrite H0, Z.bits_0 in Hb.
  - apply Z.eqb_eq. apply Z.bits_inj'. intros n Hn.
    rewrite Z.land_spec, Z.bits_0, Z.pow2_bits_eqb by done.
    destruct (Z.eqb_spec k n) as [-> | ?]; [by rewrite E|].
    by rewrite andb_false_r.
Qed.

Lemma lit_on_digits (b : Build) (d : SevSeg) step i :
  RESISTORS b = ON_DIGITS → (step < 8)%nat → lit b d step i = led d i step.
Proof.
  intros Hb Hstep. unfold lit, led. rewrite Hb.
  rewrite Z.shiftl_1_l.
  assert (0 < 2 ^ Z.of_nat step <= 2 ^ 7) as Hp.
  { split; [apply Z.pow_pos_nonneg; lia | apply Z.pow_le_mono_r; lia]. }
  rewrite to_byte_id by (change (2 ^ 7) with 128 in Hp; lia).
  rewrite land_pow2_testbit by lia. by rewrite negb_involutive.
Qed.

Lemma lit_on_segments (b : Build) (d : SevSeg) step i :
  RESISTORS b = ON_SEGMENTS → lit b d step i = led d step i.
Proof.
  intros Hb. unfold lit, led. rewrite Hb, Z.shiftl_1_l.
  rewrite land_pow2_testbit by lia. by rewrite negb_involutive.
Qed.

(** Resistors on digits, pins all different: after [updateDisplay] each
    digit line is active exactly when the code of its digit has the segment
    of the new step, the segment line of the new step is active, the
    segment line of the old step is inactive, and the other segment lines
    are as they were. *)
Theorem updateDisplay_levels_on_digits (b : Build) (d : SevSeg) (σ : Z → Z) :
  RESISTORS b = ON_DIGITS → wired d → distinct_pins d →
  (common d < 8)%nat →
  ∃ d' t,
    updateDisplay b d = Some (d', t)
    ∧ common d' = ((common d + 1) `mod` 8)%nat
    ∧ (∀ i, (i < numDigits d)%nat →
         drive_all σ t (elt (digitPins d) i)
           = if led d i (common d') then digitOn d else digitOff d)
    ∧ drive_all σ t (elt (segmentPins d) (common d')) = segmentOn d
    ∧ (∀ j, (j < 8)%nat → j ≠ common d' →
         drive_all σ t (elt (segmentPins d) j)
           = if decide (j = common d) then segmentOff d
             else σ (elt (segmentPins d) j)).
Proof.
  intros Hb Hw Hnd Hc.
  assert (REFRESH_STEPS b d = 8%nat) as Hsteps
    by (unfold REFRESH_STEPS; by rewrite Hb).
  destruct (updateDisplay_step_levels b d σ Hw Hnd ltac:(lia))
    as (d' & t & Hu & Hd' & Hm & Hon & Hoth).
  rewrite Hsteps in *.
  assert (common d' < 8)%nat as Hc'
    by (rewrite Hd'; cbn [common set_common]; apply Nat.mod_upper_bound;
        lia).
  exists d', t. split; [done|]. split; [by rewrite Hd'|].
  unfold member_count, member_pin, member_level, common_pin, common_level
    in *. rewrite Hb in *.
  split; [|split; [done|]].
  - intros i Hi. rewrite Hm by done.
    rewrite lit_on_digits by done. by destruct (led d i (common d')).
  - intros j Hj Hne. by apply Hoth.
Qed.

(** Resistors on segments, pins all different: after [updateDisplay] each
    segment line is active exactly when the code of the digit of the new
    step has that segment, the digit line of the new step is active, the
    digit line of the old step is inactive, and the other digit lines are as
    they were. *)
Theorem updateDisplay_levels_on_segments
    (b : Build) (d : SevSeg) (σ : Z → Z) :
  RESISTORS b = ON_SEGMENTS → wired d → distinct_pins d →
  (common d < numDigits d)%nat →
  ∃ d' t,
    updateDisplay b d = Some (d', t)
    ∧ common d' = ((common d + 1) `mod` numDigits d)%nat
    ∧ (∀ j, (j < 8)%nat →
         drive_all σ t (elt (segmentPins d) j)
           = if led d (common d') j then segmentOn d else segmentOff d)
    ∧ drive_all σ t (elt (digitPins d) (common d')) = digitOn d
    ∧ (∀ i, (i < numDigits d)%nat → i ≠ common d' →
         drive_all σ t (elt (digitPins d) i)
           = if decide (i = common d) then digitOff d
             else σ (elt (digitPins d) i)).
Proof.
  intros Hb Hw Hnd Hc.
  assert (REFRESH_STEPS b d = numDigits d) as Hsteps
    by (unfold REFRESH_STEPS; by rewrite Hb).
  destruct (updateDisplay_step_levels b d σ Hw Hnd ltac:(lia))
    as (d' & t & Hu & Hd' & Hm & Hon & Hoth).
  rewrite Hsteps in *.
  exists d', t. split; [done|]. split; [by rewrite Hd'|].
  unfold member_count, member_pin, member_level, common_pin, common_level,
    SEGMENTS in *. rewrite Hb in *.
  split; [|split; [done|]].
  - intros j Hj. rewrite Hm by done.
    rewrite lit_on_segments by done. by destruct (led d (common d') j).
  - intros i Hi Hne. by apply Hoth.
Qed.

Lemma demo_wired (codes : list Z) c :
  length codes = 4%nat → wired (set_common (set_digitCodes demo codes) c).
Proof. intros H. unfold wired. simpl. lia. Qed.

Lemma demo_distinct (codes : list Z) c :
  distinct_pins (set_common (set_digitCodes demo codes) c).
Proof. unfold distinct_pins. simpl. apply NoDup_ListNoDup. repeat constructor; simpl; lia. Qed.

Lemma updateDisplay_levels_on_digits_witness :
  ∃ d' t,
    updateDisplay on_digits (driver demo_world) = Some (d', t)
    ∧ common d' = ((common (driver demo_world) + 1) `mod` 8)%nat
    ∧ (∀ i, (i < numDigits (driver demo_world))%nat →
         drive_all (λ _, 0) t (elt (digitPins (driver demo_world)) i)
           = if led (driver demo_world) i (common d')
             then digitOn (driver demo_world)
             else digitOff (driver demo_world))
    ∧ drive_all (λ _, 0) t (elt (segmentPins (driver demo_world)) (common d'))
      = segmentOn (driver demo_world)
    ∧ (∀ j, (j < 8)%nat → j ≠ common d' →
         drive_all (λ _, 0) t (elt (segmentPins (driver demo_world)) j)
           = if decide (j = common (driver demo_world))
             then segmentOff (driver demo_world)
             else (λ _, 0) (elt (segmentPins (driver demo_world)) j)).
Proof.
  apply (updateDisplay_levels_on_digits on_digits (driver demo_world)
           (λ _, 0));
    [reflexivity
     | apply (demo_wired [0x06; 0x5B; 0x4F; 0xE6] 0); reflexivity
     | apply (demo_distinct [0x06; 0x5B; 0x4F; 0xE6] 0)
     | simpl; lia].
Defined.

Lemma updateDisplay_levels_on_segments_witness :
  ∃ d' t,
    updateDisplay on_segments (driver demo_world) = Some (d', t)
    ∧ common d'
      = ((common (driver demo_world) + 1)
           `mod` numDigits (driver demo_world))%nat
    ∧ (∀ j, (j < 8)%nat →
         drive_all (λ _, 0) t (elt (segmentPins (driver demo_world)) j)
           = if led (driver demo_world) (common d') j
             then segmentOn (driver demo_world)
             else segmentOff (driver demo_world))
    ∧ drive_all (λ _, 0) t (elt (digitPins (driver demo_world)) (common d'))
      = digitOn (driver demo_world)
    ∧ (∀ i, (i < numDigits (driver demo_world))%nat → i ≠ common d' →
         drive_all (λ _, 0) t (elt (digitPins (driver demo_world)) i)
           = if decide (i = common (driver demo_world))
             then digitOff (driver demo_world)
             else (λ _, 0) (elt (digitPins (driver demo_world)) i)).
Proof.
  apply (updateDisplay_levels_on_segments on_segments (driver demo_world)
           (λ _, 0));
    [reflexivity
     | apply (demo_wired [0x06; 0x5B; 0x4F; 0xE6] 0); reflexivity
     | apply (demo_distinct [0x06; 0x5B; 0x4F; 0xE6] 0)
     | simpl; lia].
Defined.

(** ** One step at a time *)

Lemma set_common_id (d : SevSeg) : set_common d (common d) = d.
Proof. by destruct d. Qed.

Lemma ticks_state (b : Build) n : ∀ d,
  wired d → (common d < REFRESH_STEPS b d)%nat →
  ∃ t, ticks b n d
       = Some (set_common d ((common d + n) `mod` REFRESH_STEPS b d)%nat, t).
Proof.
  induction n as [|n IH]; intros d Hw Hc.
  - exists []. simpl.
    by rewrite Nat.add_0_r, Nat.mod_small, set_common_id by done.
  - simpl. rewrite updateDisplay_spec by done. cbn [mbind option_bind fst snd].
    set (d' := set_common d _).
    destruct (IH d') as [t Ht].
    { done. }
    { simpl. change (REFRESH_STEPS b d') with (REFRESH_STEPS b d).
      apply Nat.mod_upper_bound. lia. }
    rewrite Ht. cbn [mbind option_bind fst snd]. eexists. f_equal. f_equal.
    change (REFRESH_STEPS b d') with (REFRESH_STEPS b d).
    unfold d'. cbn [common set_common].
    rewrite Nat.Div0.add_mod_idemp_l.
    by replace (common d + 1 + n)%nat with (common d + S n)%nat by lia.
Qed.

(** With pins all different, [updateDisplay] keeps at most one shared line
    active: if every shared line but the one of the cursor is inactive
    before the call, so it is after it, for the new cursor; and so it is
    after any number of calls in a row. *)
Theorem ticks_one_step_active
    (b : Build) (d : SevSeg) (σ : Z → Z) (n : nat) :
  wired d → distinct_pins d → (common d < REFRESH_STEPS b d)%nat →
  others_off b d σ (common d) →
  ∃ dn t,
    ticks b n d = Some (dn, t)
    ∧ dn = set_common d ((common d + n) `mod` REFRESH_STEPS b d)%nat
    ∧ others_off b dn (drive_all σ t) (common dn)
    ∧ ((0 < n)%nat →
       drive_all σ t (common_pin b dn (common dn)) = common_level b dn true).
Proof.
  revert d σ. induction n as [|n IH]; intros d σ Hw Hnd Hc Hoff.
  - exists d, []. simpl. split; [done|]. split.
    { by rewrite Nat.add_0_r, Nat.mod_small, set_common_id by done. }
    split; [done | lia].
  - simpl.
    destruct (updateDisplay_step_levels b d σ Hw Hnd Hc)
      as (d' & t & Hu & -> & _ & Hon & Hoth).
    rewrite Hu. cbn [mbind option_bind fst snd].
    set (c' := ((common d + 1) `mod` REFRESH_STEPS b d)%nat) in *.
    change (common (set_common d c')) with c' in *.
    assert (c' < REFRESH_STEPS b d)%nat as Hc'
      by (apply Nat.mod_upper_bound; lia).
    assert (others_off b (set_common d c') (drive_all σ t) c') as Hoff'.
    { intros j Hj Hne.
      change (drive_all σ t (common_pin b d j) = common_level b d false).
      rewrite Hoth by done.
      case_decide as Hjc; [done|]. by apply Hoff. }
    destruct (IH (set_common d c') (drive_all σ t))
      as (dn & tn & Hn & Hdn & Hoffn & Honn); [done..|].
    rewrite Hn. cbn [mbind option_bind fst snd].
    exists dn, (t ++ tn). split; [done|].
    rewrite drive_all_app. split; [|split; [done|]].
    + rewrite Hdn.
      change (set_common (set_common d c') ?x) with (set_common d x).
      change (common (set_common d c')) with c'.
      change (REFRESH_STEPS b (set_common d c')) with (REFRESH_STEPS b d).
      unfold c'. rewrite Nat.Div0.add_mod_idemp_l.
      by replace (common d + 1 + n)%nat with (common d + S n)%nat by lia.
    + intros _. destruct n as [|n]; [|apply Honn; lia].
      simpl in Hn. inversion Hn; subst dn tn. exact Hon.
Qed.

Lemma ticks_one_step_active_witness :
  ∃ dn t,
    ticks on_digits 5 (driver demo_world) = Some (dn, t)
    ∧ dn = set_common (driver demo_world)
             ((common (driver demo_world) + 5)
                `mod` REFRESH_STEPS on_digits (driver demo_world))%nat
    ∧ others_off on_digits dn (drive_all (λ _, 0) t) (common dn)
    ∧ ((0 < 5)%nat →
       drive_all (λ _, 0) t (common_pin on_digits dn (common dn))
         = common_level on_digits dn true).
Proof.
  apply (ticks_one_step_active on_digits (driver demo_world) (λ _, 0) 5);
    [apply (demo_wired [0x06; 0x5B; 0x4F; 0xE6] 0); reflexivity
     | apply (demo_distinct [0x06; 0x5B; 0x4F; 0xE6] 0)
     | unfold REFRESH_STEPS, S7_SEGMENTS; simpl; lia
     | intros j _ _; reflexivity].
Defined.

(** ** Levels after [clearDisplay] and [refreshDisplay] *)

(** With digit lines and segment lines on different pins, [clearDisplay]
    leaves each of the [numDigits] digit lines and each of the 8 segment
    lines at its inactive level, whatever the levels were before. *)
Theorem clearDisplay_levels (d : SevSeg) (σ : Z → Z) :
  wired d → distinct_pins d →
  ∃ t,
    clearDisplay d = Some (d, t)
    ∧ (∀ i, (i < numDigits d)%nat →
         drive_all σ t (elt (digitPins d) i) = digitOff d)
    ∧ (∀ j, (j < 8)%nat →
         drive_all σ t (elt (segmentPins d) j) = segmentOff d).
Proof.
  intros Hw Hnd. eexists. split; [by apply clearDisplay_spec|].
  assert (∀ i j, (i < numDigits d)%nat → (j < 8)%nat →
            elt (digitPins d) i ≠ elt (segmentPins d) j) as Hne.
  { intros i j Hi Hj E.
    pose proof (digit_pin_lookup d i Hw Hi) as H1.
    pose proof (segment_pin_lookup d j Hw Hj) as H2.
    rewrite E in H1. pose proof (NoDup_lookup _ _ _ _ Hnd H1 H2). lia. }
  split.
  - intros i Hi. apply drive_all_uniform with (l0 := digitOff d).
    + apply elem_of_app. left. apply list_elem_of_fmap.
      exists i. split; [done|]. apply elem_of_seq. lia.
    + intros l' Hin. apply elem_of_app in Hin as [Hin | Hin];
        apply list_elem_of_fmap in Hin as (k & E & Hk);
        apply elem_of_seq in Hk; injection E as E1 E2; [done|].
      exfalso. eapply (Hne i k); [done | lia | done].
  - intros j Hj. apply drive_all_uniform with (l0 := segmentOff d).
    + apply elem_of_app. right. apply list_elem_of_fmap.
      exists j. split; [done|]. apply elem_of_seq. lia.
    + intros l' Hin. apply elem_of_app in Hin as [Hin | Hin];
        apply list_elem_of_fmap in Hin as (k & E & Hk);
        apply elem_of_seq in Hk; injection E as E1 E2; [|done].
      exfalso. eapply (Hne k j); [lia | done | done].
Qed.

Lemma clearDisplay_levels_witness :
  ∃ t,
    clearDisplay (driver demo_world) = Some (driver demo_world, t)
    ∧ (∀ i, (i < numDigits (driver demo_world))%nat →
         drive_all (λ _, 7) t (elt (digitPins (driver demo_world)) i)
           = digitOff (driver demo_world))
    ∧ (∀ j, (j < 8)%nat →
         drive_all (λ _, 7) t (elt (segmentPins (driver demo_world)) j)
           = segmentOff (driver demo_world)).
Proof.
  apply (clearDisplay_levels (driver demo_world) (λ _, 7));
    [apply (demo_wired [0x06; 0x5B; 0x4F; 0xE6] 0); reflexivity
     | apply (demo_distinct [0x06; 0x5B; 0x4F; 0xE6] 0)].
Defined.

Lemma refreshDisplay_spec (b : Build) (d : SevSeg) :
  wired d →
  refreshDisplay b d
    = Some (d, concat (step_trace b d <$> seq 0 (REFRESH_STEPS b d))).
Proof.
  intros Hw. unfold refreshDisplay.
  rewrite mapM_seq_Some with (g := step_trace b d); [done|].
  intros step Hstep. unfold refresh_step, step_trace.
  rewrite lightsOn_spec, lightsOff_spec by (done || lia). done.
Qed.

Lemma total_delay_app (t1 t2 : list Event) :
  total_delay (t1 ++ t2) = total_delay t1 + total_delay t2.
Proof.
  unfold total_delay. induction t1 as [|e t1 IH]; simpl; [done|].
  rewrite IH. lia.
Qed.

Lemma total_delay_writes (t : list Event) :
  (∀ e, e ∈ t → ∃ p l, e = digitalWrite p l) → total_delay t = 0.
Proof.
  induction t as [|e t IH]; intros H; [done|].
  change (total_delay (e :: t)) with (delay_of e + total_delay t).
  rewrite IH by (intros e' He'; apply H; by right).
  destruct (H e ltac:(by left)) as (p & l & ->). done.
Qed.

Lemma total_delay_step (b : Build) (d : SevSeg) step :
  total_delay (step_trace b d step) = ledOnTime d.
Proof.
  unfold step_trace. rewrite total_delay_app.
  change (total_delay (delayMicroseconds (ledOnTime d)
                       :: common_line_off b d step :: dark_lines b d))
    with (ledOnTime d
          + total_delay (common_line_off b d step :: dark_lines b d)).
  rewrite !total_delay_writes; [lia| |].
  - intros e He. apply elem_of_cons in He as [-> | He].
    + rewrite common_line_off_eq. by eexists _, _.
    + rewrite dark_lines_eq in He.
      apply list_elem_of_fmap in He as (i & -> & _). by eexists _, _.
  - intros e He. apply elem_of_app in He as [He | He].
    + rewrite lit_lines_eq in He.
      apply elem_of_concat in He as (ws & He & Hws).
      apply list_elem_of_fmap in Hws as (i & -> & _).
      destruct (lit b d step i).
      * apply list_elem_of_singleton in He as ->. by eexists _, _.
      * by apply elem_of_nil in He.
    + apply list_elem_of_singleton in He as ->.
      rewrite common_line_on_eq. by eexists _, _.
Qed.

Lemma total_delay_steps (b : Build) (d : SevSeg) (l : list nat) :
  total_delay (concat (step_trace b d <$> l))
    = Z.of_nat (length l) * ledOnTime d.
Proof.
  induction l as [|step l IH]; [done|].
  rewrite fmap_cons. simpl concat.
  rewrite total_delay_app, total_delay_step, IH. simpl length. lia.
Qed.

(** [refreshDisplay] goes through the steps 0, 1, ... of the strategy once,
    each switched on, held for [ledOnTime] microseconds and switched off; it
    keeps the caller for [REFRESH_STEPS * ledOnTime] microseconds of delay
    and changes no member, the cursor of [updateDisplay] included. *)
Theorem refreshDisplay_cycle (b : Build) (d : SevSeg) :
  wired d →
  ∃ t,
    refreshDisplay b d = Some (d, t)
    ∧ t = concat (step_trace b d <$> seq 0 (REFRESH_STEPS b d))
    ∧ total_delay t = Z.of_nat (REFRESH_STEPS b d) * ledOnTime d.
Proof.
  intros Hw. eexists. split; [by apply refreshDisplay_spec|].
  split; [done|]. by rewrite total_delay_steps, length_seq.
Qed.

Lemma refreshDisplay_cycle_witness :
  ∃ t,
    refreshDisplay on_segments (driver demo_world)
      = Some (driver demo_world, t)
    ∧ t = concat (step_trace on_segments (driver demo_world)
                    <$> seq 0 (REFRESH_STEPS on_segments (driver demo_world)))
    ∧ total_delay t
      = Z.of_nat (REFRESH_STEPS on_segments (driver demo_world))
        * ledOnTime (driver demo_world).
Proof.
  apply (refreshDisplay_cycle on_segments (driver demo_world)).
  apply (demo_wired [0x06; 0x5B; 0x4F; 0xE6] 0). reflexivity.
Defined.

Lemma step_trace_levels (b : Build) (d : SevSeg) σ step :
  wired d → distinct_pins d → (step < REFRESH_STEPS b d)%nat →
  let σ' := drive_all σ (step_trace b d step) in
  (∀ i, (i < member_count b d)%nat →
     σ' (member_pin b d i) = member_level b d false)
  ∧ σ' (common_pin b d step) = common_level b d false
  ∧ (∀ j, (j < REFRESH_STEPS b d)%nat → j ≠ step →
       σ' (common_pin b d j) = σ (common_pin b d j)).
Proof.
  intros Hw Hnd Hstep σ'. unfold σ', step_trace.
  rewrite drive_all_app.
  set (σ1 := drive_all σ _).
  change (drive_all σ1 (delayMicroseconds (ledOnTime d)
                        :: common_line_off b d step :: dark_lines b d))
    with (drive_all σ1 (common_line_off b d step :: dark_lines b d)).
  destruct (on_block_levels b d σ step Hw Hnd Hstep) as (_ & _ & Hon3).
  fold σ1 in Hon3.
  destruct (off_block_levels b d σ1 step Hw Hnd Hstep)
    as (Hoff1 & Hoff2 & Hoff3).
  split; [done|]. split; [done|].
  intros j Hj Hne. rewrite Hoff3 by done. by apply Hon3.
Qed.

Lemma refresh_prefix_levels (b : Build) (d : SevSeg) σ k :
  wired d → distinct_pins d → (k <= REFRESH_STEPS b d)%nat →
  let σ' := drive_all σ (concat (step_trace b d <$> seq 0 k)) in
  ((0 < k)%nat → ∀ i, (i < member_count b d)%nat →
     σ' (member_pin b d i) = member_level b d false)
  ∧ (∀ j, (j < k)%nat → σ' (common_pin b d j) = common_level b d false)
  ∧ (∀ j, (k <= j < REFRESH_STEPS b d)%nat →
       σ' (common_pin b d j) = σ (common_pin b d j)).
Proof.
  intros Hw Hnd. induction k as [|k IH]; intros Hk σ'.
  - split; [lia|]. split; [lia | done].
  - destruct (IH ltac:(lia)) as (_ & IH2 & IH3).
    unfold σ'. rewrite seq_S, fmap_app, concat_app. simpl.
    rewrite app_nil_r, drive_all_app.
    set (σk := drive_all σ _) in *.
    destruct (step_trace_levels b d σk k Hw Hnd ltac:(lia))
      as (H1 & H2 & H3).
    split; [by intros _|]. split.
    + intros j Hj. destruct (decide (j = k)) as [-> | Hne]; [done|].
      rewrite H3 by lia. apply IH2. lia.
    + intros j Hj. rewrite H3 by lia. apply IH3. lia.
Qed.

(** With pins all different, [refreshDisplay] ends with each of the
    [numDigits] digit lines and each of the 8 segment lines at its inactive
    level, whatever the levels were before, provided the strategy has at
    least one step (always with resistors on digits; with resistors on
    segments, when [numDigits] is not 0). *)
Theorem refreshDisplay_levels (b : Build) (d : SevSeg) (σ : Z → Z) :
  wired d → distinct_pins d → (1 <= REFRESH_STEPS b d)%nat →
  ∃ t,
    refreshDisplay b d = Some (d, t)
    ∧ (∀ i, (i < numDigits d)%nat →
         drive_all σ t (elt (digitPins d) i) = digitOff d)
    ∧ (∀ j, (j < 8)%nat →
         drive_all σ t (elt (segmentPins d) j) = segmentOff d).
Proof.
  intros Hw Hnd Hsteps. eexists. split; [by apply refreshDisplay_spec|].
  destruct (refresh_prefix_levels b d σ (REFRESH_STEPS b d) Hw Hnd
              ltac:(lia)) as (Hm & Hc & _).
  specialize (Hm ltac:(lia)).
  unfold member_count, member_pin, member_level, common_pin, common_level,
    REFRESH_STEPS, SEGMENTS, S7_SEGMENTS in *.
  destruct (RESISTORS b); split; auto.
Qed.

Lemma refreshDisplay_levels_witness :
  ∃ t,
    refreshDisplay on_digits (driver demo_world)
      = Some (driver demo_world, t)
    ∧ (∀ i, (i < numDigits (driver demo_world))%nat →
         drive_all (λ _, 7) t (elt (digitPins (driver demo_world)) i)
           = digitOff (driver demo_world))
    ∧ (∀ j, (j < 8)%nat →
         drive_all (λ _, 7) t (elt (segmentPins (driver demo_world)) j)
           = segmentOff (driver demo_world)).
Proof.
  apply (refreshDisplay_levels on_digits (driver demo_world) (λ _, 7));
    [apply (demo_wired [0x06; 0x5B; 0x4F; 0xE6] 0); reflexivity
     | apply (demo_distinct [0x06; 0x5B; 0x4F; 0xE6] 0)
     | unfold REFRESH_STEPS, S7_SEGMENTS; simpl; lia].
Defined.

(** * [begin] *)

Lemma setup_pins_spec n (pins : list Z) level :
  (n <= length pins)%nat →
  setup_pins n pins level
    = Some (concat ((λ i, [pinMode (elt pins i) OUTPUT;
                           digitalWrite (elt pins i) level]) <$> seq 0 n)).
Proof.
  intros H. unfold setup_pins.
  rewrite mapM_seq_Some with
    (g := λ i, [pinMode (elt pins i) OUTPUT; digitalWrite (elt pins i) level]);
    [done|].
  intros i Hi. by rewrite lookup_elt by lia.
Qed.

Lemma base10_zero m : base10 m 0 = replicate m 0.
Proof.
  induction m as [|m IH]; [done|]. simpl.
  by rewrite Z.div_0_l, Z.mod_0_l, IH by (apply Z.pow_nonzero; lia).
Qed.

Lemma blank_list_zeros k : ∀ m,
  blank_list k (replicate (k + m) 0) = replicate k BLANK ++ replicate m 0.
Proof.
  induction k as [|k IH]; intros m; simpl.
  - by destruct m.
  - by rewrite IH.
Qed.

Lemma glyphs_shown_zero (n : nat) :
  (1 <= n <= 9)%nat →
  glyphs_shown n 0 0 = replicate (n - 1) BLANK ++ [0].
Proof.
  intros Hn.
  pose proof (minValue_bounds n Hn) as Hmin.
  pose proof (pow10_pos (Z.of_nat n) ltac:(lia)) as Hp.
  rewrite glyphs_shown_in_range by (unfold maxValue; lia).
  unfold signed_numeral. change (0 <? 0) with false. cbv iota.
  rewrite base10_zero.
  replace (Z.to_nat (boundary n 0)) with (n - 1)%nat
    by (unfold boundary; lia).
  pose proof (blank_list_zeros (n - 1) 1) as E.
  by replace (n - 1 + 1)%nat with n in E by lia.
Qed.

Lemma codes_of_zero (n : nat) :
  (1 <= n)%nat →
  imap (code_at n 0) (replicate (n - 1) BLANK ++ [0])
    = replicate (n - 1) 0 ++ [0xBF].
Proof.
  intros Hn. rewrite imap_app, length_replicate. f_equal.
  - rewrite (imap_ext _ (const (λ _, 0))).
    + by rewrite imap_const, fmap_replicate.
    + intros i x Hx. apply lookup_replicate in Hx as [-> Hi].
      unfold code_at, boundary. simpl.
      by replace (Z.of_nat i =? _) with false
        by (symmetry; apply Z.eqb_neq; lia).
  - simpl. f_equal. unfold code_at, boundary.
    by replace (Z.of_nat (n - 1 + 0) =? _) with true
      by (symmetry; apply Z.eqb_eq; lia).
Qed.

Lemma begin_spec (b : Build) (s : Statics) (d : SevSeg) (hw : Z)
    (nIn : nat) (dpins spins : list Z) :
  let n := kept_digits b nIn in
  let d' := begun b d hw nIn dpins spins in
  (1 <= n <= 9)%nat → statics_for n s → begin_fits b d nIn dpins spins →
  begin b s d hw nIn dpins spins
    = Some (Some (maxValue n, minValue n),
            set_digitCodes d'
              ((replicate (n - 1) 0 ++ [0xBF]) ++ drop n (digitCodes d)),
            begin_trace d').
Proof.
  intros n d' Hn Hs (Hdi & Hsi & Hdp & Hsp & Hdc & Hbyte).
  unfold begin. fold (kept_digits b nIn). fold n.
  rewrite !copy_bytes_spec, !decide_True by done.
  cbn [mbind option_bind].
  rewrite !setup_pins_spec
    by (rewrite length_app, length_take, length_drop; lia).
  cbn [mbind option_bind].
  rewrite setNewNum_shown by done. cbn [mbind option_bind fst snd].
  cbn [numDigits digitCodes].
  by rewrite glyphs_shown_zero, codes_of_zero by lia.
Qed.


Lemma begun_wired (b : Build) (d : SevSeg) hw nIn (dpins spins codes : list Z) :
  begin_fits b d nIn dpins spins →
  length codes = length (digitCodes d) →
  wired (set_digitCodes (begun b d hw nIn dpins spins) codes).
Proof.
  intros (Hdi & Hsi & Hdp & Hsp & Hdc & Hbyte) Hlen.
  unfold wired. simpl.
  rewrite !length_app, !length_take, !length_drop.
  assert (kept_digits b nIn <= nIn)%nat
    by (unfold kept_digits; case_match; [apply Nat.ltb_lt in H|]; lia).
  lia.
Qed.



(** [begin] ends by showing 0: the digit positions but the last are blank,
    the last holds the pattern of 0 with the decimal point (0xBF), the codes
    read back as the number 0, and the entries of [digitCodes] from
    [numDigits] on are as before. *)
Theorem begin_shows_zero
    (b : Build) (s : Statics) (d : SevSeg) (hw : Z) (nIn : nat)
    (dpins spins : list Z) :
  (1 <= kept_digits b nIn <= 9)%nat →
  statics_for (kept_digits b nIn) s → begin_fits b d nIn dpins spins →
  ∃ s' d' t,
    begin b s d hw nIn dpins spins = Some (s', d', t)
    ∧ take (numDigits d') (digitCodes d')
      = replicate (numDigits d' - 1) 0 ++ [0xBF]
    ∧ decode (take (numDigits d') (digitCodes d')) = Some 0
    ∧ drop (numDigits d') (digitCodes d')
      = drop (numDigits d') (digitCodes d).
Proof.
  intros Hn Hs Hfit. pose proof Hfit as (Hdi & Hsi & Hdp & Hsp & Hdc & Hb).
  eexists _, _, _. split; [by apply begin_spec|]. simpl.
  set (n := kept_digits b nIn) in *.
  assert (length (replicate (n - 1) 0 ++ [191]) = n) as Hl
    by (rewrite length_app, length_replicate; simpl; lia).
  rewrite take_app_length' by done. rewrite drop_app_length' by done.
  split; [done|]. split; [|done].
  rewrite <- codes_of_zero, <- glyphs_shown_zero by lia.
  rewrite decode_codes by (apply glyphs_shown_glyphs; lia).
  pose proof (minValue_bounds n Hn) as Hmin.
  pose proof (pow10_pos (Z.of_nat n) ltac:(lia)) as Hp.
  rewrite glyphs_shown_in_range by (unfold maxValue; lia).
  apply glyphs_value_numeral; [lia | unfold boundary; lia |].
  unfold maxValue. lia.
Qed.

Lemma begin_shows_zero_witness :
  ∃ s' d' t,
    begin on_segments None object8 0 4 [2; 3; 4; 5]
      [6; 7; 8; 9; 10; 11; 12; 13] = Some (s', d', t)
    ∧ take (numDigits d') (digitCodes d')
      = replicate (numDigits d' - 1) 0 ++ [0xBF]
    ∧ decode (take (numDigits d') (digitCodes d')) = Some 0
    ∧ drop (numDigits d') (digitCodes d')
      = drop (numDigits d') (digitCodes object8).
Proof.
  apply (begin_shows_zero on_segments None object8 0 4 [2; 3; 4; 5]
           [6; 7; 8; 9; 10; 11; 12; 13]);
    [unfold kept_digits; simpl; lia | by left
     | unfold begin_fits, kept_digits; simpl; lia].
Defined.

Lemma elem_of_setup n (pins : list Z) level q l :
  digitalWrite q l
    ∈ concat ((λ i, [pinMode (elt pins i) OUTPUT;
                     digitalWrite (elt pins i) level]) <$> seq 0 n)
  ↔ ∃ i, (i < n)%nat ∧ q = elt pins i ∧ l = level.
Proof.
  rewrite elem_of_concat. split.
  - intros (ws & Hin & Hws).
    apply list_elem_of_fmap in Hws as (i & -> & Hi).
    apply elem_of_seq in Hi.
    apply elem_of_cons in Hin as [Hin | Hin]; [done|].
    apply list_elem_of_singleton in Hin. injection Hin as -> ->.
    exists i. split; [lia | done].
  - intros (i & Hi & -> & ->). eexists. split.
    2:{ apply list_elem_of_fmap. exists i. split; [done|].
        apply elem_of_seq. lia. }
    right. by left.
Qed.

(** [begin] makes each line in use an output and, the lines being on
    different pins, leaves each of them at its inactive level, whatever the
    levels were before: nothing is lit until the first refresh. *)
Theorem begin_levels
    (b : Build) (s : Statics) (d : SevSeg) (hw : Z) (nIn : nat)
    (dpins spins : list Z) (σ : Z → Z) :
  (1 <= kept_digits b nIn <= 9)%nat →
  statics_for (kept_digits b nIn) s → begin_fits b d nIn dpins spins →
  NoDup (take (kept_digits b nIn) dpins ++ take 8 spins) →
  ∃ s' d' t,
    begin b s d hw nIn dpins spins = Some (s', d', t)
    ∧ (∀ i, (i < numDigits d')%nat →
         pinMode (elt (digitPins d') i) OUTPUT ∈ t
         ∧ drive_all σ t (elt (digitPins d') i) = digitOff d')
    ∧ (∀ j, (j < 8)%nat →
         pinMode (elt (segmentPins d') j) OUTPUT ∈ t
         ∧ drive_all σ t (elt (segmentPins d') j) = segmentOff d').
Proof.
  intros Hn Hs Hfit Hnd.
  pose proof Hfit as (Hdi & Hsi & Hdp & Hsp & Hdc & Hb).
  eexists _, _, _. split; [by apply begin_spec|].
  set (d1 := begun b d hw nIn dpins spins).
  set (codes := (_ ++ _) ++ _).
  assert (wired (set_digitCodes d1 codes)) as Hw.
  { apply begun_wired; [done|]. unfold codes.
    rewrite !length_app, length_replicate, length_drop. simpl. lia. }
  assert (distinct_pins (set_digitCodes d1 codes)) as Hnd'.
  { unfold distinct_pins. simpl.
    rewrite !take_app_le, !take_take by (rewrite length_take; lia).
    by rewrite !Nat.min_id. }
  assert (∀ i j, (i < kept_digits b nIn)%nat → (j < 8)%nat →
            elt (digitPins d1) i ≠ elt (segmentPins d1) j) as Hne.
  { intros i j Hi Hj E.
    pose proof (digit_pin_lookup _ i Hw Hi) as H1.
    pose proof (segment_pin_lookup _ j Hw Hj) as H2.
    change (elt (digitPins (set_digitCodes d1 codes)) i)
      with (elt (digitPins d1) i) in H1.
    change (elt (segmentPins (set_digitCodes d1 codes)) j)
      with (elt (segmentPins d1) j) in H2.
    rewrite E in H1.
    pose proof (NoDup_lookup _ _ _ _ Hnd' H1 H2) as Hij.
    change (numDigits (set_digitCodes d1 codes)) with (kept_digits b nIn)
      in Hij. lia. }
  change (digitPins (set_digitCodes d1 codes)) with (digitPins d1).
  change (segmentPins (set_digitCodes d1 codes)) with (segmentPins d1).
  change (digitOff (set_digitCodes d1 codes)) with (digitOff d1).
  change (segmentOff (set_digitCodes d1 codes)) with (segmentOff d1).
  change (numDigits (set_digitCodes d1 codes)) with (kept_digits b nIn).
  unfold begin_trace. change (numDigits d1) with (kept_digits b nIn).
  split.
  - intros i Hi. split.
    + apply elem_of_app. left. apply elem_of_concat. eexists. split.
      2:{ apply list_elem_of_fmap. exists i. split; [done|].
          apply elem_of_seq. lia. }
      by left.
    + apply drive_all_uniform with (l0 := digitOff d1).
      * apply elem_of_app. left. apply elem_of_setup. by exists i.
      * intros l' Hin. apply elem_of_app in Hin as [Hin | Hin];
          apply elem_of_setup in Hin as (k & Hk & E & ->); [done|].
        exfalso. by eapply (Hne i k).
  - intros j Hj. split.
    + apply elem_of_app. right. apply elem_of_concat. eexists. split.
      2:{ apply list_elem_of_fmap. exists j. split; [done|].
          apply elem_of_seq. lia. }
      by left.
    + apply drive_all_uniform with (l0 := segmentOff d1).
      * apply elem_of_app. right. apply elem_of_setup. by exists j.
      * intros l' Hin. apply elem_of_app in Hin as [Hin | Hin];
          apply elem_of_setup in Hin as (k & Hk & E & ->); [|done].
        exfalso. by eapply (Hne k j).
Qed.

Lemma begin_levels_witness :
  ∃ s' d' t,
    begin on_segments None object8 0 4 [2; 3; 4; 5]
      [6; 7; 8; 9; 10; 11; 12; 13] = Some (s', d', t)
    ∧ (∀ i, (i < numDigits d')%nat →
         pinMode (elt (digitPins d') i) OUTPUT ∈ t
         ∧ drive_all (λ _, 0) t (elt (digitPins d') i) = digitOff d')
    ∧ (∀ j, (j < 8)%nat →
         pinMode (elt (segmentPins d') j) OUTPUT ∈ t
         ∧ drive_all (λ _, 0) t (elt (segmentPins d') j) = segmentOff d').
Proof.
  apply (begin_levels on_segments None object8 0 4 [2; 3; 4; 5]
           [6; 7; 8; 9; 10; 11; 12; 13] (λ _, 0));
    [unfold kept_digits; simpl; lia | by left
     | unfold begin_fits, kept_digits; simpl; lia
     | unfold kept_digits; simpl; apply NoDup_ListNoDup;
       repeat constructor; simpl; lia].
Defined.

(** * The arrays stay large enough *)

Lemma setNewNum_wired s (d : SevSeg) v dp r :
  setNewNum s d v dp = Some r →
  ∃ codes, r.2 = set_digitCodes d codes
           ∧ length codes = length (digitCodes d)
           ∧ ((0 < numDigits d)%nat →
              (numDigits d <= length (digitCodes d))%nat).
Proof.
  unfold setNewNum. intros H.
  apply bind_Some in H as (r0 & _ & H).
  apply bind_Some in H as (codes & Hc & H).
  unfold setDigitCodes in Hc.
  apply setDigitCodes_loop_inv in Hc as (Hn & _ & Hlen).
  exists codes. inversion H. simpl. split; [done|]. split; [done|].
  intros Hpos. destruct (Hn Hpos) as [? _]. lia.
Qed.

Lemma begin_wired (b : Build) s (d : SevSeg) hw n (dpins spins : list Z) r :
  (n < 256)%nat →
  begin b s d hw n dpins spins = Some r → wired r.1.2.
Proof.
  intros Hbyte H. unfold begin in H.
  fold (kept_digits b n) in H. set (k := kept_digits b n) in *.
  assert (k <= n)%nat as Hk.
  { unfold k, kept_digits. destruct (Nat.ltb_spec (S7_DIGITS b) n); lia. }
  apply bind_Some in H as (segs & Hsegs & H).
  apply bind_Some in H as (digs & Hdigs & H).
  apply bind_Some in H as (t1 & _ & H).
  apply bind_Some in H as (t2 & _ & H).
  apply bind_Some in H as (r0 & Hr0 & H).
  rewrite copy_bytes_spec in Hsegs, Hdigs.
  destruct (decide _) as [[Hs1 Hs2] | ?] in Hsegs; [|done].
  destruct (decide _) as [[Hd1 Hd2] | ?] in Hdigs; [|done].
  inversion Hsegs; subst segs. inversion Hdigs; subst digs.
  apply setNewNum_wired in Hr0 as (codes & E & Hlen & Hc).
  inversion H. simpl. rewrite E. unfold wired. simpl in *.
  rewrite !length_app, !length_take, !length_drop.
  destruct (decide (0 < k)%nat) as [Hpos | Hzero]; [specialize (Hc Hpos)|];
    lia.
Qed.

Lemma call_wired (b : Build) (w w' : World) c :
  byte_args c → wired (driver w) → call b w c = Some w' →
  wired (driver w').
Proof.
  intros Hargs Hw H. destruct c; simpl in H.
  - apply bind_Some in H as (r & Hr & H). inversion H. simpl.
    by eapply begin_wired.
  - apply bind_Some in H as (r & Hr & H). inversion H. simpl.
    apply setNewNum_wired in Hr as (codes & -> & Hlen & _).
    destruct Hw as (? & ? & ? & ?). unfold wired. simpl. lia.
  - apply bind_Some in H as (d' & Hd & H). inversion H. simpl.
    unfold setSegments in Hd. rewrite copy_bytes_spec in Hd.
    destruct (decide _) as [[Hl1 Hl2] | ?] in Hd; [|done].
    inversion Hd. destruct Hw as (? & ? & ? & ?). unfold wired. simpl.
    rewrite length_app, length_take, length_drop. lia.
  - apply bind_Some in H as (r & Hr & H). inversion H. simpl.
    unfold refreshDisplay in Hr.
    apply bind_Some in Hr as (ts & _ & Hr). by inversion Hr.
  - apply bind_Some in H as (r & Hr & H). inversion H. simpl.
    unfold updateDisplay in Hr.
    apply bind_Some in Hr as (off & _ & Hr).
    apply bind_Some in Hr as (on & _ & Hr). by inversion Hr.
  - apply bind_Some in H as (r & Hr & H). inversion H. simpl.
    unfold clearDisplay in Hr.
    apply bind_Some in Hr as (t1 & _ & Hr).
    apply bind_Some in Hr as (t2 & _ & Hr). by inversion Hr.
Qed.

Lemma run_wired (b : Build) cs : ∀ (w w' : World),
  Forall byte_args cs → wired (driver w) → run b w cs = Some w' →
  wired (driver w').
Proof.
  induction cs as [|c cs IH]; intros w w' Hargs Hw H.
  - unfold run in H. simpl in H. by inversion H; subst.
  - rewrite run_cons in H. apply bind_Some in H as (w1 & H1 & H).
    apply Forall_cons_1 in Hargs as [Hc Hargs].
    eapply IH; [done | | exact H]. by eapply call_wired.
Qed.

(** Once [begin] has returned, the arrays of the object cover every line in
    use, whatever the object held before, and they still do after any
    further calls ([begin] again, [setNumber], [setSegments], refreshes)
    that themselves stay inside the arrays: [clearDisplay] and
    [refreshDisplay] can then always run without leaving them. *)
Theorem run_keeps_arrays_covering
    (b : Build) (w w' : World) (hw : Z) (n : nat) (dpins spins : list Z)
    (cs : list Call) :
  (n < 256)%nat → Forall byte_args cs →
  run b w (CBegin hw n dpins spins :: cs) = Some w' →
  wired (driver w')
  ∧ is_Some (clearDisplay (driver w'))
  ∧ is_Some (refreshDisplay b (driver w')).
Proof.
  intros Hn Hargs H. rewrite run_cons in H.
  apply bind_Some in H as (w1 & H1 & H).
  assert (wired (driver w1)) as Hw1.
  { simpl in H1. apply bind_Some in H1 as (r & Hr & H1).
    inversion H1. simpl. by eapply begin_wired. }
  pose proof (run_wired b cs w1 w' Hargs Hw1 H) as Hw'.
  split; [done|]. split.
  - rewrite clearDisplay_spec by done. by eexists.
  - rewrite refreshDisplay_spec by done. by eexists.
Qed.

Lemma run_keeps_arrays_covering_witness :
  wired (driver world_4_2)
  ∧ is_Some (clearDisplay (driver world_4_2))
  ∧ is_Some (refreshDisplay on_digits (driver world_4_2)).
Proof.
  apply (run_keeps_arrays_covering on_digits fresh_world world_4_2 0 4
           [2; 3; 4; 5] [6; 7; 8; 9; 10; 11; 12; 13]
           [CSetNumber 1234 0; begin_2]);
    [lia | repeat constructor; simpl; lia | vm_compute; reflexivity].
Defined.

(** * A cycle of ticks *)

(** From a cursor inside [0, REFRESH_STEPS), [REFRESH_STEPS] calls of
    [updateDisplay] bring the driver back to where it was, and on the way
    each step [s] is the one switched on after some [k] of them, with
    [1 <= k <= REFRESH_STEPS]: no digit or segment is left out of a
    cycle. *)
Theorem ticks_visit_every_step (b : Build) (d : SevSeg) :
  wired d → (common d < REFRESH_STEPS b d)%nat →
  (∃ t, ticks b (REFRESH_STEPS b d) d = Some (d, t))
  ∧ ∀ s, (s < REFRESH_STEPS b d)%nat →
      ∃ k t, (1 <= k <= REFRESH_STEPS b d)%nat
             ∧ ticks b k d = Some (set_common d s, t).
Proof.
  intros Hw Hc. set (N := REFRESH_STEPS b d) in *. split.
  - destruct (ticks_state b N d Hw Hc) as [t Ht]. exists t.
    rewrite Ht. fold N. do 2 f_equal.
    rewrite <- (Nat.mul_1_l N) at 1.
    rewrite Nat.Div0.mod_add, Nat.mod_small by done.
    apply set_common_id.
  - intros s Hs.
    set (m := ((s + (N - common d - 1)) `mod` N)%nat).
    assert (m < N)%nat as Hm by (apply Nat.mod_upper_bound; lia).
    destruct (ticks_state b (S m) d Hw Hc) as [t Ht].
    exists (S m), t. split; [lia|]. rewrite Ht. fold N. do 2 f_equal.
    replace (common d + S m)%nat with ((common d + 1) + m)%nat by lia.
    unfold m. rewrite Nat.Div0.add_mod_idemp_r.
    replace (common d + 1 + (s + (N - common d - 1)))%nat
      with (s + 1 * N)%nat by lia.
    by rewrite Nat.Div0.mod_add, Nat.mod_small by done.
Qed.

Lemma ticks_visit_every_step_witness :
  (∃ t, ticks on_segments (REFRESH_STEPS on_segments (driver demo_world))
          (driver demo_world) = Some (driver demo_world, t))
  ∧ ∀ s, (s < REFRESH_STEPS on_segments (driver demo_world))%nat →
      ∃ k t, (1 <= k <= REFRESH_STEPS on_segments (driver demo_world))%nat
             ∧ ticks on_segments k (driver demo_world)
               = Some (set_common (driver demo_world) s, t).
Proof.
  apply (ticks_visit_every_step on_segments (driver demo_world));
    [apply (demo_wired [0x06; 0x5B; 0x4F; 0xE6] 0); reflexivity
     | unfold REFRESH_STEPS; simpl; lia].
Defined.

(** * Brightness *)

Lemma setBrightness_formula (d : SevSeg) p :
  ledOnTime (setBrightness d p)
    = 1 + (Z.max 0 (Z.min 100 p) * 1999) `div` 100.
Proof.
  unfold setBrightness, Arduino.constrain, Arduino.map. simpl.
  set (c := if p <? 0 then 0 else if 100 <? p then 100 else p).
  assert (c = Z.max 0 (Z.min 100 p)) as ->.
  { unfold c. destruct (Z.ltb_spec p 0), (Z.ltb_spec 100 p); lia. }
  set (x := Z.max 0 (Z.min 100 p)).
  assert (0 <= x <= 100) as Hx by (unfold x; lia).
  change (wrap32 (2000 - 1)) with 1999. change (wrap32 (100 - 0)) with 100.
  rewrite Z.sub_0_r.
  rewrite (wrap32_id x) by (unfold is_long; lia).
  rewrite (wrap32_id (x * 1999)) by (unfold is_long; lia).
  rewrite Z.quot_div_nonneg by lia.
  assert (0 <= (x * 1999) `div` 100 <= 1999) as Hq.
  { split; [apply Z.div_pos; lia|].
    apply Z.div_le_upper_bound; lia. }
  rewrite wrap32_id by (unfold is_long; lia). lia.
Qed.

(** [setBrightness] stores an on-time between 1 and 2000 microseconds: 1
    for a brightness of 0 or less, 2000 for 100 or more,
    [1 + brightness * 1999 / 100] in between, never less for a higher
    brightness; no other member changes. *)
Theorem setBrightness_on_time (d : SevSeg) (p : Z) :
  1 <= ledOnTime (setBrightness d p) <= 2000
  ∧ (p <= 0 → ledOnTime (setBrightness d p) = 1)
  ∧ (100 <= p → ledOnTime (setBrightness d p) = 2000)
  ∧ (0 <= p <= 100 →
     ledOnTime (setBrightness d p) = 1 + (p * 1999) `div` 100)
  ∧ (∀ q, p <= q →
       ledOnTime (setBrightness d p) <= ledOnTime (setBrightness d q))
  ∧ setBrightness d p = set_ledOnTime d (ledOnTime (setBrightness d p)).
Proof.
  rewrite setBrightness_formula.
  set (x := Z.max 0 (Z.min 100 p)).
  assert (0 <= x <= 100) as Hx by (unfold x; lia).
  assert (0 <= (x * 1999) `div` 100 <= 1999) as Hq.
  { split; [apply Z.div_pos; lia|].
    apply Z.div_le_upper_bound; lia. }
  split; [lia|]. split; [|split; [|split; [|split]]].
  - intros Hp. by replace x with 0 by (unfold x; lia).
  - intros Hp. by replace x with 100 by (unfold x; lia).
  - intros Hp. by replace x with p by (unfold x; lia).
  - intros q Hpq. rewrite setBrightness_formula.
    assert ((x * 1999) `div` 100
            <= (Z.max 0 (Z.min 100 q) * 1999) `div` 100); [|lia].
    apply Z.div_le_mono; unfold x; lia.
  - unfold x. by rewrite <- (setBrightness_formula d).
Qed.

Lemma setBrightness_on_time_witness :
  1 <= ledOnTime (setBrightness demo 50) <= 2000
  ∧ (50 <= 0 → ledOnTime (setBrightness demo 50) = 1)
  ∧ (100 <= 50 → ledOnTime (setBrightness demo 50) = 2000)
  ∧ (0 <= 50 <= 100 →
     ledOnTime (setBrightness demo 50) = 1 + (50 * 1999) `div` 100)
  ∧ (∀ q, 50 <= q →
       ledOnTime (setBrightness demo 50) <= ledOnTime (setBrightness demo q))
  ∧ setBrightness demo 50
    = set_ledOnTime demo (ledOnTime (setBrightness demo 50)).
Proof. apply (setBrightness_on_time demo 50). Defined.

(** The brightness acts on [refreshDisplay] only: its cycle then takes
    [REFRESH_STEPS] times the new on-time of delay, while [updateDisplay]
    and [clearDisplay] send the pins what they would have sent without the
    call. *)
Theorem setBrightness_only_refreshDisplay
    (b : Build) (d : SevSeg) (p : Z) :
  wired d →
  (∃ t, refreshDisplay b (setBrightness d p) = Some (setBrightness d p, t)
        ∧ total_delay t
          = Z.of_nat (REFRESH_STEPS b d) * ledOnTime (setBrightness d p))
  ∧ updateDisplay b (setBrightness d p)
    = (λ r, (setBrightness r.1 p, r.2)) <$> updateDisplay b d
  ∧ clearDisplay (setBrightness d p)
    = (λ r, (setBrightness r.1 p, r.2)) <$> clearDisplay d.
Proof.
  intros Hw. split; [|split].
  - assert (wired (setBrightness d p)) as Hw' by done.
    eexists. split; [by apply refreshDisplay_spec|].
    by rewrite total_delay_steps, length_seq.
  - unfold updateDisplay.
    change (lightsOff b (setBrightness d p) (common (setBrightness d p)))
      with (lightsOff b d (common d)).
    destruct (lightsOff b d (common d)) as [off|]; [|done].
    cbn [mbind option_bind].
    change (lightsOn b
              (set_common (setBrightness d p)
                 (next_common b (setBrightness d p)))
              (common (set_common (setBrightness d p)
                         (next_common b (setBrightness d p)))))
      with (lightsOn b (set_common d (next_common b d))
              (common (set_common d (next_common b d)))).
    by destruct (lightsOn b _ _).
  - unfold clearDisplay.
    change (write_all (numDigits (setBrightness d p))
              (digitPins (setBrightness d p)) (digitOff (setBrightness d p)))
      with (write_all (numDigits d) (digitPins d) (digitOff d)).
    destruct (write_all (numDigits d) _ _); [|done].
    cbn [mbind option_bind].
    change (write_all S7_SEGMENTS (segmentPins (setBrightness d p))
              (segmentOff (setBrightness d p)))
      with (write_all S7_SEGMENTS (segmentPins d) (segmentOff d)).
    destruct (write_all S7_SEGMENTS _ _); [|done].
    cbn [mbind option_bind fmap option_fmap option_map].
    by destruct d.
Qed.

Lemma setBrightness_only_refreshDisplay_witness :
  (∃ t, refreshDisplay on_digits (setBrightness demo 50)
          = Some (setBrightness demo 50, t)
        ∧ total_delay t
          = Z.of_nat (REFRESH_STEPS on_digits demo)
            * ledOnTime (setBrightness demo 50))
  ∧ updateDisplay on_digits (setBrightness demo 50)
    = (λ r, (setBrightness r.1 50, r.2)) <$> updateDisplay on_digits demo
  ∧ clearDisplay (setBrightness demo 50)
    = (λ r, (setBrightness r.1 50, r.2)) <$> clearDisplay demo.
Proof.
  apply (setBrightness_only_refreshDisplay on_digits demo 50).
  unfold wired. simpl. lia.
Defined.

(** * More on the [float] entry point *)

Lemma setNumber_float_via (s : Statics) (d : SevSeg) x dp :
  setNumber_float s d x dp = n ← rounded_long x dp; setNewNum s d n dp.
Proof.
  unfold setNumber_float, rounded_long.
  destruct (powersOf10 !! dp) as [p|]; [|done]. cbn [mbind option_bind].
  destruct (float_of_long p) as [pf|]; [|done]. cbn [mbind option_bind].
  destruct (fmul x pf) as [y|]; [|done]. cbn [mbind option_bind].
  by destruct (fadd y _).
Qed.

(** A whole number below [2 ^ 23] in absolute value goes through the
    [float] entry point unchanged: its conversion to [float] is exact, and
    [setNumber((float) n, 0)] shows what [setNumber(n, 0)] shows. *)
Theorem setNumber_float_whole (s : Statics) (d : SevSeg) (n : Z) :
  Z.abs n < 2 ^ 23 →
  float_of_long n = Some {| mant := n; expo := 0 |}
  ∧ rounded_long {| mant := n; expo := 0 |} 0 = Some n
  ∧ setNumber_float s d {| mant := n; expo := 0 |} 0 = setNumber s d n 0.
Proof.
  intros Hn.
  assert (2 ^ 23 = 8388608) as E23 by reflexivity.
  assert (2 ^ 24 = 16777216) as E24 by reflexivity.
  assert (2 ^ 31 = 2147483648) as E31 by reflexivity.
  assert (rounded_long {| mant := n; expo := 0 |} 0 = Some n) as Hr.
  { unfold rounded_long. simpl (powersOf10 !! 0%nat).
    cbn [mbind option_bind].
    change (float_of_long 1) with (Some {| mant := 1; expo := 0 |}).
    cbn [mbind option_bind]. unfold fmul. simpl mant. simpl expo.
    rewrite Z.mul_1_r. rewrite round24_exact by lia.
    cbn [mbind option_bind].
    set (y := {| mant := n; expo := 0 |}).
    set (h := if fge0 y then half else minus_half).
    assert (exact_add y h
            = {| mant := n * 2 + (if 0 <=? n then 1 else -1); expo := -1 |})
      as Hsum.
    { unfold h, exact_add, fge0, y. simpl. by destruct (0 <=? n). }
    unfold fadd. cbv zeta. change (0 + 0) with 0. fold y. fold h.
    rewrite Hsum. simpl mant. simpl expo.
    rewrite round24_exact by (destruct (0 <=? n); lia).
    cbn [mbind option_bind]. rewrite <- Hsum. unfold h.
    unfold long_of_float. rewrite ftrunc_sum.
    unfold round_half_away, y. simpl. rewrite Z.mul_1_r.
    replace (_ <=? n) with true by (symmetry; apply Z.leb_le; lia).
    by replace (n <? _) with true by (symmetry; apply Z.ltb_lt; lia). }
  split; [apply round24_exact; lia|]. split; [done|].
  by rewrite setNumber_float_via, Hr.
Qed.

Lemma setNumber_float_whole_witness :
  float_of_long (-42) = Some {| mant := -42; expo := 0 |}
  ∧ rounded_long {| mant := -42; expo := 0 |} 0 = Some (-42)
  ∧ setNumber_float None demo {| mant := -42; expo := 0 |} 0
    = setNumber None demo (-42) 0.
Proof. apply (setNumber_float_whole None demo (-42)). reflexivity. Defined.

Lemma rne_shift_opp m sh : rne_shift (- m) sh = - rne_shift m sh.
Proof.
  unfold rne_shift. destruct (Z.leb_spec sh 0) as [Hsh | Hsh]; [done|].
  assert (0 < 2 ^ (sh - 1)) as Hh by (apply Z.pow_pos_nonneg; lia).
  assert (2 ^ sh = 2 * 2 ^ (sh - 1)) as HP.
  { replace sh with (1 + (sh - 1)) at 1 by lia.
    by rewrite Z.pow_add_r by lia. }
  pose proof (Z.mod_pos_bound m (2 ^ sh) ltac:(lia)) as Hr.
  destruct (Z.eq_dec (m `mod` 2 ^ sh) 0) as [Hz | Hnz].
  - rewrite Z.div_opp_l_z, Z.mod_opp_l_z by (done || lia). rewrite Hz.
    by replace (0 <? 2 ^ (sh - 1)) with true by (symmetry; apply Z.ltb_lt; lia).
  - rewrite Z.div_opp_l_nz, Z.mod_opp_l_nz by (done || lia).
    set (q := m `div` 2 ^ sh) in *. set (r := m `mod` 2 ^ sh) in *.
    set (hf := 2 ^ (sh - 1)) in *. rewrite HP.
    destruct (Z.ltb_spec r hf) as [H1 | H1].
    + replace (2 * hf - r <? hf) with false by (symmetry; apply Z.ltb_ge; lia).
      replace (hf <? 2 * hf - r) with true by (symmetry; apply Z.ltb_lt; lia).
      lia.
    + destruct (Z.ltb_spec hf r) as [H2 | H2].
      * replace (2 * hf - r <? hf) with true
          by (symmetry; apply Z.ltb_lt; lia). lia.
      * assert (r = hf) as -> by lia.
        replace (2 * hf - hf <? hf) with false
          by (symmetry; apply Z.ltb_ge; lia).
        replace (hf <? 2 * hf - hf) with false
          by (symmetry; apply Z.ltb_ge; lia).
        replace (- q - 1) with (- q - 1 * 1) by lia.
        rewrite Z.even_sub, Z.even_opp. simpl (Z.even (1 * 1)).
        destruct (Z.even q); simpl; lia.
Qed.

Lemma round24_opp m e : round24 (- m) e = fneg <$> round24 m e.
Proof.
  unfold round24. rewrite Z.abs_opp, rne_shift_opp, Z.abs_opp.
  by destruct (_ <? _).
Qed.

Lemma fmul_opp x p : fmul (fneg x) p = fneg <$> fmul x p.
Proof.
  unfold fmul, fneg. simpl. by rewrite Z.mul_opp_l, round24_opp.
Qed.

Lemma ftrunc_opp a : ftrunc (fneg a) = - ftrunc a.
Proof.
  unfold ftrunc, fneg. simpl. destruct (Z.leb_spec 0 (expo a)).
  - lia.
  - apply Z.quot_opp_l. apply Z.pow_nonzero; lia.
Qed.

Lemma exact_add_opp a b :
  exact_add (fneg a) (fneg b) = fneg (exact_add a b).
Proof. unfold exact_add, fneg. simpl. f_equal. lia. Qed.

Lemma fadd_opp a b : fadd (fneg a) (fneg b) = fneg <$> fadd a b.
Proof.
  unfold fadd. cbv zeta. rewrite exact_add_opp.
  change (mant (fneg (exact_add a b))) with (- mant (exact_add a b)).
  change (expo (fneg (exact_add a b))) with (expo (exact_add a b)).
  apply round24_opp.
Qed.

(** Adding one half to a zero gives a value that truncates to 0, whatever
    the exponent the zero carries. *)
Lemma fadd_zero_half y :
  mant y = 0 → -149 <= expo y →
  ∃ r, fadd y half = Some r ∧ ftrunc r = 0.
Proof.
  destruct y as [m e]. simpl. intros -> He. unfold fadd, exact_add.
  simpl mant. simpl expo. cbv zeta. simpl mant. simpl expo.
  destruct (Z.le_gt_cases (-1) e) as [Hge | Hlt].
  - replace (Z.min e (-1)) with (-1) by lia.
    change (-1 - -1) with 0. rewrite Z.mul_0_l. change (0 + 1 * 2 ^ 0) with 1.
    rewrite round24_exact by (done || lia). by eexists.
  - replace (Z.min e (-1)) with e by lia. rewrite Z.mul_0_l, Z.mul_1_l.
    rewrite Z.add_0_l.
    set (k := -1 - e). assert (1 <= k <= 148) as Hk by (unfold k; lia).
    destruct (Z.lt_ge_cases k 24) as [Hsmall | Hbig].
    + assert (0 < 2 ^ k < 2 ^ 24) as Hp.
      { split; [apply Z.pow_pos_nonneg; lia|].
        apply Z.pow_lt_mono_r; lia. }
      rewrite round24_exact by lia. eexists. split; [done|].
      unfold ftrunc. simpl.
      replace (0 <=? e) with false by (symmetry; apply Z.leb_gt; lia).
      apply Z.quot_small. split; [lia|].
      apply Z.pow_lt_mono_r; lia.
    + unfold round24.
      assert (0 < 2 ^ k) as Hp by (apply Z.pow_pos_nonneg; lia).
      rewrite (Z.abs_eq (2 ^ k)) by lia. rewrite Z.log2_pow2 by lia.
      replace (Z.max 0 (Z.max (k - 23) (-149 - e))) with (k - 23) by lia.
      assert (rne_shift (2 ^ k) (k - 23) = 2 ^ 23) as ->.
      { unfold rne_shift.
        replace (k - 23 <=? 0) with false by (symmetry; apply Z.leb_gt; lia).
        assert (2 ^ k = 2 ^ 23 * 2 ^ (k - 23)) as ->.
        { rewrite <- Z.pow_add_r by lia. f_equal. lia. }
        assert (0 < 2 ^ (k - 23)) by (apply Z.pow_pos_nonneg; lia).
        assert (0 < 2 ^ (k - 23 - 1)) by (apply Z.pow_pos_nonneg; lia).
        rewrite Z.div_mul, Z.mod_mul by lia.
        by replace (0 <? 2 ^ (k - 23 - 1)) with true
          by (symmetry; apply Z.ltb_lt; lia). }
      replace (e + (k - 23)) with (-24) by (unfold k; lia).
      eexists. split; [reflexivity | reflexivity].
Qed.

(** Negating the float negates the number shown: when [setNumber] turns
    [x] into the integer [n], other than the least [long], it turns [-x]
    into [-n].  Rounding is symmetric about zero. *)
Theorem setNumber_float_negated
    (s : Statics) (d : SevSeg) (x : float32) (dp : nat) (n : Z) :
  rounded_long x dp = Some n → n ≠ - 2 ^ 31 →
  rounded_long (fneg x) dp = Some (- n)
  ∧ setNumber_float s d x dp = setNumber s d n dp
  ∧ setNumber_float s d (fneg x) dp = setNumber s d (- n) dp.
Proof.
  intros Hx Hn.
  assert (rounded_long (fneg x) dp = Some (- n)) as Hneg.
  { unfold rounded_long in *.
    apply bind_Some in Hx as (p & Hp & Hx).
    apply bind_Some in Hx as (pf & Hpf & Hx).
    apply bind_Some in Hx as (y & Hy & Hx).
    apply bind_Some in Hx as (r & Hr & Hx).
    rewrite Hp. cbn [mbind option_bind]. rewrite Hpf.
    cbn [mbind option_bind]. rewrite fmul_opp, Hy.
    cbn [fmap option_fmap option_map mbind option_bind].
    pose proof (round24_expo _ _ _ Hy) as He.
    assert (- 2 ^ 31 <= ftrunc r < 2 ^ 31 ∧ ftrunc r = n) as [[Hlo Hhi] Hnr].
    { revert Hx. unfold long_of_float.
      destruct (Z.leb_spec (- 2 ^ 31) (ftrunc r));
        destruct (Z.ltb_spec (ftrunc r) (2 ^ 31)); simpl; intros Hx;
        inversion Hx. lia. }
    destruct (Z.eq_dec (mant y) 0) as [Hz | Hnz].
    - assert (fneg y = y) as -> by (destruct y; simpl in *; by subst).
      rewrite Hr. cbn [mbind option_bind].
      assert (fge0 y = true) as Hge by (unfold fge0; by rewrite Hz).
      rewrite Hge in Hr.
      destruct (fadd_zero_half y Hz He) as (r' & Hr' & Ht).
      rewrite Hr' in Hr. inversion Hr; subst r'.
      unfold long_of_float. rewrite Ht in *. by subst n.
    - assert ((if fge0 (fneg y) then half else minus_half)
              = fneg (if fge0 y then half else minus_half)) as ->.
      { unfold fge0, fneg. simpl.
        destruct (Z.leb_spec 0 (mant y)), (Z.leb_spec 0 (- mant y));
          (reflexivity || lia). }
      rewrite fadd_opp, Hr.
      cbn [fmap option_fmap option_map mbind option_bind].
      unfold long_of_float. rewrite ftrunc_opp, Hnr.
      replace (- 2 ^ 31 <=? - n) with true
        by (symmetry; apply Z.leb_le; lia).
      by replace (- n <? 2 ^ 31) with true
        by (symmetry; apply Z.ltb_lt; lia). }
  split; [done|].
  by rewrite !setNumber_float_via, Hx, Hneg.
Qed.

Lemma setNumber_float_negated_witness :
  rounded_long (fneg f_1_25) 1 = Some (- 13)
  ∧ setNumber_float None demo f_1_25 1 = setNumber None demo 13 1
  ∧ setNumber_float None demo (fneg f_1_25) 1 = setNumber None demo (- 13) 1.
Proof.
  apply (setNumber_float_negated None demo f_1_25 1 13);
    [reflexivity | discriminate].
Defined.

(** * Totality of the encoder, and a cursor out of range *)

(** With [maxNum] and [minNum] those of the digit count, no value and no
    [decPlaces] takes [setNumber] outside an array or the glyph table: each
    glyph [findDigits] leaves is one of the 12 of the table, and the call
    returns with [numDigits] and the length of [digitCodes] unchanged. *)
Theorem setNumber_always_defined
    (s : Statics) (d : SevSeg) (v : Z) (dp : nat) :
  (1 <= numDigits d <= 9)%nat → statics_for (numDigits d) s →
  (numDigits d <= length (digitCodes d))%nat →
  ∃ out s' d',
    findDigits (numDigits d) s v dp (replicate (numDigits d) 0)
      = Some (s', out)
    ∧ length out = numDigits d ∧ Forall is_glyph out
    ∧ setNumber s d v dp = Some (s', d')
    ∧ numDigits d' = numDigits d
    ∧ length (digitCodes d') = length (digitCodes d).
Proof.
  intros HN Hs Hc. eexists _, _, _.
  split; [apply findDigits_shown; rewrite ?length_replicate; done|].
  split; [apply glyphs_shown_length; lia|].
  split; [apply glyphs_shown_glyphs; lia|].
  split; [by apply setNewNum_shown|]. split; [done|]. simpl.
  rewrite length_app, length_imap, length_drop.
  rewrite glyphs_shown_length by lia. lia.
Qed.

Lemma setNumber_always_defined_witness :
  ∃ out s' d',
    findDigits (numDigits demo) None (- 2 ^ 31) 200
      (replicate (numDigits demo) 0) = Some (s', out)
    ∧ length out = numDigits demo ∧ Forall is_glyph out
    ∧ setNumber None demo (- 2 ^ 31) 200 = Some (s', d')
    ∧ numDigits d' = numDigits demo
    ∧ length (digitCodes d') = length (digitCodes demo).
Proof.
  apply (setNumber_always_defined None demo (- 2 ^ 31) 200); simpl;
    [lia | by left | lia].
Defined.

(** A cursor at or beyond [REFRESH_STEPS] is not brought back by
    [updateDisplay]: below 255 it moves on to the next value, still out of
    range, and the call addresses the pin array of the shared lines at the
    cursor, which is outside that array once the cursor reaches its
    length. *)
Theorem updateDisplay_cursor_out_of_range (b : Build) (d : SevSeg) :
  (REFRESH_STEPS b d <= common d < 255)%nat →
  (∀ d' t, updateDisplay b d = Some (d', t) →
     d' = set_common d (S (common d))
     ∧ (REFRESH_STEPS b d' <= common d')%nat)
  ∧ (RESISTORS b = ON_DIGITS → (length (segmentPins d) <= common d)%nat →
     updateDisplay b d = None)
  ∧ (RESISTORS b = ON_SEGMENTS → (length (digitPins d) <= common d)%nat →
     updateDisplay b d = None).
Proof.
  intros [Hlo Hhi].
  assert (next_common b d = S (common d)) as Hnext.
  { unfold next_common. rewrite Nat.mod_small by lia.
    by replace (S (common d) =? REFRESH_STEPS b d)%nat with false
      by (symmetry; apply Nat.eqb_neq; lia). }
  split; [|split].
  - intros d' t H. unfold updateDisplay in H.
    apply bind_Some in H as (off & _ & H).
    apply bind_Some in H as (on & _ & H).
    inversion H. rewrite Hnext. split; [done|]. simpl.
    change (REFRESH_STEPS b (set_common d (S (common d))))
      with (REFRESH_STEPS b d). lia.
  - intros Hb Hlen. unfold updateDisplay, lightsOff. rewrite Hb.
    by rewrite (lookup_ge_None_2 (segmentPins d)) by done.
  - intros Hb Hlen. unfold updateDisplay, lightsOff. rewrite Hb.
    by rewrite (lookup_ge_None_2 (digitPins d)) by done.
Qed.

Lemma updateDisplay_cursor_out_of_range_witness :
  (REFRESH_STEPS on_segments (set_common (driver world_4_2) 2)
   <= common (set_common (driver world_4_2) 2) < 255)%nat
  ∧ ∃ d' t,
      updateDisplay on_segments (set_common (driver world_4_2) 2)
        = Some (d', t)
      ∧ d' = set_common (set_common (driver world_4_2) 2)
               (S (common (set_common (driver world_4_2) 2)))
      ∧ (REFRESH_STEPS on_segments d' <= common d')%nat.
Proof.
  assert (REFRESH_STEPS on_segments (set_common (driver world_4_2) 2)
          <= common (set_common (driver world_4_2) 2) < 255)%nat as H
    by (unfold REFRESH_STEPS; simpl; lia).
  split; [exact H|].
  destruct (updateDisplay on_segments (set_common (driver world_4_2) 2))
    as [[d' t]|] eqn:E; [|by vm_compute in E].
  exists d', t. split; [done|].
  exact (proj1 (updateDisplay_cursor_out_of_range on_segments
                  (set_common (driver world_4_2) 2) H) d' t E).
Defined.
